(** * wavepipe: the filesystem file source (MediaScan and OrphanScan)

    A shallow embedding of [fsFileSource.MediaScan] and
    [fsFileSource.OrphanScan] of package [core], with the record store
    ([data.DB] and the [Load]/[Save]/[Update]/[Delete] methods of the
    [data] records), the filesystem and the tag reader as explicit
    collaborators, followed by the properties of the two scans. *)

From Stdlib Require Import ZArith String Ascii List Bool Lia.
From Stdlib Require Import DecimalString DecimalPos DecimalZ.
From stdpp Require Import base strings gmap list.

Set Warnings "-register-all".

Local Open Scope string_scope.
Local Open Scope list_scope.
Local Open Scope Z_scope.

(** ** Errors *)

(** Go [error] values.  The scans tell three kinds apart: the sentinel
    [sql.ErrNoRows], errors for which [os.IsNotExist] holds, and every
    other error, which only carries its text. *)
Inductive error : Type :=
| ErrNoRows
| ErrNotExist (msg : string)
| ErrMsg (msg : string).

Inductive result (A : Type) : Type :=
| Ok (a : A)
| Err (e : error).
Arguments Ok {A} a.
Arguments Err {A} e.

(** [err.Error()] *)
Definition error_string (e : error) : string :=
  match e with
  | ErrNoRows => "sql: no rows in result set"
  | ErrNotExist msg => msg
  | ErrMsg msg => msg
  end.

(** [os.IsNotExist(err)] *)
Definition IsNotExist (e : error) : bool :=
  match e with
  | ErrNotExist _ => true
  | _ => false
  end.

Definition is_ErrNoRows (e : error) : bool :=
  match e with
  | ErrNoRows => true
  | _ => false
  end.

Definition haltedByChannel : error := ErrMsg "media scan: halted by channel".

(** ** Records of package [data]

    Modelled from the spec: the struct declarations of package [data] are
    not part of the sources; the fields are those the two scans read or
    write, with the attributes section 3 of the specification lists. *)

Module Folder.
Record t : Type := mk {
  ID : Z;
  ParentID : Z;
  Title : string;
  Path : string
}.
Definition new : t := mk 0 0 "" "".
Definition withID (v : Z) (f : t) : t := mk v (ParentID f) (Title f) (Path f).
Definition withParentID (v : Z) (f : t) : t := mk (ID f) v (Title f) (Path f).
Definition withTitle (v : string) (f : t) : t := mk (ID f) (ParentID f) v (Path f).
Definition withPath (v : string) (f : t) : t := mk (ID f) (ParentID f) (Title f) v.
End Folder.

Module Artist.
Record t : Type := mk {
  ID : Z;
  Title : string
}.
Definition withID (v : Z) (a : t) : t := mk v (Title a).
End Artist.

Module Album.
Record t : Type := mk {
  ID : Z;
  Artist : string;
  ArtistID : Z;
  Title : string;
  Year : Z
}.
Definition withID (v : Z) (a : t) : t := mk v (Artist a) (ArtistID a) (Title a) (Year a).
Definition withArtistID (v : Z) (a : t) : t := mk (ID a) (Artist a) v (Title a) (Year a).
End Album.

Module Song.
Record t : Type := mk {
  ID : Z;
  Album : string;
  AlbumID : Z;
  ArtID : Z;
  Artist : string;
  ArtistID : Z;
  Bitrate : Z;
  FileName : string;
  FileSize : Z;
  FileTypeID : Z;
  FolderID : Z;
  LastModified : Z;
  Title : string;
  Track : Z;
  Year : Z
}.
Definition new : t := mk 0 "" 0 0 "" 0 0 "" 0 0 0 0 "" 0 0.
Definition withID (v : Z) (s : t) : t :=
  mk v (Album s) (AlbumID s) (ArtID s) (Artist s) (ArtistID s) (Bitrate s) (FileName s)
     (FileSize s) (FileTypeID s) (FolderID s) (LastModified s) (Title s) (Track s) (Year s).
Definition withArtID (v : Z) (s : t) : t :=
  mk (ID s) (Album s) (AlbumID s) v (Artist s) (ArtistID s) (Bitrate s) (FileName s)
     (FileSize s) (FileTypeID s) (FolderID s) (LastModified s) (Title s) (Track s) (Year s).
Definition withIDs (artist album : Z) (s : t) : t :=
  mk (ID s) (Album s) album (ArtID s) (Artist s) artist (Bitrate s) (FileName s)
     (FileSize s) (FileTypeID s) (FolderID s) (LastModified s) (Title s) (Track s) (Year s).
Definition withFile (name : string) (size modified : Z) (s : t) : t :=
  mk (ID s) (Album s) (AlbumID s) (ArtID s) (Artist s) (ArtistID s) (Bitrate s) name
     size (FileTypeID s) (FolderID s) modified (Title s) (Track s) (Year s).
Definition withFolderID (v : Z) (s : t) : t :=
  mk (ID s) (Album s) (AlbumID s) (ArtID s) (Artist s) (ArtistID s) (Bitrate s) (FileName s)
     (FileSize s) (FileTypeID s) v (LastModified s) (Title s) (Track s) (Year s).
Definition withFileTypeID (v : Z) (s : t) : t :=
  mk (ID s) (Album s) (AlbumID s) (ArtID s) (Artist s) (ArtistID s) (Bitrate s) (FileName s)
     (FileSize s) v (FolderID s) (LastModified s) (Title s) (Track s) (Year s).
End Song.

Module Art.
Record t : Type := mk {
  ID : Z;
  FileName : string;
  FileSize : Z;
  LastModified : Z
}.
Definition new : t := mk 0 "" 0 0.
Definition withID (v : Z) (a : t) : t := mk v (FileName a) (FileSize a) (LastModified a).
End Art.

(** [folderArtPair] contains a folder ID and associated art ID *)
Record folderArtPair : Type := {
  folderID : Z;
  artID : Z
}.

(** Modelled from the spec: [data.ArtistFromSong] is not part of the
    sources; an artist is identified by its title, taken from the song. *)
Definition ArtistFromSong (song : Song.t) : Artist.t :=
  Artist.mk 0 (Song.Artist song).

(** Modelled from the spec: [data.AlbumFromSong] is not part of the
    sources; the album carries the artist name, the title and the year of
    the song. *)
Definition AlbumFromSong (song : Song.t) : Album.t :=
  Album.mk 0 (Song.Artist song) 0 (Song.Album song) (Song.Year song).

(** ** Paths ([path] of the Go standard library)

    [path.Ext], [path.Dir] and [path.Base] on the paths [filepath.Walk]
    hands to its callback, which are already clean. *)

Fixpoint string_rev_app (s acc : string) : string :=
  match s with
  | EmptyString => acc
  | String c s' => string_rev_app s' (String c acc)
  end.

Definition string_rev (s : string) : string := string_rev_app s "".

Definition is_slash (c : ascii) : bool := Ascii.eqb c "/"%char.
Definition is_dot (c : ascii) : bool := Ascii.eqb c "."%char.

(** The backwards loop of [path.Ext]: [r] is the part of the path not yet
    looked at, last byte first, [acc] the bytes already passed. *)
Fixpoint ext_loop (r acc : string) : string :=
  match r with
  | EmptyString => ""
  | String c r' =>
      if is_slash c then ""
      else if is_dot c then String c acc
      else ext_loop r' (String c acc)
  end.

Definition path_Ext (p : string) : string := ext_loop (string_rev p) "".

(** Drops the last element: what is left of [r] (reversed) from its first
    slash on. *)
Fixpoint drop_element (r : string) : string :=
  match r with
  | EmptyString => ""
  | String c r' => if is_slash c then r else drop_element r'
  end.

Fixpoint drop_slashes (r : string) : string :=
  match r with
  | EmptyString => ""
  | String c r' => if is_slash c then drop_slashes r' else r
  end.

(** The last element of [r] (reversed), put back in order. *)
Fixpoint last_element (r acc : string) : string :=
  match r with
  | EmptyString => acc
  | String c r' => if is_slash c then acc else last_element r' (String c acc)
  end.

(** [path.Dir]: the path up to its last slash, cleaned. *)
Definition path_Dir (p : string) : string :=
  match drop_element (string_rev p) with
  | EmptyString => "."
  | String c r' =>
      match drop_slashes (String c r') with
      | EmptyString => "/"
      | d => string_rev d
      end
  end.

(** [path.Base] *)
Definition path_Base (p : string) : string :=
  match p with
  | EmptyString => "."
  | _ =>
      match last_element (drop_slashes (string_rev p)) "" with
      | EmptyString => "/"
      | b => b
      end
  end.

(** [filepath.Join] of a clean directory and a name *)
Definition path_Join (dir name : string) : string :=
  if String.eqb dir "/" then String.append dir name
  else String.append dir (String.append "/" name).

(** [strconv.Itoa] *)
Definition Itoa (n : Z) : string := NilZero.string_of_int (Z.to_int n).


(** ** The record store ([data.DB])

    Modelled from the spec: the store is not part of the sources.  Section
    6 of the specification gives its interface: [Load] fills a record from
    its identity fields or fails with not-found, [Save] assigns the numeric
    identity and persists, [Update] persists the fields of the record with
    that identity, [Delete] removes it, and the bulk queries select by
    folder or by path.  Every call is written to a journal, and any call
    may fail with an error chosen by the environment. *)

Inductive call : Type :=
| LoadFolder (path : string)
| SaveFolder (f : Folder.t)
| DeleteFolder (f : Folder.t)
| LoadArtist (title : string)
| SaveArtist (a : Artist.t)
| LoadAlbum (artistID : Z) (title : string)
| SaveAlbum (a : Album.t)
| LoadSong (fileName : string)
| SaveSong (s : Song.t)
| UpdateSong (s : Song.t)
| DeleteSong (s : Song.t)
| LoadArt (fileName : string)
| SaveArt (a : Art.t)
| DeleteArt (a : Art.t)
| SongsForFolder (folder : Z)
| ArtNotInPath (base : string)
| SongsNotInPath (base : string)
| FoldersNotInPath (base : string)
| ArtInPath (sub : string)
| SongsInPath (sub : string)
| FoldersInPath (sub : string)
| PurgeOrphanAlbums
| PurgeOrphanArtists.

Record DB : Type := mkDB {
  folders : list Folder.t;
  artists : list Artist.t;
  albums : list Album.t;
  songs : list Song.t;
  art : list Art.t;
  journal : list call
}.

Definition emptyDB : DB := mkDB [] [] [] [] [] [].

Definition record_call (c : call) (d : DB) : DB :=
  mkDB (folders d) (artists d) (albums d) (songs d) (art d) (journal d ++ [c]).
Definition set_folders (v : list Folder.t) (d : DB) : DB :=
  mkDB v (artists d) (albums d) (songs d) (art d) (journal d).
Definition set_artists (v : list Artist.t) (d : DB) : DB :=
  mkDB (folders d) v (albums d) (songs d) (art d) (journal d).
Definition set_albums (v : list Album.t) (d : DB) : DB :=
  mkDB (folders d) (artists d) v (songs d) (art d) (journal d).
Definition set_songs (v : list Song.t) (d : DB) : DB :=
  mkDB (folders d) (artists d) (albums d) v (art d) (journal d).
Definition set_art (v : list Art.t) (d : DB) : DB :=
  mkDB (folders d) (artists d) (albums d) (songs d) v (journal d).

(** The plan of store failures: the error a call fails with, if any. *)
Definition fault_plan : Type := call -> option error.

Definition no_faults : fault_plan := fun _ => None.

(** A store call: journalled, then failed by the plan or carried out. *)
Definition invoke {A : Type} (faults : fault_plan) (c : call)
    (body : DB -> result A * DB) (d : DB) : result A * DB :=
  let d' := record_call c d in
  match faults c with
  | Some e => (Err e, d')
  | None => body d'
  end.

(** The identity [Save] assigns: one more than the largest in the table. *)
Definition nextID (ids : list Z) : Z := 1 + fold_right Z.max 0 ids.

Definition found {A : Type} (o : option A) : result A :=
  match o with
  | Some a => Ok a
  | None => Err ErrNoRows
  end.

(** The elements of a path, in order: what lies between its slashes.
    [cur] holds the bytes of the element being read, last byte first. *)
Fixpoint path_elements (p cur : string) : list string :=
  match p with
  | EmptyString => if String.eqb cur "" then [] else [string_rev cur]
  | String c r =>
      if is_slash c then
        if String.eqb cur "" then path_elements r ""
        else string_rev cur :: path_elements r ""
      else path_elements r (String c cur)
  end.

(** The elements [base] are the first elements of [p]. *)
Fixpoint leads (base p : list string) : bool :=
  match base, p with
  | [], _ => true
  | _ :: _, [] => false
  | b :: base', x :: p' => String.eqb b x && leads base' p'
  end.

(** Modelled from the spec: the path queries of the store are not part
    of the sources.  A path falls under [base] when it is [base] or a
    descendant of it: the elements of [base] are its first elements.  A
    path that only starts with the bytes of [base], as [/music2] does for
    [/music], is outside; every path falls under the empty path. *)
Definition in_path (base p : string) : bool :=
  leads (path_elements base "") (path_elements p "").

(** The record a [Load] by identity fields finds. *)
Definition folderAt (d : DB) (path : string) : option Folder.t :=
  find (fun f => String.eqb (Folder.Path f) path) (folders d).
Definition artistNamed (d : DB) (title : string) : option Artist.t :=
  find (fun a => String.eqb (Artist.Title a) title) (artists d).
Definition albumOf (d : DB) (artistID : Z) (title : string) : option Album.t :=
  find (fun a => (Album.ArtistID a =? artistID) && String.eqb (Album.Title a) title) (albums d).
Definition songAt (d : DB) (fileName : string) : option Song.t :=
  find (fun s => String.eqb (Song.FileName s) fileName) (songs d).
Definition artAt (d : DB) (fileName : string) : option Art.t :=
  find (fun a => String.eqb (Art.FileName a) fileName) (art d).

Section Store.
Variable faults : fault_plan.

Definition Folder_Load (path : string) : DB -> result Folder.t * DB :=
  invoke faults (LoadFolder path) (fun d =>
    (found (folderAt d path), d)).

Definition Folder_Save (f : Folder.t) : DB -> result Folder.t * DB :=
  invoke faults (SaveFolder f) (fun d =>
    let f' := Folder.withID (nextID (map Folder.ID (folders d))) f in
    (Ok f', set_folders (folders d ++ [f']) d)).

Definition Folder_Delete (f : Folder.t) : DB -> result unit * DB :=
  invoke faults (DeleteFolder f) (fun d =>
    (Ok tt, set_folders (List.filter (fun x => negb (Folder.ID x =? Folder.ID f)) (folders d)) d)).

Definition Artist_Load (title : string) : DB -> result Artist.t * DB :=
  invoke faults (LoadArtist title) (fun d =>
    (found (artistNamed d title), d)).

Definition Artist_Save (a : Artist.t) : DB -> result Artist.t * DB :=
  invoke faults (SaveArtist a) (fun d =>
    let a' := Artist.withID (nextID (map Artist.ID (artists d))) a in
    (Ok a', set_artists (artists d ++ [a']) d)).

Definition Album_Load (artistID : Z) (title : string) : DB -> result Album.t * DB :=
  invoke faults (LoadAlbum artistID title) (fun d =>
    (found (albumOf d artistID title), d)).

Definition Album_Save (a : Album.t) : DB -> result Album.t * DB :=
  invoke faults (SaveAlbum a) (fun d =>
    let a' := Album.withID (nextID (map Album.ID (albums d))) a in
    (Ok a', set_albums (albums d ++ [a']) d)).

Definition Song_Load (fileName : string) : DB -> result Song.t * DB :=
  invoke faults (LoadSong fileName) (fun d =>
    (found (songAt d fileName), d)).

Definition Song_Save (s : Song.t) : DB -> result Song.t * DB :=
  invoke faults (SaveSong s) (fun d =>
    let s' := Song.withID (nextID (map Song.ID (songs d))) s in
    (Ok s', set_songs (songs d ++ [s']) d)).

Definition Song_Update (s : Song.t) : DB -> result unit * DB :=
  invoke faults (UpdateSong s) (fun d =>
    (Ok tt, set_songs (map (fun x => if Song.ID x =? Song.ID s then s else x) (songs d)) d)).

Definition Song_Delete (s : Song.t) : DB -> result unit * DB :=
  invoke faults (DeleteSong s) (fun d =>
    (Ok tt, set_songs (List.filter (fun x => negb (Song.ID x =? Song.ID s)) (songs d)) d)).

Definition Art_Load (fileName : string) : DB -> result Art.t * DB :=
  invoke faults (LoadArt fileName) (fun d =>
    (found (artAt d fileName), d)).

Definition Art_Save (a : Art.t) : DB -> result Art.t * DB :=
  invoke faults (SaveArt a) (fun d =>
    let a' := Art.withID (nextID (map Art.ID (art d))) a in
    (Ok a', set_art (art d ++ [a']) d)).

Definition Art_Delete (a : Art.t) : DB -> result unit * DB :=
  invoke faults (DeleteArt a) (fun d =>
    (Ok tt, set_art (List.filter (fun x => negb (Art.ID x =? Art.ID a)) (art d)) d)).

Definition DB_SongsForFolder (folder : Z) : DB -> result (list Song.t) * DB :=
  invoke faults (SongsForFolder folder) (fun d =>
    (Ok (List.filter (fun s => Song.FolderID s =? folder) (songs d)), d)).

Definition DB_ArtNotInPath (base : string) : DB -> result (list Art.t) * DB :=
  invoke faults (ArtNotInPath base) (fun d =>
    (Ok (List.filter (fun a => negb (in_path base (Art.FileName a))) (art d)), d)).

Definition DB_SongsNotInPath (base : string) : DB -> result (list Song.t) * DB :=
  invoke faults (SongsNotInPath base) (fun d =>
    (Ok (List.filter (fun s => negb (in_path base (Song.FileName s))) (songs d)), d)).

Definition DB_FoldersNotInPath (base : string) : DB -> result (list Folder.t) * DB :=
  invoke faults (FoldersNotInPath base) (fun d =>
    (Ok (List.filter (fun f => negb (in_path base (Folder.Path f))) (folders d)), d)).

Definition DB_ArtInPath (sub : string) : DB -> result (list Art.t) * DB :=
  invoke faults (ArtInPath sub) (fun d =>
    (Ok (List.filter (fun a => in_path sub (Art.FileName a)) (art d)), d)).

Definition DB_SongsInPath (sub : string) : DB -> result (list Song.t) * DB :=
  invoke faults (SongsInPath sub) (fun d =>
    (Ok (List.filter (fun s => in_path sub (Song.FileName s)) (songs d)), d)).

Definition DB_FoldersInPath (sub : string) : DB -> result (list Folder.t) * DB :=
  invoke faults (FoldersInPath sub) (fun d =>
    (Ok (List.filter (fun f => in_path sub (Folder.Path f)) (folders d)), d)).

(** An album is kept while some song refers to it. *)
Definition album_has_song (d : DB) (a : Album.t) : bool :=
  existsb (fun s => Song.AlbumID s =? Album.ID a) (songs d).

(** An artist is kept while some album refers to it. *)
Definition artist_has_album (d : DB) (a : Artist.t) : bool :=
  existsb (fun x => Album.ArtistID x =? Artist.ID a) (albums d).

Definition DB_PurgeOrphanAlbums : DB -> result Z * DB :=
  invoke faults PurgeOrphanAlbums (fun d =>
    let kept := List.filter (album_has_song d) (albums d) in
    (Ok (Z.of_nat (length (albums d)) - Z.of_nat (length kept)), set_albums kept d)).

Definition DB_PurgeOrphanArtists : DB -> result Z * DB :=
  invoke faults PurgeOrphanArtists (fun d =>
    let kept := List.filter (artist_has_album d) (artists d) in
    (Ok (Z.of_nat (length (artists d)) - Z.of_nat (length kept)), set_artists kept d)).
End Store.

(** ** The environment of a scan *)

(** [os.FileInfo]: what the scans read of it. *)
Record FileInfo : Type := {
  Name : string;
  Size : Z;
  ModTime : Z;     (* [info.ModTime().Unix()] *)
  IsDir : bool
}.

(** The tags [taglib.Read] hands back for a file. *)
Record TagFile : Type := {
  tagTitle : string;
  tagArtist : string;
  tagAlbum : string;
  tagYear : Z;
  tagTrack : Z;
  tagBitrate : Z
}.

(** What a scan does not own: the extension tables of package [core] and
    [data] (declared outside the sources, taken as parameters), the
    filesystem, the tag reader, the failures of the store and the halt
    flag the cancellation goroutine sets.

    [Walk root] lists the calls [filepath.Walk root] makes to its callback
    while the callback returns nil: every entry of the tree in lexical
    pre-order with its [FileInfo], the root with no [FileInfo] when it
    cannot be read, a directory a second time when its listing fails.
    [haltWalk i] is the value of the flag of [MediaScan] as the [i]-th
    call of the callback reads it; [haltOrphanScan] is the flag the
    goroutine of [OrphanScan] sets. *)
Record Env : Type := {
  mediaSet : gset string;
  artSet : gset string;
  FileTypeMap : gmap string Z;
  Walk : string -> list (string * option FileInfo);
  ReadDir : string -> result (list FileInfo);
  Stat : string -> result FileInfo;
  taglib_Read : string -> result TagFile;
  songTagsError : TagFile -> option error;
  faults : fault_plan;
  haltWalk : nat -> bool;
  haltOrphanScan : nat -> bool
}.

(** [set.Has] *)
Definition Has (s : gset string) (x : string) : bool := bool_decide (x ∈ s).

(** Modelled from the spec: [data.SongFromFile] is not part of the
    sources; it derives the candidate song from the tag metadata, or
    fails. *)
Definition SongFromFile (env : Env) (file : TagFile) : result Song.t :=
  match songTagsError env file with
  | Some e => Err e
  | None =>
      Ok (Song.mk 0 (tagAlbum file) 0 0 (tagArtist file) 0 (tagBitrate file) "" 0 0 0 0
                  (tagTitle file) (tagTrack file) (tagYear file))
  end.

(** ** The state of one media scan: the store, the metrics, the new
    folder/art pairs and the three caches of the closure. *)
Record ScanState : Type := mkState {
  db : DB;
  artCount : Z;
  artistCount : Z;
  albumCount : Z;
  songCount : Z;
  songUpdateCount : Z;
  folderCount : Z;
  artFiles : list folderArtPair;
  folderCache : gmap string Folder.t;
  artistCache : gmap string Artist.t;
  albumCache : gmap string Album.t
}.

Definition initState (d : DB) : ScanState :=
  mkState d 0 0 0 0 0 0 [] ∅ ∅ ∅.

Definition set_db (v : DB) (s : ScanState) : ScanState :=
  mkState v (artCount s) (artistCount s) (albumCount s) (songCount s) (songUpdateCount s)
          (folderCount s) (artFiles s) (folderCache s) (artistCache s) (albumCache s).
Definition newArt (p : folderArtPair) (s : ScanState) : ScanState :=
  mkState (db s) (artCount s + 1) (artistCount s) (albumCount s) (songCount s)
          (songUpdateCount s) (folderCount s) (artFiles s ++ [p]) (folderCache s)
          (artistCache s) (albumCache s).
Definition incr_artistCount (s : ScanState) : ScanState :=
  mkState (db s) (artCount s) (artistCount s + 1) (albumCount s) (songCount s)
          (songUpdateCount s) (folderCount s) (artFiles s) (folderCache s) (artistCache s)
          (albumCache s).
Definition incr_albumCount (s : ScanState) : ScanState :=
  mkState (db s) (artCount s) (artistCount s) (albumCount s + 1) (songCount s)
          (songUpdateCount s) (folderCount s) (artFiles s) (folderCache s) (artistCache s)
          (albumCache s).
Definition incr_songCount (s : ScanState) : ScanState :=
  mkState (db s) (artCount s) (artistCount s) (albumCount s) (songCount s + 1)
          (songUpdateCount s) (folderCount s) (artFiles s) (folderCache s) (artistCache s)
          (albumCache s).
Definition incr_songUpdateCount (s : ScanState) : ScanState :=
  mkState (db s) (artCount s) (artistCount s) (albumCount s) (songCount s)
          (songUpdateCount s + 1) (folderCount s) (artFiles s) (folderCache s) (artistCache s)
          (albumCache s).
Definition incr_folderCount (s : ScanState) : ScanState :=
  mkState (db s) (artCount s) (artistCount s) (albumCount s) (songCount s)
          (songUpdateCount s) (folderCount s + 1) (artFiles s) (folderCache s) (artistCache s)
          (albumCache s).
Definition cacheFolder (f : Folder.t) (s : ScanState) : ScanState :=
  mkState (db s) (artCount s) (artistCount s) (albumCount s) (songCount s)
          (songUpdateCount s) (folderCount s) (artFiles s)
          (<[Folder.Path f := f]> (folderCache s)) (artistCache s) (albumCache s).
Definition cacheArtist (a : Artist.t) (s : ScanState) : ScanState :=
  mkState (db s) (artCount s) (artistCount s) (albumCount s) (songCount s)
          (songUpdateCount s) (folderCount s) (artFiles s) (folderCache s)
          (<[Artist.Title a := a]> (artistCache s)) (albumCache s).
Definition cacheAlbum (key : string) (a : Album.t) (s : ScanState) : ScanState :=
  mkState (db s) (artCount s) (artistCount s) (albumCount s) (songCount s)
          (songUpdateCount s) (folderCount s) (artFiles s) (folderCache s) (artistCache s)
          (<[key := a]> (albumCache s)).

(** The sum of all changes [MediaScan] returns. *)
Definition changes (s : ScanState) : Z :=
  artCount s + artistCount s + albumCount s + songCount s + folderCount s + songUpdateCount s.

(** ** The walk callback as a computation

    A step of the callback either goes on with a value or returns from the
    callback, with nil ([None]) or with an error; the state it has written
    stays written either way. *)
Definition M (A : Type) : Type := ScanState -> (A + option error) * ScanState.

Definition ret {A : Type} (a : A) : M A := fun st => (inl a, st).

(** [return r] out of the callback *)
Definition Return {A : Type} (r : option error) : M A := fun st => (inr r, st).

Definition bind {A B : Type} (m : M A) (k : A -> M B) : M B :=
  fun st =>
    match m st with
    | (inl a, st') => k a st'
    | (inr r, st') => (inr r, st')
    end.

Notation "'let*' x := m 'in' k" := (bind m (fun x => k))
  (at level 10, x name, m at level 100, k at level 200).
Notation "'exec' m 'then' k" := (bind m (fun _ => k))
  (at level 10, m at level 100, k at level 200).

(** A call to the store, whose outcome the callback inspects. *)
Definition store {A : Type} (op : DB -> result A * DB) : M (result A) :=
  fun st => let (r, d) := op (db st) in (inl r, set_db d st).

Definition modify (f : ScanState -> ScanState) : M unit :=
  fun st => (inl tt, f st).

Definition gets {A : Type} (f : ScanState -> A) : M A :=
  fun st => (inl (f st), st).

(** What the callback hands back to [filepath.Walk]. *)
Definition run (m : M unit) (st : ScanState) : option error * ScanState :=
  match m st with
  | (inl _, st') => (None, st')
  | (inr r, st') => (r, st')
  end.

(** ** [MediaScan]: the callback of the file walk *)

Section MediaScan.
Variable env : Env.

(** Lines 83-139: the folder of the item, from the cache, from the store,
    or saved as a new folder when the directory holds items. *)
Definition resolveFolder (currPath : string) (info : FileInfo) : M Folder.t :=
  let folder :=
    Folder.withPath (if IsDir info then currPath else path_Dir currPath) Folder.new in
  let* cache := gets folderCache in
  match cache !! Folder.Path folder with
  | Some tempFolder => ret tempFolder
  | None =>
      let* loaded := store (Folder_Load (faults env) (Folder.Path folder)) in
      match loaded with
      | Ok stored => ret stored
      | Err ErrNoRows =>
          (* Make sure items actually exist at this path *)
          match ReadDir env (Folder.Path folder) with
          | Err e => Return (Some e)
          | Ok files =>
              if (length files =? 0)%nat then Return None
              else
                let folder := Folder.withTitle (path_Base (Folder.Path folder)) folder in
                let pPath :=
                  if IsDir info then path_Dir currPath else path_Dir (path_Dir currPath) in
                let* parent := store (Folder_Load (faults env) pPath) in
                match parent with
                | Err (ErrNotExist _ as e) | Err (ErrMsg _ as e) => Return (Some e)
                | Ok _ | Err ErrNoRows =>
                    let pID := match parent with Ok p => Folder.ID p | Err _ => 0 end in
                    let* saved := store (Folder_Save (faults env) (Folder.withParentID pID folder)) in
                    match saved with
                    | Err e => Return (Some e)
                    | Ok folder' =>
                        exec modify incr_folderCount then
                        ret folder'
                    end
                end
          end
      | Err _ => ret folder
      end
  end.

(** Lines 151-182: an item with an art extension. *)
Definition scanArt (currPath : string) (info : FileInfo) (folder : Folder.t) : M unit :=
  let* loaded := store (Art_Load (faults env) currPath) in
  match loaded with
  | Err ErrNoRows =>
      if Size info =? 0 then Return None
      else
        let* saved :=
          store (Art_Save (faults env) (Art.mk 0 currPath (Size info) (ModTime info))) in
        match saved with
        | Err _ => Return None
        | Ok art' =>
            exec modify (newArt {| folderID := Folder.ID folder; artID := Art.ID art' |}) then
            Return None
        end
  | _ => Return None
  end.

(** Lines 223-242: the artist of the song, from the cache, from the
    store, or saved as new. *)
Definition resolveArtist (artist : Artist.t) : M Artist.t :=
  let* cache := gets artistCache in
  match cache !! Artist.Title artist with
  | Some tempArtist => ret tempArtist
  | None =>
      let* loaded := store (Artist_Load (faults env) (Artist.Title artist)) in
      match loaded with
      | Ok stored => ret stored
      | Err ErrNoRows =>
          let* saved := store (Artist_Save (faults env) artist) in
          match saved with
          | Err _ => ret artist
          | Ok artist' =>
              exec modify incr_artistCount then
              ret artist'
          end
      | Err _ => ret artist
      end
  end.

Definition albumCacheKey (album : Album.t) : string :=
  String.append (Itoa (Album.ArtistID album)) (String.append "_" (Album.Title album)).

(** Lines 244-267: the album of the song, likewise. *)
Definition resolveAlbum (album : Album.t) : M Album.t :=
  let* cache := gets albumCache in
  match cache !! albumCacheKey album with
  | Some tempAlbum => ret tempAlbum
  | None =>
      let* loaded :=
        store (Album_Load (faults env) (Album.ArtistID album) (Album.Title album)) in
      match loaded with
      | Ok stored => ret stored
      | Err ErrNoRows =>
          let* saved := store (Album_Save (faults env) album) in
          match saved with
          | Err _ => ret album
          | Ok album' =>
              exec modify incr_albumCount then
              ret album'
          end
      | Err _ => ret album
      end
  end.

(** Lines 273-296: save the song when the store has none at its path,
    update the stored one when the file is newer. *)
Definition reconcileSong (song : Song.t) : M unit :=
  let song2 := Song.withFile (Song.FileName song) 0 0 Song.new in
  let* loaded := store (Song_Load (faults env) (Song.FileName song2)) in
  match loaded with
  | Err ErrNoRows =>
      let* saved := store (Song_Save (faults env) song) in
      match saved with
      | Ok _ => modify incr_songCount
      | Err _ => ret tt
      end
  | _ =>
      let song2 := match loaded with Ok stored => stored | Err _ => song2 end in
      if Song.LastModified song >? Song.LastModified song2 then
        let* _ := store (Song_Update (faults env) (Song.withID (Song.ID song2) song)) in
        modify incr_songUpdateCount
      else ret tt
  end.

(** Lines 223-299: the artist, the album and the song record of a song
    read from a file. *)
Definition indexSong (song : Song.t) : M unit :=
  let* artist := resolveArtist (ArtistFromSong song) in
  exec modify (cacheArtist artist) then
  let album := Album.withArtistID (Artist.ID artist) (AlbumFromSong song) in
  let key := albumCacheKey album in
  let* album := resolveAlbum album in
  exec modify (cacheAlbum key album) then
  let song := Song.withIDs (Artist.ID artist) (Album.ID album) song in
  exec reconcileSong song then
  Return None.

(** Lines 184-299: an item with a media extension. *)
Definition scanSong (currPath : string) (info : FileInfo) (folder : Folder.t) : M unit :=
  match taglib_Read env currPath with
  | Err e =>
      Return (Some (ErrMsg (String.append currPath (String.append ": " (error_string e)))))
  | Ok file =>
      match SongFromFile env file with
      | Err e => Return (Some e)
      | Ok song =>
          let song := Song.withFile currPath (Size info) (ModTime info) song in
          if Song.FileSize song =? 0 then Return None
          else
            let song := Song.withFolderID (Folder.ID folder) song in
            let ext := path_Ext (Name info) in
            match FileTypeMap env !! ext with
            | None => Return (Some (ErrMsg (String.append "fs: invalid file type: " ext)))
            | Some fileType => indexSong (Song.withFileTypeID fileType song)
            end
      end
  end.

(** The callback [filepath.Walk] invokes on every item; [i] counts the
    calls, so that [haltWalk env i] is the flag as this call reads it. *)
Definition walkFn (i : nat) (currPath : string) (info : option FileInfo) : M unit :=
  if haltWalk env i then Return (Some haltedByChannel)
  else
    match info with
    | None => Return (Some (ErrMsg (String.append "media scan: invalid path: " currPath)))
    | Some info =>
        let* folder := resolveFolder currPath info in
        exec modify (cacheFolder folder) then
        let ext := path_Ext currPath in
        if negb (Has (mediaSet env) ext) && negb (Has (artSet env) ext) then Return None
        else if Has (artSet env) ext then scanArt currPath info folder
        else scanSong currPath info folder
    end.

(** [filepath.Walk]: the callback on every item in turn, up to the first
    error, which ends the walk. *)
Fixpoint walk (i : nat) (items : list (string * option FileInfo)) (st : ScanState)
    : option error * ScanState :=
  match items with
  | [] => (None, st)
  | (currPath, info) :: rest =>
      match run (walkFn i currPath info) st with
      | (Some e, st') => (Some e, st')
      | (None, st') => walk (S i) rest st'
      end
  end.

(** Lines 315-321: update songs with their new art ID. *)
Fixpoint updateArt (songs : list Song.t) (art : Z) (d : DB) : option error * DB :=
  match songs with
  | [] => (None, d)
  | s :: rest =>
      match Song_Update (faults env) (Song.withArtID art s) d with
      | (Err e, d') => (Some e, d')
      | (Ok _, d') => updateArt rest art d'
      end
  end.

(** Lines 307-322: iterate all new folder/art ID pairs. *)
Fixpoint associateArt (pairs : list folderArtPair) (d : DB) : option error * DB :=
  match pairs with
  | [] => (None, d)
  | a :: rest =>
      match DB_SongsForFolder (faults env) (folderID a) d with
      | (Err e, d') => (Some e, d')
      | (Ok songs, d') =>
          match updateArt songs (artID a) d' with
          | (Some e, d'') => (Some e, d'')
          | (None, d'') => associateArt rest d''
          end
      end
  end.

(** [MediaScan] scans for media files in the local filesystem.  The
    result is the pair the function returns and the store it leaves;
    [verbose] only selects what is logged. *)
Definition MediaScan (mediaFolder : string) (d : DB) : (Z * option error) * DB :=
  match walk 0 (Walk env mediaFolder) (initState d) with
  | (Some e, st) => ((0, Some e), db st)
  | (None, st) =>
      match associateArt (artFiles st) (db st) with
      | (Some e, d') => ((0, Some e), d')
      | (None, d') => ((changes st, None), d')
      end
  end.
End MediaScan.

(** ** [OrphanScan] *)

Section OrphanScan.
Variable env : Env.

(** The removal loops: every item of [items] that [doomed] selects is
    deleted from the store and counted; the first error ends the scan. *)
Fixpoint removeEach {A : Type} (doomed : A -> result bool)
    (delete : A -> DB -> result unit * DB) (items : list A) (count : Z) (d : DB)
    : result Z * DB :=
  match items with
  | [] => (Ok count, d)
  | a :: rest =>
      match doomed a with
      | Err e => (Err e, d)
      | Ok false => removeEach doomed delete rest count d
      | Ok true =>
          match delete a d with
          | (Err e, d') => (Err e, d')
          | (Ok _, d') => removeEach doomed delete rest (count + 1) d'
          end
      end
  end.

(** Lines 374, 392, 410: everything the query returned goes. *)
Definition always {A : Type} (a : A) : result bool := Ok true.

(** Lines 442, 463: [os.Stat] says the file does not exist. *)
Definition missing (fileName : string) : result bool :=
  match Stat env fileName with
  | Ok _ => Ok false
  | Err e => Ok (IsNotExist e)
  end.

(** Lines 483-490: the folder has no items left, or is gone. *)
Definition deserted (f : Folder.t) : result bool :=
  match ReadDir env (Folder.Path f) with
  | Ok files => Ok (length files =? 0)%nat
  | Err e => if IsNotExist e then Ok true else Err e
  end.

(** Lines 360-419: remove anything not under the base folder.  The
    result is the art, song and folder counts. *)
Definition baseEviction (baseFolder : string) (d : DB) : result (Z * Z * Z) * DB :=
  if String.eqb baseFolder "" then (Ok (0, 0, 0), d)
  else
    match DB_ArtNotInPath (faults env) baseFolder d with
    | (Err e, d) => (Err e, d)
    | (Ok art, d) =>
    match removeEach always (Art_Delete (faults env)) art 0 d with
    | (Err e, d) => (Err e, d)
    | (Ok artCount, d) =>
    match DB_SongsNotInPath (faults env) baseFolder d with
    | (Err e, d) => (Err e, d)
    | (Ok songs, d) =>
    match removeEach always (Song_Delete (faults env)) songs 0 d with
    | (Err e, d) => (Err e, d)
    | (Ok songCount, d) =>
    match DB_FoldersNotInPath (faults env) baseFolder d with
    | (Err e, d) => (Err e, d)
    | (Ok folders, d) =>
    match removeEach always (Folder_Delete (faults env)) folders 0 d with
    | (Err e, d) => (Err e, d)
    | (Ok folderCount, d) => (Ok (artCount, songCount, folderCount), d)
    end end end end end end.

(** Lines 432-498: remove the art, songs and folders of the subfolder
    that are gone from the filesystem, counting on from [counts]. *)
Definition existenceCheck (subFolder : string) (counts : Z * Z * Z) (d : DB)
    : result (Z * Z * Z) * DB :=
  let '(artCount, songCount, folderCount) := counts in
  match DB_ArtInPath (faults env) subFolder d with
  | (Err e, d) => (Err e, d)
  | (Ok art, d) =>
  match removeEach (fun a => missing (Art.FileName a)) (Art_Delete (faults env)) art artCount d with
  | (Err e, d) => (Err e, d)
  | (Ok artCount, d) =>
  match DB_SongsInPath (faults env) subFolder d with
  | (Err e, d) => (Err e, d)
  | (Ok songs, d) =>
  match removeEach (fun s => missing (Song.FileName s)) (Song_Delete (faults env)) songs songCount d with
  | (Err e, d) => (Err e, d)
  | (Ok songCount, d) =>
  match DB_FoldersInPath (faults env) subFolder d with
  | (Err e, d) => (Err e, d)
  | (Ok folders, d) =>
  match removeEach deserted (Folder_Delete (faults env)) folders folderCount d with
  | (Err e, d) => (Err e, d)
  | (Ok folderCount, d) => (Ok (artCount, songCount, folderCount), d)
  end end end end end end.

(** Lines 500-512: now that songs have been purged, check for albums,
    then for artists.  The result is the album and artist counts. *)
Definition cascadingPurge (d : DB) : result (Z * Z) * DB :=
  match DB_PurgeOrphanAlbums (faults env) d with
  | (Err e, d) => (Err e, d)
  | (Ok albumCount, d) =>
      match DB_PurgeOrphanArtists (faults env) d with
      | (Err e, d) => (Err e, d)
      | (Ok artistCount, d) => (Ok (albumCount, artistCount), d)
      end
  end.

(** [OrphanScan] scans for missing "orphaned" media files in the local
    filesystem.  The halt flag is set up at its head and read by none of
    its loops, so nothing below mentions [haltOrphanScan env]. *)
Definition OrphanScan (baseFolder subFolder : string) (d : DB) : (Z * option error) * DB :=
  match baseEviction baseFolder d with
  | (Err e, d) => ((0, Some e), d)
  | (Ok counts, d) =>
      let subFolder := if String.eqb subFolder "" then baseFolder else subFolder in
      match existenceCheck subFolder counts d with
      | (Err e, d) => ((0, Some e), d)
      | (Ok (artCount, songCount, folderCount), d) =>
          match cascadingPurge d with
          | (Err e, d) => ((0, Some e), d)
          | (Ok (albumCount, artistCount), d) =>
              ((artCount + artistCount + albumCount + songCount + folderCount, None), d)
          end
      end
  end.
End OrphanScan.

(** ** Filesystem trees

    A concrete filesystem to run the scans on: the environment of a tree
    lists, stats and walks its nodes the way the [os], [ioutil] and
    [filepath] packages do for a directory tree on disk. *)

Inductive node : Type :=
| File (name : string) (size modified : Z)
| Directory (name : string) (items : list node).

Definition node_info (n : node) : FileInfo :=
  match n with
  | File name size modified =>
      {| Name := name; Size := size; ModTime := modified; IsDir := false |}
  | Directory name _ =>
      {| Name := name; Size := 4096; ModTime := 0; IsDir := true |}
  end.

(** The calls of [filepath.Walk] below [dir], in pre-order. *)
Fixpoint visits (dir : string) (n : node) : list (string * option FileInfo) :=
  let p := path_Join dir (Name (node_info n)) in
  match n with
  | File _ _ _ => [(p, Some (node_info n))]
  | Directory _ items => (p, Some (node_info n)) :: flat_map (visits p) items
  end.

(** The node at path [p], looked for below [dir]. *)
Fixpoint node_at (dir : string) (n : node) (p : string) : option node :=
  let q := path_Join dir (Name (node_info n)) in
  if String.eqb q p then Some n
  else
    match n with
    | File _ _ _ => None
    | Directory _ items =>
        fold_right (fun item found =>
                      match node_at q item p with
                      | Some x => Some x
                      | None => found
                      end) None items
    end.

Definition notExist (p : string) : error :=
  ErrNotExist (String.append p ": no such file or directory").

Definition tree_ReadDir (dir : string) (root : node) (p : string) : result (list FileInfo) :=
  match node_at dir root p with
  | Some (Directory _ items) => Ok (map node_info items)
  | Some (File _ _ _) => Err (ErrMsg (String.append p ": not a directory"))
  | None => Err (notExist p)
  end.

Definition tree_Stat (dir : string) (root : node) (p : string) : result FileInfo :=
  match node_at dir root p with
  | Some n => Ok (node_info n)
  | None => Err (notExist p)
  end.

Definition tree_Walk (dir : string) (root : node) (p : string)
    : list (string * option FileInfo) :=
  match node_at dir root p with
  | Some n => visits (path_Dir p) n
  | None => [(p, None)]
  end.

(** The extension tables, as wavepipe declares them. *)
Definition stdMediaSet : gset string :=
  list_to_set [".ape"; ".flac"; ".m4a"; ".mp3"; ".mpc"; ".ogg"; ".wma"; ".wv"].
Definition stdArtSet : gset string :=
  list_to_set [".bmp"; ".gif"; ".jpg"; ".jpeg"; ".png"].
Definition stdFileTypeMap : gmap string Z :=
  list_to_map [(".ape", 1); (".flac", 2); (".m4a", 3); (".mp3", 4); (".mpc", 5);
               (".ogg", 6); (".wma", 7); (".wv", 8)].

(** The environment of the tree [root] mounted at [dir]. *)
Definition treeEnv (dir : string) (root : node) (tags : string -> result TagFile)
    (plan : fault_plan) (halt : nat -> bool) : Env :=
  {| mediaSet := stdMediaSet;
     artSet := stdArtSet;
     FileTypeMap := stdFileTypeMap;
     Walk := tree_Walk dir root;
     ReadDir := tree_ReadDir dir root;
     Stat := tree_Stat dir root;
     taglib_Read := tags;
     songTagsError := fun _ => None;
     faults := plan;
     haltWalk := halt;
     haltOrphanScan := halt |}.

Definition never : nat -> bool := fun _ => false.
Definition at_once : nat -> bool := fun _ => true.

Definition noTags (p : string) : result TagFile :=
  Err (ErrMsg "taglib: invalid file").

Module Library.
(** The library of the specification's example: one song and its cover
    in [/music/ArtistA/Album1]. *)
Definition track1 : TagFile :=
  {| tagTitle := "Track 1"; tagArtist := "ArtistA"; tagAlbum := "Album1";
     tagYear := 2001; tagTrack := 1; tagBitrate := 320 |}.

Definition tags (p : string) : result TagFile :=
  if String.eqb p "/music/ArtistA/Album1/track1.mp3" then Ok track1 else noTags p.

Definition music : node :=
  Directory "music"
    [Directory "ArtistA"
       [Directory "Album1" [File "cover.jpg" 12288 100; File "track1.mp3" 5000000 100]]].

Definition env : Env := treeEnv "/" music tags no_faults never.
End Library.

Module LibraryB.
(** The same folder with the song discovered before its cover. *)
Definition tags (p : string) : result TagFile :=
  if String.eqb p "/music/ArtistA/Album1/a_track.mp3" then Ok Library.track1 else noTags p.

Definition music : node :=
  Directory "music"
    [Directory "ArtistA"
       [Directory "Album1" [File "a_track.mp3" 5000000 100; File "cover.jpg" 12288 100]]].

Definition env : Env := treeEnv "/" music tags no_faults never.
End LibraryB.

Module Grown.
(** The library of [Library] after a first scan, with a second song
    added to the folder since: the cover is in the store already. *)
Definition indexed : DB := (MediaScan Library.env "/music" emptyDB).2.

Definition track2 : TagFile :=
  {| tagTitle := "Track 2"; tagArtist := "ArtistA"; tagAlbum := "Album1";
     tagYear := 2001; tagTrack := 2; tagBitrate := 320 |}.

Definition tags (p : string) : result TagFile :=
  if String.eqb p "/music/ArtistA/Album1/track2.mp3" then Ok track2 else Library.tags p.

Definition music : node :=
  Directory "music"
    [Directory "ArtistA"
       [Directory "Album1"
          [File "cover.jpg" 12288 100; File "track1.mp3" 5000000 100;
           File "track2.mp3" 6000000 200]]].

Definition env : Env := treeEnv "/" music tags no_faults never.
End Grown.

Module Hollow.
(** A tree without a single file: [a] holds nothing but the empty
    directory [b]. *)
Definition music : node := Directory "music" [Directory "a" [Directory "b" []]].

Definition env : Env := treeEnv "/" music noTags no_faults never.
End Hollow.

Module Touched.
(** The library of [Library] after a first scan, its song modified
    since. *)
Definition music : node :=
  Directory "music"
    [Directory "ArtistA"
       [Directory "Album1" [File "cover.jpg" 12288 100; File "track1.mp3" 5000000 300]]].

Definition env : Env := treeEnv "/" music Library.tags no_faults never.

Definition track1 : string := "/music/ArtistA/Album1/track1.mp3".
Definition info : FileInfo :=
  {| Name := "track1.mp3"; Size := 5000000; ModTime := 300; IsDir := false |}.

(** The song the first scan stored. *)
Definition stored : Song.t :=
  Song.mk 1 "Album1" 1 1 "ArtistA" 1 320 track1 5000000 4 3 100 "Track 1" 1 2001.
End Touched.

Module Truncated.
(** A library whose only song was truncated to nothing: the tag reader
    cannot read it. *)
Definition music : node := Directory "music" [File "empty.mp3" 0 100].

Definition env : Env := treeEnv "/" music noTags no_faults never.

Definition info : FileInfo :=
  {| Name := "empty.mp3"; Size := 0; ModTime := 100; IsDir := false |}.
End Truncated.

Module Failing.
(** The library of [Library] on a store that fails every save of an art,
    an artist, an album or a song and every update of a song. *)
Definition diskFull : error := ErrMsg "database or disk is full".

Definition plan : fault_plan :=
  fun c =>
    match c with
    | SaveArt _ | SaveArtist _ | SaveAlbum _ | SaveSong _ | UpdateSong _ => Some diskFull
    | _ => None
    end.

Definition env : Env := treeEnv "/" Library.music Library.tags plan never.
End Failing.

Module Stale.
(** An index with records under [/music] and records left behind under
    [/old], none of them on disk. *)
Definition db : DB :=
  mkDB [Folder.mk 1 0 "music" "/music"; Folder.mk 2 0 "old" "/old"]
       [Artist.mk 1 "ArtistA"; Artist.mk 2 "Gone"]
       [Album.mk 1 "ArtistA" 1 "Album1" 2001; Album.mk 2 "Gone" 2 "Lost" 1999]
       [Song.mk 1 "Album1" 1 0 "ArtistA" 1 320 "/music/track1.mp3" 5000 4 1 100 "Track 1" 1 2001;
        Song.mk 2 "Lost" 2 0 "Gone" 2 128 "/old/b.mp3" 4000 4 2 90 "B" 1 1999]
       [Art.mk 1 "/music/cover.jpg" 12288 100; Art.mk 2 "/old/cover.jpg" 100 90]
       [].

Definition music : node :=
  Directory "music" [File "cover.jpg" 12288 100; File "track1.mp3" 5000 100].

(** The environment in which the halt flag is set from the start. *)
Definition env : Env := treeEnv "/" music noTags no_faults at_once.
End Stale.

Module Sibling.
(** An index with records under [/music] and under [/music2], a
    directory beside it whose name starts with the same bytes. *)
Definition db : DB :=
  mkDB [Folder.mk 1 0 "music" "/music"; Folder.mk 2 0 "music2" "/music2"]
       [Artist.mk 1 "ArtistA"]
       [Album.mk 1 "ArtistA" 1 "Album1" 2001]
       [Song.mk 1 "Album1" 1 0 "ArtistA" 1 320 "/music/track1.mp3" 5000 4 1 100 "Track 1" 1 2001;
        Song.mk 2 "Album1" 1 0 "ArtistA" 1 320 "/music2/x.mp3" 4000 4 2 90 "X" 2 2001]
       [Art.mk 1 "/music/cover.jpg" 12288 100; Art.mk 2 "/music2/cover.jpg" 100 90]
       [].

Definition env : Env := treeEnv "/" Stale.music noTags no_faults never.
End Sibling.

Module Flaky.
(** The filesystem of [Stale] with a store that fails every call. *)
Definition locked : error := ErrMsg "database is locked".

Definition plan : fault_plan := fun _ => Some locked.

Definition env : Env := treeEnv "/" Stale.music noTags plan never.
End Flaky.

Module Locked.
(** The library of [Library] on a store that fails every load of a song,
    otherwise than by not-found. *)
Definition plan : fault_plan :=
  fun c =>
    match c with
    | LoadSong _ => Some Flaky.locked
    | _ => None
    end.

Definition env : Env := treeEnv "/" Library.music Library.tags plan never.
End Locked.

(** ** Notions the properties are stated with *)

(** The records of two stores are the same; the journals may differ. *)
Definition same_records (d d' : DB) : Prop :=
  folders d' = folders d /\ artists d' = artists d /\ albums d' = albums d /\
  songs d' = songs d /\ art d' = art d.

(** [d'] comes from [d] by the calls [l], in this order. *)
Definition calls_between (d d' : DB) (l : list call) : Prop :=
  journal d' = journal d ++ l.

(** The tables a deletion does not touch. *)
Definition besides_art (d : DB) := (folders d, artists d, albums d, songs d).
Definition besides_songs (d : DB) := (folders d, artists d, albums d, art d).
Definition besides_folders (d : DB) := (artists d, albums d, songs d, art d).

(** The calls of the two cleanup phases: path queries and deletions. *)
Definition is_cleanup (c : call) : bool :=
  match c with
  | DeleteFolder _ | DeleteSong _ | DeleteArt _
  | ArtNotInPath _ | SongsNotInPath _ | FoldersNotInPath _
  | ArtInPath _ | SongsInPath _ | FoldersInPath _ => true
  | _ => false
  end.

(** [d'] comes from [d] by cleanup: art, songs and folders were taken
    away, albums and artists are as they were, and only cleanup calls were
    made. *)
Definition cleaned (d d' : DB) : Prop :=
  incl (art d') (art d) /\ incl (songs d') (songs d) /\ incl (folders d') (folders d) /\
  albums d' = albums d /\ artists d' = artists d /\
  exists l, calls_between d d' l /\ Forall (fun c => is_cleanup c = true) l.

(** What is left of a table when every row that shares its identity with
    a row [outside] has been deleted. *)
Definition evict {A : Type} (id : A -> Z) (outside : A -> bool) (l : list A) : list A :=
  List.filter (fun x => negb (existsb (fun a => id x =? id a) (List.filter outside l))) l.

(** No two records of a table share their numeric identity. *)
Definition unique_ids (d : DB) : Prop :=
  List.NoDup (map Art.ID (art d)) /\ List.NoDup (map Song.ID (songs d)) /\
  List.NoDup (map Folder.ID (folders d)).

(** What a part of the callback leaves as it was.  [resolveFolder]
    touches the folders, their count and the journal; [resolveArtist] and
    [resolveAlbum] likewise their table and count; [scanArt] the art, its
    count and the new pairs; [reconcileSong] the songs and their counts. *)
Definition beside_folders (st : ScanState) :=
  (artists (db st), albums (db st), songs (db st), art (db st),
   (artCount st, artistCount st, albumCount st, songCount st, songUpdateCount st),
   artFiles st, (folderCache st, artistCache st, albumCache st)).
Definition beside_artists (st : ScanState) :=
  (folders (db st), albums (db st), songs (db st), art (db st),
   (artCount st, folderCount st, albumCount st, songCount st, songUpdateCount st),
   artFiles st, (folderCache st, artistCache st, albumCache st)).
Definition beside_albums (st : ScanState) :=
  (folders (db st), artists (db st), songs (db st), art (db st),
   (artCount st, folderCount st, artistCount st, songCount st, songUpdateCount st),
   artFiles st, (folderCache st, artistCache st, albumCache st)).
Definition beside_art (st : ScanState) :=
  (folders (db st), artists (db st), albums (db st), songs (db st),
   (folderCount st, artistCount st, albumCount st, songCount st, songUpdateCount st),
   (folderCache st, artistCache st, albumCache st)).
Definition beside_songs (st : ScanState) :=
  (folders (db st), artists (db st), albums (db st), art (db st),
   (folderCount st, artistCount st, albumCount st, artCount st),
   artFiles st, (folderCache st, artistCache st, albumCache st)).

(** What a visit may do to the art table and the list of new pairs:
    nothing, or save the art of the item and record its pair. *)
Definition art_effect (currPath : string) (info : FileInfo) (st st' : ScanState) : Prop :=
  (art (db st') = art (db st) /\ artFiles st' = artFiles st /\ artCount st' = artCount st) \/
  (exists folder,
     let a := Art.mk (nextID (map Art.ID (art (db st)))) currPath (Size info) (ModTime info) in
     Size info <> 0 /\
     art (db st') = art (db st) ++ [a] /\
     artFiles st' = artFiles st ++ [{| folderID := folder; artID := Art.ID a |}] /\
     artCount st' = artCount st + 1).

(** What a visit may do to the songs: nothing, or save the song of the
    item, or write it over the stored song of its path.  The song written
    comes from the tags and the file, and refers to no art. *)
Definition song_effect (currPath : string) (info : FileInfo) (st st' : ScanState) : Prop :=
  (songs (db st') = songs (db st) /\ songCount st' = songCount st /\
   songUpdateCount st' = songUpdateCount st) \/
  (exists song,
     Song.ArtID song = 0 /\ Song.ID song = 0 /\ Song.FileName song = currPath /\
     Song.FileSize song = Size info /\ Song.LastModified song = ModTime info /\
     Size info <> 0 /\
     (songs (db st') = songs (db st)
      \/ songs (db st') = songs (db st) ++ [Song.withID (nextID (map Song.ID (songs (db st)))) song]
      \/ exists id,
          songs (db st') =
            map (fun x => if Song.ID x =? id then Song.withID id song else x) (songs (db st)))).

(** Every song and every art of the store has a positive file size. *)
Definition positive_sizes (d : DB) : Prop :=
  (forall s, In s (songs d) -> 0 < Song.FileSize s) /\
  (forall a, In a (art d) -> 0 < Art.FileSize a).

(** The state [st] of a scan that started from the store [d]: the art
    table is that of [d] followed by the art saved since, under new
    identities, and every pair recorded names one of these; the songs have
    kept distinct identities; a song that is not as it was in [d] refers to
    no art. *)
Definition scanned (d : DB) (st : ScanState) : Prop :=
  (exists saved,
     art (db st) = art d ++ saved /\
     (forall a, In a saved -> ~ In (Art.ID a) (map Art.ID (art d))) /\
     (forall p, In p (artFiles st) -> In (artID p) (map Art.ID saved))) /\
  (List.NoDup (map Song.ID (songs d)) -> List.NoDup (map Song.ID (songs (db st)))) /\
  (forall x, In x (songs (db st)) -> In x (songs d) \/ Song.ArtID x = 0).

(** A call of the deferred pass on behalf of the pair [p]: the query for
    the songs of its folder, or the update of one of them. *)
Definition call_for_pair (p : folderArtPair) (c : call) : Prop :=
  c = SongsForFolder (folderID p) \/
  exists s, c = UpdateSong s /\ Song.FolderID s = folderID p /\ Song.ArtID s = artID p.

(** The number of files in a tree. *)
Fixpoint file_count (n : node) : nat :=
  match n with
  | File _ _ _ => 1
  | Directory _ items => fold_right (fun item k => (file_count item + k)%nat) 0%nat items
  end.

(** What a visit leaves as it was when it saves no artist, album, song
    or art. *)
Definition media_records (st : ScanState) :=
  (artists (db st), albums (db st), songs (db st), art (db st), artFiles st,
   (artCount st, artistCount st, albumCount st, songCount st, songUpdateCount st)).

(** The folder of an item and the parent of that folder, as lines 85-91
    and 116-120 compute them. *)
Definition folderPath (currPath : string) (info : FileInfo) : string :=
  if IsDir info then currPath else path_Dir currPath.
Definition parentPath (currPath : string) (info : FileInfo) : string :=
  if IsDir info then path_Dir currPath else path_Dir (path_Dir currPath).






(** ** A store that reflects a tree *)

(** The loads of the store. *)
Definition is_load (c : call) : bool :=
  match c with
  | LoadFolder _ | LoadArtist _ | LoadAlbum _ _ | LoadSong _ | LoadArt _ => true
  | _ => false
  end.

(** The directory holds items. *)
Definition holds_items (env : Env) (path : string) : bool :=
  match ReadDir env path with
  | Ok (_ :: _) => true
  | _ => false
  end.

(** The store has the art of a file that is not empty. *)
Definition art_indexed (d : DB) (currPath : string) (info : FileInfo) : bool :=
  (Size info =? 0) || bool_decide (is_Some (artAt d currPath)).

(** The store has the artist, the album and the song of a file that is
    not empty, whose tags can be read and whose type is known, and the
    song is no older than the file. *)
Definition song_indexed (env : Env) (d : DB) (currPath : string) (info : FileInfo) : bool :=
  match taglib_Read env currPath with
  | Err _ => true
  | Ok file =>
      match songTagsError env file, FileTypeMap env !! path_Ext (Name info) with
      | None, Some _ =>
          (Size info =? 0) ||
          match artistNamed d (tagArtist file) with
          | None => false
          | Some artist =>
              match albumOf d (Artist.ID artist) (tagAlbum file), songAt d currPath with
              | Some _, Some song => ModTime info <=? Song.LastModified song
              | _, _ => false
              end
          end
      | _, _ => true
      end
  end.

(** The store reflects an item of the walk: the folder of the item is in
    the store unless the directory holds nothing, and then so is the art
    or the song of the item. *)
Definition item_indexed (env : Env) (d : DB) (item : string * option FileInfo) : bool :=
  match item with
  | (_, None) => true
  | (currPath, Some info) =>
      match folderAt d (folderPath currPath info) with
      | None => negb (holds_items env (folderPath currPath info))
      | Some _ =>
          if Has (artSet env) (path_Ext currPath) then art_indexed d currPath info
          else if Has (mediaSet env) (path_Ext currPath) then song_indexed env d currPath info
          else true
      end
  end.

(** The state of a scan that has changed nothing since it started from
    the store [d]: the records are those of [d], the calls made are loads,
    no metric has moved, no pair is recorded, and the caches hold what the
    store holds. *)
Definition quiet (d : DB) (st : ScanState) : Prop :=
  same_records d (db st) /\
  (exists calls, calls_between d (db st) calls /\ Forall (fun c => is_load c = true) calls) /\
  (artCount st = 0 /\ artistCount st = 0 /\ albumCount st = 0 /\
   songCount st = 0 /\ songUpdateCount st = 0 /\ folderCount st = 0) /\
  artFiles st = [] /\
  (forall p f, folderCache st !! p = Some f -> folderAt d p = Some f) /\
  (forall t a, artistCache st !! t = Some a -> artistNamed d t = Some a).

(** The state with one more call in the journal. *)
Definition logged (c : call) (st : ScanState) : ScanState :=
  set_db (record_call c (db st)) st.

(** ** A scan after a scan *)

(** The part of a cache key before its first underscore, and the part
    after it. *)
Fixpoint before_sep (s : string) : string :=
  match s with
  | EmptyString => ""
  | String c r => if Ascii.eqb c "_"%char then "" else String c (before_sep r)
  end.

Fixpoint after_sep (s : string) : string :=
  match s with
  | EmptyString => ""
  | String c r => if Ascii.eqb c "_"%char then r else after_sep r
  end.

(** The caches hold what the store holds, and the songs of the store
    have distinct identities. *)
Definition coherent (st : ScanState) : Prop :=
  (forall p f, folderCache st !! p = Some f -> folderAt (db st) p = Some f) /\
  (forall t a, artistCache st !! t = Some a -> artistNamed (db st) t = Some a) /\
  (forall al al', albumCache st !! albumCacheKey al = Some al' ->
                  albumOf (db st) (Album.ArtistID al) (Album.Title al) = Some al') /\
  List.NoDup (map Song.ID (songs (db st))).

(** The store [d'] has grown out of [d]: folders, of directories that
    hold items, artists, albums and art were added at the end of their
    tables, and the song of a path is still there, no older than it was. *)
Definition grows (env : Env) (d d' : DB) : Prop :=
  (exists l, folders d' = folders d ++ l /\
             forall f, In f l -> holds_items env (Folder.Path f) = true) /\
  (exists l, artists d' = artists d ++ l) /\
  (exists l, albums d' = albums d ++ l) /\
  (exists l, art d' = art d ++ l) /\
  (forall p s, songAt d p = Some s ->
     exists s', songAt d' p = Some s' /\ Song.LastModified s <= Song.LastModified s').

Module Interrupted.
(** The library of [Library], scanned by a scan that is told to halt
    after four items: the fifth call of the callback reads the flag
    set. *)
Definition halt (i : nat) : bool := (4 <=? i)%nat.

Definition env : Env := treeEnv "/" Library.music Library.tags no_faults halt.
End Interrupted.

(** ** What the two scans keep, and what they count *)

(** The calls of a media scan: loads, saves, updates of songs and the
    query for the songs of a folder. *)
Definition is_scan_call (c : call) : bool :=
  match c with
  | LoadFolder _ | SaveFolder _ | LoadArtist _ | SaveArtist _ | LoadAlbum _ _ | SaveAlbum _
  | LoadSong _ | SaveSong _ | UpdateSong _ | LoadArt _ | SaveArt _ | SongsForFolder _ => true
  | _ => false
  end.

Definition is_update (c : call) : bool :=
  match c with
  | UpdateSong _ => true
  | _ => false
  end.

(** The number of song updates among the calls [l]. *)
Definition updates (l : list call) : Z := Z.of_nat (length (List.filter is_update l)).

(** The number of records [d'] holds more than [d], over the five
    tables. *)
Definition added (d d' : DB) : Z :=
  (Z.of_nat (length (folders d')) - Z.of_nat (length (folders d))) +
  (Z.of_nat (length (artists d')) - Z.of_nat (length (artists d))) +
  (Z.of_nat (length (albums d')) - Z.of_nat (length (albums d))) +
  (Z.of_nat (length (songs d')) - Z.of_nat (length (songs d))) +
  (Z.of_nat (length (art d')) - Z.of_nat (length (art d))).

(** No two records of any table share their numeric identity. *)
Definition distinct_ids (d : DB) : Prop :=
  List.NoDup (map Folder.ID (folders d)) /\ List.NoDup (map Artist.ID (artists d)) /\
  List.NoDup (map Album.ID (albums d)) /\ List.NoDup (map Song.ID (songs d)) /\
  List.NoDup (map Art.ID (art d)).

(** The identities [ids'] are those of [ids] followed by new ones, and
    are distinct when those of [ids] are. *)
Definition ids_grow (ids ids' : list Z) : Prop :=
  (exists k, ids' = ids ++ k) /\ (List.NoDup ids -> List.NoDup ids').

(** The store [d'] holds every folder, artist, album and art of [d] as
    it was, followed by new ones, and the songs of [d] under their
    identities, followed by new ones. *)
Definition keeps_records (d d' : DB) : Prop :=
  (exists k, folders d' = folders d ++ k) /\ (exists k, artists d' = artists d ++ k) /\
  (exists k, albums d' = albums d ++ k) /\ (exists k, art d' = art d ++ k) /\
  (exists k, map Song.ID (songs d') = map Song.ID (songs d) ++ k).

(** What a scan in the state [st'] has done since the state [st]: kept
    the records, under identities that stay distinct, made the calls of a
    media scan only, and counted every record it saved and every song
    update it called. *)
Definition advance (st st' : ScanState) : Prop :=
  keeps_records (db st) (db st') /\
  (ids_grow (map Folder.ID (folders (db st))) (map Folder.ID (folders (db st'))) /\
   ids_grow (map Artist.ID (artists (db st))) (map Artist.ID (artists (db st'))) /\
   ids_grow (map Album.ID (albums (db st))) (map Album.ID (albums (db st'))) /\
   ids_grow (map Song.ID (songs (db st))) (map Song.ID (songs (db st'))) /\
   ids_grow (map Art.ID (art (db st))) (map Art.ID (art (db st')))) /\
  (exists calls,
     calls_between (db st) (db st') calls /\ Forall (fun c => is_scan_call c = true) calls /\
     songUpdateCount st' = songUpdateCount st + updates calls) /\
  (folderCount st' - folderCount st
     = Z.of_nat (length (folders (db st'))) - Z.of_nat (length (folders (db st))) /\
   artistCount st' - artistCount st
     = Z.of_nat (length (artists (db st'))) - Z.of_nat (length (artists (db st))) /\
   albumCount st' - albumCount st
     = Z.of_nat (length (albums (db st'))) - Z.of_nat (length (albums (db st))) /\
   songCount st' - songCount st
     = Z.of_nat (length (songs (db st'))) - Z.of_nat (length (songs (db st))) /\
   artCount st' - artCount st
     = Z.of_nat (length (art (db st'))) - Z.of_nat (length (art (db st)))).

(** ** What an orphan scan removes *)

(** The test of a removal loop selects the item. *)
Definition doomed_now {A : Type} (doomed : A -> result bool) (a : A) : bool :=
  match doomed a with
  | Ok true => true
  | _ => false
  end.

(** The file is gone: [os.Stat] says that it does not exist. *)
Definition gone (env : Env) (fileName : string) : bool :=
  doomed_now (missing env) fileName.

(** The directory of the folder is gone or holds no item. *)
Definition empty_dir (env : Env) (f : Folder.t) : bool :=
  doomed_now (deserted env) f.

(** The subfolder an orphan scan checks for existence: lines 422-424. *)
Definition checked (baseFolder subFolder : string) : string :=
  if String.eqb subFolder "" then baseFolder else subFolder.

(** A record at the path [p] stays through an orphan scan: it is under
    the base folder and, if under the subfolder checked, not [lost]. *)
Definition stays (baseFolder subFolder p : string) (lost : bool) : bool :=
  in_path baseFolder p && negb (in_path (checked baseFolder subFolder) p && lost).

(** The store [d'] has every art, song and folder of [d] that stays
    through an orphan scan, and distinct identities, when the
    identities of [d] are distinct. *)
Definition spared (env : Env) (baseFolder subFolder : string) (d d' : DB) : Prop :=
  unique_ids d ->
  unique_ids d' /\
  (forall x, In x (art d) ->
     stays baseFolder subFolder (Art.FileName x) (gone env (Art.FileName x)) = true ->
     In x (art d')) /\
  (forall x, In x (songs d) ->
     stays baseFolder subFolder (Song.FileName x) (gone env (Song.FileName x)) = true ->
     In x (songs d')) /\
  (forall x, In x (folders d) ->
     stays baseFolder subFolder (Folder.Path x) (empty_dir env x) = true ->
     In x (folders d')).

(** Every record of [d'], in each of the five tables, is a record of
    [d], as it was: nothing was added and nothing was changed. *)
Definition only_removed (d d' : DB) : Prop :=
  incl (folders d') (folders d) /\ incl (artists d') (artists d) /\
  incl (albums d') (albums d) /\ incl (songs d') (songs d) /\ incl (art d') (art d).

(** No two records of a table share the fields [Load] finds them by:
    the path of a folder, the title of an artist, the artist and the
    title of an album, the file name of a song or of an art. *)
Definition distinct_keys (d : DB) : Prop :=
  List.NoDup (map Folder.Path (folders d)) /\
  List.NoDup (map Artist.Title (artists d)) /\
  List.NoDup (map (fun a => (Album.ArtistID a, Album.Title a)) (albums d)) /\
  List.NoDup (map Song.FileName (songs d)) /\
  List.NoDup (map Art.FileName (art d)).

(** The songs have distinct identities, and the records distinct
    keys. *)
Definition well_keyed (d : DB) : Prop :=
  List.NoDup (map Song.ID (songs d)) /\ distinct_keys d.

(** Where an error an orphan scan returns comes from: a path query, a
    deletion or a purge the store has failed, or the listing of the
    directory of a folder, failed otherwise than by its absence. *)
Definition orphan_error (env : Env) (e : error) : Prop :=
  (exists c, (is_cleanup c = true \/ c = PurgeOrphanAlbums \/ c = PurgeOrphanArtists) /\
             faults env c = Some e) \/
  (exists f, ReadDir env (Folder.Path f) = Err e /\ IsNotExist e = false).

(** ** References between the records *)

(** The song refers to a folder, an artist and an album of the store,
    and to an art of the store or to none. *)
Definition refers (d : DB) (s : Song.t) : Prop :=
  In (Song.FolderID s) (map Folder.ID (folders d)) /\
  In (Song.ArtistID s) (map Artist.ID (artists d)) /\
  In (Song.AlbumID s) (map Album.ID (albums d)) /\
  (Song.ArtID s = 0 \/ In (Song.ArtID s) (map Art.ID (art d))).

(** Every reference of the store leads to a record of the store: those
    of the songs, the artist of every album, and the parent of every
    folder that has one. *)
Definition integrity (d : DB) : Prop :=
  (forall s, In s (songs d) -> refers d s) /\
  (forall a, In a (albums d) -> In (Album.ArtistID a) (map Artist.ID (artists d))) /\
  (forall f, In f (folders d) ->
     Folder.ParentID f = 0 \/ In (Folder.ParentID f) (map Folder.ID (folders d))).

(** The state of a scan whose caches hold what the store holds, whose
    store keeps its references, and whose new pairs name art of the
    store. *)
Definition sound (st : ScanState) : Prop :=
  coherent st /\ integrity (db st) /\
  forall p, In p (artFiles st) -> In (artID p) (map Art.ID (art (db st))).

(** * Package [strconv] of the Go library: [Atoi]

    The two packages below call [strconv.Atoi] on text that comes from
    outside; it is written out here as the library documents it. *)

Module strconv.

(** A byte is a decimal digit: [ch -= '0'; ch > 9] is false. *)
Definition is_digit (c : ascii) : bool :=
  (48 <=? nat_of_ascii c)%nat && (nat_of_ascii c <=? 57)%nat.

(** The value of the decimal digits [s], read after the value [n]; no
    value when a byte of [s] is not a digit. *)
Fixpoint digits (s : string) (n : Z) : option Z :=
  match s with
  | EmptyString => Some n
  | String c rest =>
      if is_digit c then digits rest (n * 10 + Z.of_nat (nat_of_ascii c - 48)) else None
  end.

(** [strconv.Atoi] for an [int] of [bits] bits: an optional sign, then
    one decimal digit or more, of a value that fits; [None] stands for
    its error, of syntax or of range. *)
Definition Atoi (bits : Z) (s : string) : option Z :=
  match s with
  | EmptyString => None
  | String c rest =>
      let negative := Ascii.eqb c "-" in
      let body := if negative || Ascii.eqb c "+" then rest else s in
      match body with
      | EmptyString => None
      | _ =>
          match digits body 0 with
          | None => None
          | Some n =>
              let n := if negative then - n else n in
              if (- 2 ^ (bits - 1) <=? n) && (n <=? 2 ^ (bits - 1) - 1) then Some n else None
          end
      end
  end.

End strconv.

(** * Package [transcode]: the MP3 transcoder

    [NewMP3Transcoder] of [transcode/mp3Transcoder.go], with
    [strings.ToUpper] as it calls it. *)

Module Transcode.

(** [strings.ToUpper], on the ASCII strings the transcoder hands it. *)
Definition upper (c : ascii) : ascii :=
  if (97 <=? nat_of_ascii c)%nat && (nat_of_ascii c <=? 122)%nat
  then ascii_of_nat (nat_of_ascii c - 32) else c.

Fixpoint ToUpper (s : string) : string :=
  match s with
  | EmptyString => EmptyString
  | String c rest => String (upper c) (ToUpper rest)
  end.

(** The options of a transcoder: constant or variable bitrate, each
    with its quality. *)
Inductive Options : Type :=
| MP3CBROptions (quality : string)
| MP3VBROptions (quality : string).

(** [MP3Transcoder] represents a MP3 transcoding operation; its one
    field is [Options]. *)
Record MP3Transcoder : Type := mkMP3Transcoder { mp3Options : Options }.

Inductive Error : Type := ErrInvalidQuality.

(** [set.New(128, 192, 256, 320)] and [set.New("v0", ..., "V4")] *)
Definition cbrQualities : list Z := [128; 192; 256; 320].
Definition vbrQualities : list string := ["v0"; "V0"; "v2"; "V2"; "v4"; "V4"].

(** [NewMP3Transcoder] creates a new MP3 transcoder, and initializes its
    associated fields; [bits] is the size of [int]. *)
Definition NewMP3Transcoder (bits : Z) (quality : string) : MP3Transcoder + Error :=
  match strconv.Atoi bits quality with
  | Some cbr =>
      (* Check for valid CBR quality *)
      if negb (existsb (Z.eqb cbr) cbrQualities) then inr ErrInvalidQuality
      else inl {| mp3Options := MP3CBROptions quality |}
  | None =>
      (* Not an integer, so check for a valid VBR quality *)
      if negb (existsb (String.eqb quality) vbrQualities) then inr ErrInvalidQuality
      else inl {| mp3Options := MP3VBROptions (ToUpper quality) |}
  end.

(** The quality a transcoder was made with, as its options hold it. *)
Definition quality_of (m : MP3Transcoder) : string :=
  match mp3Options m with
  | MP3CBROptions quality => quality
  | MP3VBROptions quality => quality
  end.

(** [k] zeros. *)
Fixpoint zeros (k : nat) : string :=
  match k with
  | O => EmptyString
  | S k => String "0" (zeros k)
  end.

(** The constant bitrates as [NewMP3Transcoder] accepts them written: a
    plus sign or none, zeros, then one of the four values. *)
Definition cbr_form (q : string) : Prop :=
  exists sign k v,
    (sign = "" \/ sign = "+") /\ In v ["128"; "192"; "256"; "320"] /\
    q = String.append sign (String.append (zeros k) v).

End Transcode.

(** * Package [api]: the stream handler

    [GetStream] of [api/stream.go].  The handler answers through the
    renderer, the song and the HTTP stream it is given; what it does to
    them is written down as the events it causes, in order, and what
    they answer is read from the [Server]. *)

Module Api.

Inductive line : Type :=
| LogError (e : error)          (* log.Println(err) *)
| LogStarting (song : Song.t)   (* "stream: starting:", opStr *)
| LogStreamError (e : error)    (* "stream: error:", err *)
| LogCompleted (song : Song.t). (* "stream: completed:", opStr *)

Inductive event : Type :=
| RenderError (code : Z) (message : string)
| ServerError
| Load (id : Z)
| OpenStream (song : Song.t)
| CloseStream (song : Song.t)
| HttpStream (song : Song.t) (mime : string) (size : Z)
| Log (l : line).

Record Server : Type := {
  apiVersionSet : gset string;
  (** [song.Load()], of the song with the identity given *)
  song_Load : Z -> result Song.t;
  (** the error of [song.Stream()], if it fails *)
  song_Stream : Song.t -> option error;
  (** the error of [httpStream], if it fails *)
  httpStream : Song.t -> option error;
  (** the size of [int] *)
  intSize : Z
}.

(** [strings.Contains] *)
Fixpoint Contains (s substr : string) : bool :=
  String.prefix substr s ||
  match s with
  | EmptyString => false
  | String _ rest => Contains rest substr
  end.

(** [GetStream]: a raw, non-transcoded, media file stream from wavepipe.
    On success, a binary stream; on failure, a JSON error. *)
Definition GetStream (srv : Server) (params : gmap string string) : list event :=
  let stream :=
    (* Check for an ID parameter *)
    match params !! "id" with
    | None => [RenderError 400 "no integer stream ID provided"]
    | Some pID =>
        (* Verify valid integer ID *)
        match strconv.Atoi (intSize srv) pID with
        | None => [RenderError 400 "invalid integer stream ID"]
        | Some id =>
            (* Attempt to load the song with matching ID *)
            Load id ::
            match song_Load srv id with
            | Err e =>
                if is_ErrNoRows e then [RenderError 404 "song ID not found"]
                else [Log (LogError e); ServerError]
            | Ok song =>
                (* Attempt to access data stream *)
                OpenStream song ::
                match song_Stream srv song with
                | Some e => [Log (LogError e); ServerError]
                | None =>
                    (* [defer stream.Close()] runs last *)
                    (Log (LogStarting song) ::
                     HttpStream song "" (Song.FileSize song) ::
                     match httpStream srv song with
                     | Some e =>
                         (* Check for client reset *)
                         if Contains (error_string e) "connection reset by peer"
                            || Contains (error_string e) "broken pipe"
                         then []
                         else [Log (LogStreamError e)]
                     | None => [Log (LogCompleted song)]
                     end) ++ [CloseStream song]
                end
            end
        end
    end in
  (* Check API version *)
  match params !! "version" with
  | Some version =>
      if negb (Has (apiVersionSet srv) version)
      then [RenderError 400 (String.append "unsupported API version: " version)]
      else stream
  | None => stream
  end.

(** The events that answer the request. *)
Definition is_answer (e : event) : bool :=
  match e with
  | RenderError _ _ | ServerError | HttpStream _ _ _ => true
  | _ => false
  end.

End Api.


(** * Package [core]: the middleware that authenticates API calls

    The second handler [apiRouter] installs (lines 76-132 of the
    router).  What [Authenticate] returns is given; what the handler
    does with the response, the request context and the next handler is
    written down as events, in order. *)

Module Core.

(** An error of authentication, as the handler tells them apart: a
    Subsonic container, which is rendered as XML, one of the two errors
    that ask for credentials, or any other. *)
Inductive authError (Container : Type) : Type :=
| SubsonicError (subErr : Container)
| ErrNoUsername
| ErrNoPassword
| OtherError (message : string).
Arguments SubsonicError {Container} subErr.
Arguments ErrNoUsername {Container}.
Arguments ErrNoPassword {Container}.
Arguments OtherError {Container} message.

Inductive event (User Session Container : Type) : Type :=
| XML (status : Z) (body : Container)
| SetHeader (name value : string)
| JSON (status code : Z) (message : string)
| LogServerError (e : authError Container)
| SetUser (user : User)
| SetSession (session : Session)
| LogCall
| Next.
Arguments XML {User Session Container} status body.
Arguments SetHeader {User Session Container} name value.
Arguments JSON {User Session Container} status code message.
Arguments LogServerError {User Session Container} e.
Arguments SetUser {User Session Container} user.
Arguments SetSession {User Session Container} session.
Arguments LogCall {User Session Container}.
Arguments Next {User Session Container}.

Section Authenticate.
Context {User Session Container : Type}.
(** [err.Error()] *)
Variable Error : authError Container -> string.
(** [env.IsDebug()] *)
Variable IsDebug : bool.

Definition asks_credentials (e : authError Container) : bool :=
  match e with
  | ErrNoUsername | ErrNoPassword => true
  | _ => false
  end.

(** Authenticate all API calls: the handler, given what
    [auth.Factory(req.URL.Path).Authenticate(req)] returned. *)
Definition authenticate (user : User) (session : Session)
    (clientErr serverErr : option (authError Container))
    : list (event User Session Container) :=
  match clientErr with
  | Some (SubsonicError subErr) =>
      (* Check for a Subsonic error, since these are rendered as XML *)
      [XML 200 subErr]
  | Some e =>
      (if IsDebug && asks_credentials e then [SetHeader "WWW-Authenticate" "Basic"] else [])
      ++ [JSON 401 401 (String.append "authentication failed: " (Error e))]
  | None =>
      match serverErr with
      | Some e =>
          LogServerError e ::
          match e with
          | SubsonicError subErr => [XML 200 subErr]
          | _ => [JSON 500 500 "server error"]
          end
      | None =>
          (* Successful login, map session user and session to the context *)
          [SetUser user; SetSession session; LogCall; Next]
      end
  end.

(** The events that write the body of the response. *)
Definition is_body (e : event User Session Container) : bool :=
  match e with
  | XML _ _ | JSON _ _ _ => true
  | _ => false
  end.
End Authenticate.

End Core.

(** * Properties *)

(** ** Paths *)

Example path_Ext_mp3 : path_Ext "/music/A/track1.mp3" = ".mp3".
Proof. reflexivity. Qed.
Example path_Ext_none : path_Ext "/music.d/A" = "".
Proof. reflexivity. Qed.
Example path_Dir_file : path_Dir "/music/A/track1.mp3" = "/music/A".
Proof. reflexivity. Qed.
Example path_Dir_top : path_Dir "/music" = "/".
Proof. reflexivity. Qed.
Example path_Base_dir : path_Base "/music/A" = "A".
Proof. reflexivity. Qed.

(** A path falls under itself and under the directories above it, not
    under a directory whose name its own only starts with. *)
Example in_path_below : in_path "/music" "/music/ArtistA/cover.jpg" = true.
Proof. reflexivity. Qed.
Example in_path_itself : in_path "/music/" "/music" = true.
Proof. reflexivity. Qed.
Example in_path_sibling : in_path "/music" "/music2/x.mp3" = false.
Proof. reflexivity. Qed.
Example in_path_above : in_path "/music/ArtistA" "/music" = false.
Proof. reflexivity. Qed.
Example Itoa_12 : Itoa 12 = "12".
Proof. reflexivity. Qed.

(** ** The store: what a call leaves of the tables and of the journal *)



Lemma calls_between_refl d : calls_between d d [].
Proof. unfold calls_between. by rewrite app_nil_r. Qed.

Lemma calls_between_trans d1 d2 d3 l1 l2 :
  calls_between d1 d2 l1 -> calls_between d2 d3 l2 -> calls_between d1 d3 (l1 ++ l2).
Proof. unfold calls_between. intros H1 H2. by rewrite H2, H1, app_assoc. Qed.


Lemma same_records_trans d1 d2 d3 :
  same_records d1 d2 -> same_records d2 d3 -> same_records d1 d3.
Proof. unfold same_records. intros (?&?&?&?&?) (?&?&?&?&?). repeat split; congruence. Qed.

Lemma same_records_record_call c d : same_records d (record_call c d).
Proof. by repeat split. Qed.

(** [nextID] is above every identity of the table. *)
Lemma nextID_above (ids : list Z) (x : Z) : In x ids -> x < nextID ids.
Proof.
  unfold nextID. induction ids as [|y ids IH]; simpl; [tauto|].
  intros [->|Hin]; [lia|]. specialize (IH Hin). lia.
Qed.

Lemma nextID_fresh (ids : list Z) : ~ In (nextID ids) ids.
Proof. intros Hin. apply nextID_above in Hin. lia. Qed.

Lemma nextID_positive (ids : list Z) : 0 < nextID ids.
Proof.
  unfold nextID. assert (0 <= fold_right Z.max 0 ids); [|lia].
  induction ids; simpl; lia.
Qed.

(** Unfolds a store call down to the fault plan. *)
Ltac store_unfold :=
  unfold Folder_Load, Folder_Save, Folder_Delete, Artist_Load, Artist_Save, Album_Load,
    Album_Save, Song_Load, Song_Save, Song_Update, Song_Delete, Art_Load, Art_Save,
    Art_Delete, DB_SongsForFolder, DB_ArtNotInPath, DB_SongsNotInPath, DB_FoldersNotInPath,
    DB_ArtInPath, DB_SongsInPath, DB_FoldersInPath, DB_PurgeOrphanAlbums,
    DB_PurgeOrphanArtists, invoke in *.

(** ** The removal loops of [OrphanScan] *)

Section RemoveEach.
Context {A : Type}.
Variable rows : DB -> list A.
Variable id : A -> Z.
Variable delete : A -> DB -> result unit * DB.
Variable name : A -> call.

(** [delete] removes the rows with the identity of its argument, or
    fails and removes nothing; it journals one call. *)
Hypothesis delete_rows : forall a d,
  rows (delete a d).2 =
    match (delete a d).1 with
    | Ok _ => List.filter (fun x => negb (id x =? id a)) (rows d)
    | Err _ => rows d
    end.
Hypothesis delete_journal : forall a d,
  journal (delete a d).2 = journal d ++ [name a].

Lemma removeEach_always_rows items count d n d' :
  removeEach always delete items count d = (Ok n, d') ->
  rows d' = List.filter (fun x => negb (existsb (fun a => id x =? id a) items)) (rows d).
Proof.
  revert count d. induction items as [|a items IH]; simpl; intros count d H.
  - inversion H; subst. induction (rows d') as [|x l IHl]; simpl; [done|by f_equal].
  - pose proof (delete_rows a d) as Hd.
    destruct (delete a d) as [[[]|e] d1] eqn:E; simpl in Hd; [|discriminate].
    apply IH in H. rewrite H, Hd. clear.
    induction (rows d) as [|x l IHl]; simpl; [done|].
    destruct (id x =? id a); simpl; [done|]. by rewrite IHl.
Qed.

Lemma removeEach_always_count items count d n d' :
  removeEach always delete items count d = (Ok n, d') ->
  n = count + Z.of_nat (length items).
Proof.
  revert count d. induction items as [|a items IH]; simpl; intros count d H.
  - inversion H; lia.
  - destruct (delete a d) as [[[]|e] d1]; [|discriminate].
    apply IH in H. lia.
Qed.

(** Whatever a loop selects, it only takes rows away. *)
Lemma removeEach_rows_subset doomed items count d r d' x :
  removeEach doomed delete items count d = (r, d') -> In x (rows d') -> In x (rows d).
Proof.
  revert count d. induction items as [|a items IH]; simpl; intros count d H Hin.
  - by inversion H; subst.
  - destruct (doomed a) as [[]|e].
    + pose proof (delete_rows a d) as Hd.
      destruct (delete a d) as [[[]|e] d1] eqn:E; simpl in Hd.
      * eapply IH in H; [|done]. rewrite Hd in H. by apply filter_In in H as [? _].
      * inversion H; subst. by rewrite Hd in Hin.
    + eauto.
    + by inversion H; subst.
Qed.

(** The calls of a loop are the deletions of a sublist of its items. *)
Lemma removeEach_journal doomed items count d r d' :
  removeEach doomed delete items count d = (r, d') ->
  exists l, calls_between d d' (map name l) /\ incl l items.
Proof.
  revert count d. induction items as [|a items IH]; simpl; intros count d H.
  - inversion H; subst. exists []. split; [apply calls_between_refl|by intros ? []].
  - destruct (doomed a) as [[]|e].
    + pose proof (delete_journal a d) as Hd.
      destruct (delete a d) as [[[]|e] d1] eqn:E; simpl in Hd.
      * apply IH in H as (l & Hl & Hincl). exists (a :: l). split.
        -- unfold calls_between in *. rewrite Hl, Hd. by rewrite <- app_assoc.
        -- intros y [->|Hy]; [by left|right; auto].
      * inversion H; subst. exists [a]. split; [done|]. intros y [->|[]]. by left.
    + apply IH in H as (l & Hl & Hincl). exists l. split; [done|]. by apply incl_tl.
    + inversion H; subst. exists []. split; [apply calls_between_refl|by intros ? []].
Qed.

(** Whatever [delete] leaves alone, the loop leaves alone. *)
Lemma removeEach_frame {B : Type} (other : DB -> B) doomed items count d r d' :
  (forall a d, other (delete a d).2 = other d) ->
  removeEach doomed delete items count d = (r, d') -> other d' = other d.
Proof.
  intros Hframe. revert count d. induction items as [|a items IH]; simpl; intros count d H.
  - by inversion H.
  - destruct (doomed a) as [[]|e].
    + pose proof (Hframe a d) as Hd.
      destruct (delete a d) as [[[]|e] d1] eqn:E; simpl in Hd.
      * apply IH in H. congruence.
      * inversion H; subst. done.
    + eauto.
    + by inversion H.
Qed.
End RemoveEach.

(** The three deletions, as the loops need them. *)
Section Deletions.
Variable plan : fault_plan.

Lemma Art_Delete_rows a d :
  art (Art_Delete plan a d).2 =
    match (Art_Delete plan a d).1 with
    | Ok _ => List.filter (fun x => negb (Art.ID x =? Art.ID a)) (art d)
    | Err _ => art d
    end.
Proof. store_unfold. by destruct (plan _). Qed.

Lemma Song_Delete_rows s d :
  songs (Song_Delete plan s d).2 =
    match (Song_Delete plan s d).1 with
    | Ok _ => List.filter (fun x => negb (Song.ID x =? Song.ID s)) (songs d)
    | Err _ => songs d
    end.
Proof. store_unfold. by destruct (plan _). Qed.

Lemma Folder_Delete_rows f d :
  folders (Folder_Delete plan f d).2 =
    match (Folder_Delete plan f d).1 with
    | Ok _ => List.filter (fun x => negb (Folder.ID x =? Folder.ID f)) (folders d)
    | Err _ => folders d
    end.
Proof. store_unfold. by destruct (plan _). Qed.

Lemma Art_Delete_journal a d :
  journal (Art_Delete plan a d).2 = journal d ++ [DeleteArt a].
Proof. store_unfold. by destruct (plan _). Qed.

Lemma Song_Delete_journal s d :
  journal (Song_Delete plan s d).2 = journal d ++ [DeleteSong s].
Proof. store_unfold. by destruct (plan _). Qed.

Lemma Folder_Delete_journal f d :
  journal (Folder_Delete plan f d).2 = journal d ++ [DeleteFolder f].
Proof. store_unfold. by destruct (plan _). Qed.


Lemma Art_Delete_frame a d : besides_art (Art_Delete plan a d).2 = besides_art d.
Proof. store_unfold. by destruct (plan _). Qed.

Lemma Song_Delete_frame s d : besides_songs (Song_Delete plan s d).2 = besides_songs d.
Proof. store_unfold. by destruct (plan _). Qed.

Lemma Folder_Delete_frame f d :
  besides_folders (Folder_Delete plan f d).2 = besides_folders d.
Proof. store_unfold. by destruct (plan _). Qed.
End Deletions.

(** A bulk query journals its call, changes no record and, when it does
    not fail, answers with the rows that pass its test. *)
Lemma query_inv {A : Type} (plan : fault_plan) (c : call) (answer : DB -> list A) d r d' :
  invoke plan c (fun d => (Ok (answer d), d)) d = (r, d') ->
  d' = record_call c d /\ (forall l, r = Ok l -> l = answer d').
Proof.
  unfold invoke. destruct (plan c); intros H; inversion H; subst; split; try done.
  intros l Hl. by inversion Hl.
Qed.

(** Splits on the outcome of the next store call or loop of a phase. *)
Ltac phase_step H :=
  match type of H with
  | context [match ?op with pair _ _ => _ end] =>
      let E := fresh "E" in destruct op as [[?|?] ?] eqn:E
  end.

Section OrphanScanFacts.
Variable env : Env.

(** Base eviction leaves the art, songs and folders that share no
    identity with a record outside the base folder. *)
Lemma baseEviction_rows base d counts d1 :
  base <> "" ->
  baseEviction env base d = (Ok counts, d1) ->
  art d1 = List.filter (fun x => negb (existsb (fun a => Art.ID x =? Art.ID a)
             (List.filter (fun a => negb (in_path base (Art.FileName a))) (art d)))) (art d) /\
  songs d1 = List.filter (fun x => negb (existsb (fun s => Song.ID x =? Song.ID s)
             (List.filter (fun s => negb (in_path base (Song.FileName s))) (songs d)))) (songs d) /\
  folders d1 = List.filter (fun x => negb (existsb (fun f => Folder.ID x =? Folder.ID f)
             (List.filter (fun f => negb (in_path base (Folder.Path f))) (folders d)))) (folders d) /\
  albums d1 = albums d /\ artists d1 = artists d.
Proof.
  intros Hbase H. unfold baseEviction in H.
  destruct (String.eqb base "") eqn:Eb; [by apply String.eqb_eq in Eb|].
  phase_step H; [|done]. apply query_inv in E as [-> Ha]. specialize (Ha _ eq_refl).
  phase_step H; [|done].
  pose proof (removeEach_always_rows art Art.ID _ (Art_Delete_rows (faults env)) _ _ _ _ _ E) as R1.
  pose proof (removeEach_frame _ besides_art _ _ _ _ _ _ (Art_Delete_frame (faults env)) E) as F1.
  phase_step H; [|done]. apply query_inv in E0 as [-> Hs]. specialize (Hs _ eq_refl).
  phase_step H; [|done].
  pose proof (removeEach_always_rows songs Song.ID _ (Song_Delete_rows (faults env)) _ _ _ _ _ E0) as R2.
  pose proof (removeEach_frame _ besides_songs _ _ _ _ _ _ (Song_Delete_frame (faults env)) E0) as F2.
  phase_step H; [|done]. apply query_inv in E1 as [-> Hf]. specialize (Hf _ eq_refl).
  phase_step H; [|done].
  pose proof (removeEach_always_rows folders Folder.ID _ (Folder_Delete_rows (faults env)) _ _ _ _ _ E1) as R3.
  pose proof (removeEach_frame _ besides_folders _ _ _ _ _ _ (Folder_Delete_frame (faults env)) E1) as F3.
  inversion H; subst. clear H.
  unfold besides_art, besides_songs, besides_folders in *. simpl in *.
  inversion F1. inversion F2. inversion F3. subst.
  repeat split; congruence.
Qed.
End OrphanScanFacts.


Lemma cleaned_refl d : cleaned d d.
Proof.
  repeat split; try apply incl_refl. exists []. split; [apply calls_between_refl|constructor].
Qed.

Lemma cleaned_trans d1 d2 d3 : cleaned d1 d2 -> cleaned d2 d3 -> cleaned d1 d3.
Proof.
  intros (A1 & S1 & F1 & L1 & R1 & l1 & J1 & C1) (A2 & S2 & F2 & L2 & R2 & l2 & J2 & C2).
  repeat split; try (eapply incl_tran; eassumption); try congruence.
  exists (l1 ++ l2). split; [by eapply calls_between_trans|]. by apply Forall_app.
Qed.

Lemma cleaned_query {A : Type} plan c (answer : DB -> list A) d r d' :
  is_cleanup c = true ->
  invoke plan c (fun d => (Ok (answer d), d)) d = (r, d') -> cleaned d d'.
Proof.
  intros Hc H. apply query_inv in H as [-> _].
  repeat split; try apply incl_refl. exists [c]. split; [done|]. by constructor.
Qed.

Section CleanupLoops.
Variable plan : fault_plan.

Lemma cleanup_calls {A : Type} (name : A -> call) (l : list A) :
  (forall a, is_cleanup (name a) = true) ->
  Forall (fun c => is_cleanup c = true) (map name l).
Proof.
  intros Hn. apply List.Forall_forall. intros c Hc.
  apply in_map_iff in Hc as (? & <- & _). apply Hn.
Qed.

Lemma cleaned_art doomed items count d r d' :
  removeEach doomed (Art_Delete plan) items count d = (r, d') -> cleaned d d'.
Proof.
  intros H.
  pose proof (removeEach_frame _ besides_art _ _ _ _ _ _ (Art_Delete_frame plan) H) as F.
  apply (removeEach_journal _ DeleteArt (Art_Delete_journal plan)) in H as J.
  destruct J as (l & J & _). inversion F as [[H1 H2 H3 H4]].
  unfold cleaned. rewrite H1, H2, H3, H4.
  split; [|repeat split; try apply incl_refl].
  - intros x. eapply (removeEach_rows_subset art Art.ID _ (Art_Delete_rows plan)); eauto.
  - exists (map DeleteArt l). split; [done|]. by apply cleanup_calls.
Qed.

Lemma cleaned_songs doomed items count d r d' :
  removeEach doomed (Song_Delete plan) items count d = (r, d') -> cleaned d d'.
Proof.
  intros H.
  pose proof (removeEach_frame _ besides_songs _ _ _ _ _ _ (Song_Delete_frame plan) H) as F.
  apply (removeEach_journal _ DeleteSong (Song_Delete_journal plan)) in H as J.
  destruct J as (l & J & _). inversion F as [[H1 H2 H3 H4]].
  unfold cleaned. rewrite H1, H2, H3, H4.
  split; [apply incl_refl|]. split; [|repeat split; try apply incl_refl].
  - intros x. eapply (removeEach_rows_subset songs Song.ID _ (Song_Delete_rows plan)); eauto.
  - exists (map DeleteSong l). split; [done|]. by apply cleanup_calls.
Qed.

Lemma cleaned_folders doomed items count d r d' :
  removeEach doomed (Folder_Delete plan) items count d = (r, d') -> cleaned d d'.
Proof.
  intros H.
  pose proof (removeEach_frame _ besides_folders _ _ _ _ _ _ (Folder_Delete_frame plan) H) as F.
  apply (removeEach_journal _ DeleteFolder (Folder_Delete_journal plan)) in H as J.
  destruct J as (l & J & _). inversion F as [[H1 H2 H3 H4]].
  unfold cleaned. rewrite H1, H2, H3, H4.
  do 2 (split; [apply incl_refl|]). split; [|repeat split; try apply incl_refl].
  - intros x. eapply (removeEach_rows_subset folders Folder.ID _ (Folder_Delete_rows plan)); eauto.
  - exists (map DeleteFolder l). split; [done|]. by apply cleanup_calls.
Qed.
End CleanupLoops.

(** Chains the cleanup facts of the calls a phase has made so far. *)
Ltac cleanup_chain :=
  repeat match goal with
  | E : invoke _ _ _ _ = _ |- _ => apply cleaned_query in E; [|reflexivity]
  | E : removeEach _ (Art_Delete _) _ _ _ = _ |- _ => apply cleaned_art in E
  | E : removeEach _ (Song_Delete _) _ _ _ = _ |- _ => apply cleaned_songs in E
  | E : removeEach _ (Folder_Delete _) _ _ _ = _ |- _ => apply cleaned_folders in E
  end;
  repeat match goal with
  | E : cleaned ?a ?b, E' : cleaned ?b ?c |- _ =>
      pose proof (cleaned_trans _ _ _ E E'); clear E E'
  end;
  first [assumption | apply cleaned_refl].

Section OrphanScanPhases.
Variable env : Env.

Lemma baseEviction_cleaned base d r d1 : baseEviction env base d = (r, d1) -> cleaned d d1.
Proof.
  unfold baseEviction. destruct (String.eqb base "").
  { intros H; inversion H; apply cleaned_refl. }
  unfold DB_ArtNotInPath, DB_SongsNotInPath, DB_FoldersNotInPath.
  intros H. repeat phase_step H; inversion H; subst; cleanup_chain.
Qed.

Lemma existenceCheck_cleaned sub counts d r d2 :
  existenceCheck env sub counts d = (r, d2) -> cleaned d d2.
Proof.
  unfold existenceCheck. destruct counts as [[a s] f].
  unfold DB_ArtInPath, DB_SongsInPath, DB_FoldersInPath.
  intros H. repeat phase_step H; inversion H; subst; cleanup_chain.
Qed.
End OrphanScanPhases.

(** Rows told apart by their identities. *)
Lemma NoDup_map_inj {A : Type} (id : A -> Z) (l : list A) (x y : A) :
  List.NoDup (map id l) -> In x l -> In y l -> id x = id y -> x = y.
Proof.
  induction l as [|a l IH]; simpl; [tauto|].
  intros Hnd Hx Hy Heq. inversion Hnd as [|? ? Hnotin Hnd']; subst.
  destruct Hx as [->|Hx], Hy as [->|Hy]; try done.
  - exfalso. apply Hnotin. rewrite Heq. by apply in_map.
  - exfalso. apply Hnotin. rewrite <- Heq. by apply in_map.
  - by apply IH.
Qed.

Section Eviction.
Context {A : Type}.
Variable id : A -> Z.
Variable outside : A -> bool.

Lemma evict_inside l x : In x (evict id outside l) -> outside x = false.
Proof.
  unfold evict. intros [Hin Hex]%filter_In.
  destruct (outside x) eqn:Ho; [|done].
  apply negb_true_iff in Hex. rewrite <- Hex. symmetry. apply existsb_exists.
  exists x. split; [by apply filter_In|]. apply Z.eqb_refl.
Qed.

Lemma evict_keeps l x :
  List.NoDup (map id l) -> In x l -> outside x = false -> In x (evict id outside l).
Proof.
  intros Hnd Hin Ho. unfold evict. apply filter_In. split; [done|].
  apply negb_true_iff. destruct (existsb _ _) eqn:Hex; [|done].
  apply existsb_exists in Hex as (a & [Ha Hoa]%filter_In & Heq%Z.eqb_eq).
  rewrite (NoDup_map_inj id l x a) in Ho; congruence.
Qed.
End Eviction.


Section OrphanScanPurge.
Variable env : Env.

Lemma cascadingPurge_inv d albumCount artistCount d' :
  cascadingPurge env d = (Ok (albumCount, artistCount), d') ->
  journal d' = journal d ++ [PurgeOrphanAlbums; PurgeOrphanArtists] /\
  folders d' = folders d /\ songs d' = songs d /\ art d' = art d /\
  albums d' = List.filter (fun a => existsb (fun s => Song.AlbumID s =? Album.ID a) (songs d))
                          (albums d) /\
  artists d' = List.filter (fun a => existsb (fun x => Album.ArtistID x =? Artist.ID a) (albums d'))
                           (artists d) /\
  albumCount = Z.of_nat (length (albums d)) - Z.of_nat (length (albums d')) /\
  artistCount = Z.of_nat (length (artists d)) - Z.of_nat (length (artists d')).
Proof.
  unfold cascadingPurge, DB_PurgeOrphanAlbums, DB_PurgeOrphanArtists, invoke.
  destruct (faults env PurgeOrphanAlbums); [done|]. simpl.
  destruct (faults env PurgeOrphanArtists); [done|]. simpl.
  intros H. inversion H; subst; simpl. rewrite <- app_assoc. by repeat split.
Qed.
End OrphanScanPurge.


Section OrphanScanTheorems.
Variable env : Env.

(** An orphan scan that returns no error went through its three phases. *)
Lemma OrphanScan_inv base sub d n d' :
  OrphanScan env base sub d = ((n, None), d') ->
  exists counts d1 artCount songCount folderCount d2 albumCount artistCount,
    baseEviction env base d = (Ok counts, d1) /\
    existenceCheck env (if String.eqb sub "" then base else sub) counts d1
      = (Ok (artCount, songCount, folderCount), d2) /\
    cascadingPurge env d2 = (Ok (albumCount, artistCount), d') /\
    n = artCount + artistCount + albumCount + songCount + folderCount.
Proof.
  unfold OrphanScan. intros H.
  destruct (baseEviction env base d) as [[counts|e] d1] eqn:E1; [|done].
  destruct (existenceCheck env _ counts d1) as [[[[a s] f]|e] d2] eqn:E2; [|done].
  destruct (cascadingPurge env d2) as [[[na nr]|e] d3] eqn:E3; [|done].
  inversion H; subst. by exists counts, d1, a, s, f, d2, na, nr.
Qed.

(** C8. An orphan scan with a base folder that returns no error leaves
    no art, song or folder outside the base folder in the store, whether
    or not its file is on disk (the filesystem of [env] is arbitrary),
    and its eviction phase keeps every art, song and folder under the
    base folder, in a store whose identities are unique. *)
Theorem OrphanScan_base_eviction base sub d n d' :
  base <> "" ->
  unique_ids d ->
  OrphanScan env base sub d = ((n, None), d') ->
  ((forall a, In a (art d') -> in_path base (Art.FileName a) = true) /\
   (forall s, In s (songs d') -> in_path base (Song.FileName s) = true) /\
   (forall f, In f (folders d') -> in_path base (Folder.Path f) = true)) /\
  exists counts d1,
    baseEviction env base d = (Ok counts, d1) /\
    (forall a, In a (art d) -> in_path base (Art.FileName a) = true -> In a (art d1)) /\
    (forall s, In s (songs d) -> in_path base (Song.FileName s) = true -> In s (songs d1)) /\
    (forall f, In f (folders d) -> in_path base (Folder.Path f) = true -> In f (folders d1)).
Proof.
  intros Hbase (Ua & Us & Uf) H.
  apply OrphanScan_inv in H as (counts & d1 & a & s & f & d2 & na & nr & E1 & E2 & E3 & _).
  pose proof (baseEviction_rows env base d counts d1 Hbase E1) as (Ra & Rs & Rf & _).
  apply existenceCheck_cleaned in E2 as (Ia & Is & If & _).
  apply cascadingPurge_inv in E3 as (_ & Pf & Ps & Pa & _).
  rewrite Pf, Ps, Pa.
  fold (evict Art.ID (fun a => negb (in_path base (Art.FileName a))) (art d)) in Ra.
  fold (evict Song.ID (fun s => negb (in_path base (Song.FileName s))) (songs d)) in Rs.
  fold (evict Folder.ID (fun f => negb (in_path base (Folder.Path f))) (folders d)) in Rf.
  split; [repeat split|].
  - intros x Hx. apply Ia in Hx. rewrite Ra in Hx. apply evict_inside in Hx.
    by apply negb_false_iff in Hx.
  - intros x Hx. apply Is in Hx. rewrite Rs in Hx. apply evict_inside in Hx.
    by apply negb_false_iff in Hx.
  - intros x Hx. apply If in Hx. rewrite Rf in Hx. apply evict_inside in Hx.
    by apply negb_false_iff in Hx.
  - exists counts, d1. split; [done|]. rewrite Ra, Rs, Rf. repeat split.
    + intros x Hx Hp. apply evict_keeps; [done..|]. by rewrite Hp.
    + intros x Hx Hp. apply evict_keeps; [done..|]. by rewrite Hp.
    + intros x Hx Hp. apply evict_keeps; [done..|]. by rewrite Hp.
Qed.

(** C9. In an orphan scan that returns no error the purge comes last:
    the store [d2] the cleanup of art, songs and folders has left is
    reached by cleanup calls only, then the albums no song of [d2] refers
    to are deleted, then the artists no remaining album refers to, and
    the count returned is the cleanup counts plus the number of albums
    and of artists deleted. *)
Theorem OrphanScan_cascading_purge base sub d n d' :
  OrphanScan env base sub d = ((n, None), d') ->
  exists counts d1 artCount songCount folderCount d2,
    baseEviction env base d = (Ok counts, d1) /\
    existenceCheck env (if String.eqb sub "" then base else sub) counts d1
      = (Ok (artCount, songCount, folderCount), d2) /\
    cleaned d d2 /\
    journal d' = journal d2 ++ [PurgeOrphanAlbums; PurgeOrphanArtists] /\
    folders d' = folders d2 /\ songs d' = songs d2 /\ art d' = art d2 /\
    albums d' =
      List.filter (fun a => existsb (fun s => Song.AlbumID s =? Album.ID a) (songs d2))
                  (albums d2) /\
    artists d' =
      List.filter (fun a => existsb (fun x => Album.ArtistID x =? Artist.ID a) (albums d'))
                  (artists d2) /\
    n = artCount + songCount + folderCount
        + (Z.of_nat (length (albums d2)) - Z.of_nat (length (albums d')))
        + (Z.of_nat (length (artists d2)) - Z.of_nat (length (artists d'))).
Proof.
  intros H.
  apply OrphanScan_inv in H as (counts & d1 & a & s & f & d2 & na & nr & E1 & E2 & E3 & ->).
  exists counts, d1, a, s, f, d2. do 2 (split; [done|]).
  split.
  { eapply cleaned_trans; [by eapply baseEviction_cleaned|by eapply existenceCheck_cleaned]. }
  apply cascadingPurge_inv in E3 as (J & Pf & Ps & Pa & Pl & Pr & -> & ->).
  repeat split; try done. lia.
Qed.
End OrphanScanTheorems.

Lemma Stale_unique_ids : unique_ids Stale.db.
Proof. repeat split; simpl; repeat constructor; simpl; intuition discriminate. Qed.

Lemma OrphanScan_base_eviction_witness :
  "/music" <> "" /\ unique_ids Stale.db /\
  exists n d', OrphanScan Stale.env "/music" "" Stale.db = ((n, None), d') /\
    forall s, In s (songs d') -> in_path "/music" (Song.FileName s) = true.
Proof.
  split; [discriminate|]. split; [apply Stale_unique_ids|].
  eexists _, _. split; [vm_compute; reflexivity|].
  eapply (OrphanScan_base_eviction Stale.env "/music" "" Stale.db).
  - discriminate.
  - apply Stale_unique_ids.
  - vm_compute. reflexivity.
Defined.

(** The records of [/music2] are not under the base folder [/music]: the
    scan evicts the art, the song and the folder it finds there. *)
Example OrphanScan_evicts_sibling :
  let '(r, d') := OrphanScan Sibling.env "/music" "" Sibling.db in
  r = (3, None) /\ map Song.FileName (songs d') = ["/music/track1.mp3"] /\
  map Art.FileName (art d') = ["/music/cover.jpg"] /\
  map Folder.Path (folders d') = ["/music"].
Proof. vm_compute. by repeat split. Qed.

Lemma OrphanScan_cascading_purge_witness :
  exists n d', OrphanScan Stale.env "/music" "" Stale.db = ((n, None), d') /\
    exists d2, journal d' = journal d2 ++ [PurgeOrphanAlbums; PurgeOrphanArtists].
Proof.
  eexists _, _. split; [vm_compute; reflexivity|].
  destruct (OrphanScan_cascading_purge Stale.env "/music" "" Stale.db 5
              (OrphanScan Stale.env "/music" "" Stale.db).2)
    as (? & ? & ? & ? & ? & d2 & _ & _ & _ & J & _).
  - vm_compute. reflexivity.
  - exists d2. exact J.
Defined.

(** C2, at an input the code mishandles.  The halt flag of the orphan
    scan is set before the scan starts, and the scan runs to its end all
    the same: it returns no error, has deleted the three records outside
    the base folder and purged an album and an artist, eleven store calls
    in all. *)
Theorem OrphanScan_ignores_halt :
  (forall i, haltOrphanScan Stale.env i = true) /\
  exists d',
    OrphanScan Stale.env "/music" "" Stale.db = ((5, None), d') /\
    map Song.FileName (songs d') = ["/music/track1.mp3"] /\
    length (journal d') = 11%nat.
Proof.
  split; [done|]. eexists. split; [vm_compute; reflexivity|]. by split.
Qed.

(** ** The callback of the media scan, phase by phase *)

Ltac split_inner x :=
  match x with
  | context [match ?y with _ => _ end] => split_inner y
  | _ => destruct x eqn:?
  end.

(** Splits on every test and every outcome a computation depends on. *)
Ltac walk_cases :=
  repeat (simpl in *;
          match goal with
          | |- context [match ?x with _ => _ end] => split_inner x
          end);
  simpl in *.

Ltac walk_unfold :=
  unfold resolveFolder, scanArt, resolveArtist, resolveAlbum, reconcileSong,
    SongFromFile, bind, ret, Return, store, gets, modify in *;
  store_unfold.

(** Turns the frame equations at hand into one equation per part. *)
Ltac pair_split F :=
  lazymatch type of F with
  | (_, _) = (_, _) =>
      let F1 := fresh F in
      let F2 := fresh F in
      apply pair_equal_spec in F; destruct F as [F1 F2]; pair_split F1; pair_split F2
  | _ => idtac
  end.

Ltac frame_split :=
  repeat match goal with
  | F : beside_folders _ = _ |- _ => unfold beside_folders in F; pair_split F
  | F : beside_artists _ = _ |- _ => unfold beside_artists in F; pair_split F
  | F : beside_albums _ = _ |- _ => unfold beside_albums in F; pair_split F
  | F : beside_art _ = _ |- _ => unfold beside_art in F; pair_split F
  | F : beside_songs _ = _ |- _ => unfold beside_songs in F; pair_split F
  end;
  simpl in *.

(** Rewrites [H] with the equations at hand, later state to earlier. *)
Ltac frame_rewrite_in H :=
  repeat match goal with
  | E : _ = _ |- _ => rewrite E in H
  end.

Ltac frame_rewrite :=
  repeat match goal with
  | E : _ = _ |- _ => rewrite E
  end.

Section Frames.
Variable env : Env.

Lemma resolveFolder_frame currPath info st :
  beside_folders (resolveFolder env currPath info st).2 = beside_folders st.
Proof. walk_unfold. walk_cases; reflexivity. Qed.

Lemma resolveArtist_frame artist st :
  beside_artists (resolveArtist env artist st).2 = beside_artists st.
Proof. walk_unfold. walk_cases; reflexivity. Qed.

Lemma resolveAlbum_frame album st :
  beside_albums (resolveAlbum env album st).2 = beside_albums st.
Proof. walk_unfold. walk_cases; reflexivity. Qed.

Lemma scanArt_frame currPath info folder st :
  beside_art (scanArt env currPath info folder st).2 = beside_art st.
Proof. walk_unfold. walk_cases; reflexivity. Qed.

Lemma reconcileSong_frame song st :
  beside_songs (reconcileSong env song st).2 = beside_songs st.
Proof. walk_unfold. walk_cases; reflexivity. Qed.

Lemma scanArt_effect currPath info folder st :
  art_effect currPath info st (scanArt env currPath info folder st).2.
Proof.
  unfold art_effect. walk_unfold. walk_cases; try (left; done).
  all: right; exists (Folder.ID folder); repeat split; try done; by apply Z.eqb_neq.
Qed.


Lemma reconcileSong_effect song st :
  let st' := (reconcileSong env song st).2 in
  (songs (db st') = songs (db st) /\ songCount st' = songCount st /\
   songUpdateCount st' = songUpdateCount st) \/
  songs (db st') = songs (db st) \/
  songs (db st') = songs (db st) ++ [Song.withID (nextID (map Song.ID (songs (db st)))) song] \/
  exists id, songs (db st') =
    map (fun x => if Song.ID x =? id then Song.withID id song else x) (songs (db st)).
Proof.
  walk_unfold. walk_cases; try (left; done); try (right; left; done);
    try (right; right; left; done); right; right; right; eexists; reflexivity.
Qed.
End Frames.

Section Effects.
Variable env : Env.

(** The three lookups always go on, with a record. *)
Lemma resolveArtist_goes_on artist st : exists a, (resolveArtist env artist st).1 = inl a.
Proof. walk_unfold. walk_cases; eauto. Qed.

Lemma resolveAlbum_goes_on album st : exists a, (resolveAlbum env album st).1 = inl a.
Proof. walk_unfold. walk_cases; eauto. Qed.

Lemma reconcileSong_goes_on song st : (reconcileSong env song st).1 = inl tt.
Proof. walk_unfold. walk_cases; by repeat match goal with u : unit |- _ => destruct u end. Qed.

(** [indexSong] in terms of its three parts. *)
Lemma indexSong_run song st :
  exists artist st1 album st2,
    resolveArtist env (ArtistFromSong song) st = (inl artist, st1) /\
    resolveAlbum env (Album.withArtistID (Artist.ID artist) (AlbumFromSong song))
                 (cacheArtist artist st1) = (inl album, st2) /\
    indexSong env song st =
      (inr None,
       (reconcileSong env (Song.withIDs (Artist.ID artist) (Album.ID album) song)
          (cacheAlbum (albumCacheKey (Album.withArtistID (Artist.ID artist) (AlbumFromSong song)))
                      album st2)).2).
Proof.
  destruct (resolveArtist_goes_on (ArtistFromSong song) st) as [artist Ha].
  destruct (resolveArtist env (ArtistFromSong song) st) as [ra st1] eqn:E1.
  simpl in Ha; subst ra.
  set (album0 := Album.withArtistID (Artist.ID artist) (AlbumFromSong song)).
  destruct (resolveAlbum_goes_on album0 (cacheArtist artist st1)) as [album Hb].
  destruct (resolveAlbum env album0 (cacheArtist artist st1)) as [rb st2] eqn:E2.
  simpl in Hb; subst rb.
  exists artist, st1, album, st2. do 2 (split; [done|]).
  unfold indexSong, bind at 1. rewrite E1. unfold bind at 1, modify at 1.
  unfold bind at 1. fold album0. rewrite E2. unfold bind at 1, modify at 1.
  unfold bind at 1.
  pose proof (reconcileSong_goes_on (Song.withIDs (Artist.ID artist) (Album.ID album) song)
                (cacheAlbum (albumCacheKey album0) album st2)) as Hc.
  destruct (reconcileSong env _ _) as [rc st3]. simpl in Hc; subst rc. reflexivity.
Qed.
End Effects.

Section StepEffect.
Variable env : Env.

Lemma indexSong_frame song st :
  let st' := (indexSong env song st).2 in
  art (db st') = art (db st) /\ artFiles st' = artFiles st /\ artCount st' = artCount st /\
  folders (db st') = folders (db st) /\ folderCount st' = folderCount st.
Proof.
  destruct (indexSong_run env song st) as (artist & st1 & album & st2 & E1 & E2 & ->).
  pose proof (resolveArtist_frame env (ArtistFromSong song) st) as F1. rewrite E1 in F1.
  pose proof (resolveAlbum_frame env
    (Album.withArtistID (Artist.ID artist) (AlbumFromSong song)) (cacheArtist artist st1)) as F2.
  rewrite E2 in F2.
  pose proof (reconcileSong_frame env (Song.withIDs (Artist.ID artist) (Album.ID album) song)
    (cacheAlbum (albumCacheKey (Album.withArtistID (Artist.ID artist) (AlbumFromSong song)))
       album st2)) as F3.
  frame_split. repeat split; congruence.
Qed.

Lemma indexSong_songs song st :
  let st' := (indexSong env song st).2 in
  (songs (db st') = songs (db st) /\ songCount st' = songCount st /\
   songUpdateCount st' = songUpdateCount st) \/
  exists artist album,
    let song' := Song.withIDs artist album song in
    songs (db st') = songs (db st) \/
    songs (db st') = songs (db st) ++ [Song.withID (nextID (map Song.ID (songs (db st)))) song'] \/
    exists id, songs (db st') =
      map (fun x => if Song.ID x =? id then Song.withID id song' else x) (songs (db st)).
Proof.
  destruct (indexSong_run env song st) as (artist & st1 & album & st2 & E1 & E2 & ->).
  pose proof (resolveArtist_frame env (ArtistFromSong song) st) as F1. rewrite E1 in F1.
  pose proof (resolveAlbum_frame env
    (Album.withArtistID (Artist.ID artist) (AlbumFromSong song)) (cacheArtist artist st1)) as F2.
  rewrite E2 in F2.
  pose proof (reconcileSong_effect env (Song.withIDs (Artist.ID artist) (Album.ID album) song)
    (cacheAlbum (albumCacheKey (Album.withArtistID (Artist.ID artist) (AlbumFromSong song)))
       album st2)) as F3.
  frame_split. frame_rewrite_in F3.
  destruct F3 as [F3|F3]; [by left|]. right. by exists (Artist.ID artist), (Album.ID album).
Qed.

Lemma scanSong_effect currPath info folder st :
  let st' := (scanSong env currPath info folder st).2 in
  (art (db st') = art (db st) /\ artFiles st' = artFiles st /\ artCount st' = artCount st /\
   folders (db st') = folders (db st) /\ folderCount st' = folderCount st) /\
  song_effect currPath info st st'.
Proof.
  unfold scanSong, SongFromFile.
  destruct (taglib_Read env currPath) as [file|e]; [|by split; [|left]].
  destruct (songTagsError env file); [by split; [|left]|].
  cbn [Song.FileSize Song.withFile].
  destruct (Size info =? 0) eqn:Hsize; [by split; [|left]|].
  destruct (FileTypeMap env !! path_Ext (Name info)) as [fileType|]; [|by split; [|left]].
  split; [apply indexSong_frame|].
  destruct (indexSong_songs (Song.withFileTypeID fileType
    (Song.withFolderID (Folder.ID folder) (Song.withFile currPath (Size info) (ModTime info)
      (Song.mk 0 (tagAlbum file) 0 0 (tagArtist file) 0 (tagBitrate file) "" 0 0 0 0
         (tagTitle file) (tagTrack file) (tagYear file))))) st) as [H|(artist & album & H)].
  - by left.
  - right. eexists. repeat split; [..|exact H]; try reflexivity. by apply Z.eqb_neq.
Qed.

(** What one call of the callback does to the art and to the songs. *)
Lemma walkFn_effect i currPath oinfo st r st' :
  run (walkFn env i currPath oinfo) st = (r, st') ->
  st' = st \/
  exists info, oinfo = Some info /\
    art_effect currPath info st st' /\ song_effect currPath info st st'.
Proof.
  unfold walkFn. destruct (haltWalk env i); [intros [= _ <-]; by left|].
  destruct oinfo as [info|]; [|intros [= _ <-]; by left].
  intros E. right. exists info. split; [done|].
  unfold run, bind at 1 in E.
  pose proof (resolveFolder_frame env currPath info st) as F.
  destruct (resolveFolder env currPath info st) as [[folder|r1] st1]; frame_split.
  2:{ injection E as _ <-. split; left; done. }
  unfold bind at 1, modify at 1 in E.
  assert (forall st2 : ScanState,
    art_effect currPath info (cacheFolder folder st1) st2 ->
    song_effect currPath info (cacheFolder folder st1) st2 ->
    art_effect currPath info st st2 /\ song_effect currPath info st st2) as Hpass.
  { unfold art_effect, song_effect. simpl. frame_rewrite. done. }
  apply Hpass; clear Hpass.
  - destruct (negb (Has (mediaSet env) (path_Ext currPath)) &&
              negb (Has (artSet env) (path_Ext currPath))).
    { injection E as _ <-. by left. }
    destruct (Has (artSet env) (path_Ext currPath)).
    + pose proof (scanArt_effect env currPath info folder (cacheFolder folder st1)) as Ea.
      destruct (scanArt env currPath info folder (cacheFolder folder st1)) as [[[]|r2] st2].
      all: injection E as _ <-; done.
    + pose proof (scanSong_effect currPath info folder (cacheFolder folder st1)) as [Es _].
      destruct (scanSong env currPath info folder (cacheFolder folder st1)) as [[[]|r2] st2].
      all: injection E as _ <-; left; simpl in Es; tauto.
  - destruct (negb (Has (mediaSet env) (path_Ext currPath)) &&
              negb (Has (artSet env) (path_Ext currPath))).
    { injection E as _ <-. by left. }
    destruct (Has (artSet env) (path_Ext currPath)).
    + pose proof (scanArt_frame env currPath info folder (cacheFolder folder st1)) as Fa.
      destruct (scanArt env currPath info folder (cacheFolder folder st1)) as [[[]|r2] st2].
      all: injection E as _ <-; left; clear -Fa; frame_split; done.
    + pose proof (scanSong_effect currPath info folder (cacheFolder folder st1)) as [_ Ss].
      destruct (scanSong env currPath info folder (cacheFolder folder st1)) as [[[]|r2] st2].
      all: injection E as _ <-; done.
Qed.
End StepEffect.

(** ** The deferred pass: new art IDs for the songs of a folder *)

Section AssociateArt.
Variable env : Env.

Lemma Song_Update_inv s d r d' :
  Song_Update (faults env) s d = (r, d') ->
  journal d' = journal d ++ [UpdateSong s] /\
  folders d' = folders d /\ artists d' = artists d /\ albums d' = albums d /\ art d' = art d /\
  match r with
  | Ok _ => songs d' = map (fun x => if Song.ID x =? Song.ID s then s else x) (songs d)
  | Err _ => songs d' = songs d
  end.
Proof. store_unfold. destruct (faults env _); intros [= <- <-]; by repeat split. Qed.


(** The updates of one pair keep the identities of the songs, touch no
    other table, and pass by the songs that share no identity with a
    song of the folder. *)
Lemma updateArt_frame l a d r d' :
  updateArt env l a d = (r, d') ->
  map Song.ID (songs d') = map Song.ID (songs d) /\
  folders d' = folders d /\ artists d' = artists d /\ albums d' = albums d /\
  art d' = art d /\
  (exists calls, calls_between d d' (map UpdateSong calls) /\
     forall c, In c calls -> exists s, In s l /\ c = Song.withArtID a s) /\
  forall x, In x (songs d) -> (forall s, In s l -> Song.ID s <> Song.ID x) -> In x (songs d').
Proof.
  revert d. induction l as [|s l IH]; simpl; intros d H.
  - injection H as _ <-. repeat split; try done.
    exists []. split; [apply calls_between_refl|by intros ? []].
  - destruct (Song_Update (faults env) (Song.withArtID a s) d) as [[[]|e] d1] eqn:E;
      apply Song_Update_inv in E as (J & Hf & Hr & Hl & Ha & Hs).
    + destruct (IH _ H) as (I1 & I2 & I3 & I4 & I5 & (calls & I6 & I7) & I8).
      assert (map Song.ID (songs d1) = map Song.ID (songs d)) as Hids.
      { rewrite Hs, map_map. apply map_ext. intros y. simpl.
        destruct (Song.ID y =? Song.ID s) eqn:Eid; [|done]. by apply Z.eqb_eq in Eid. }
      repeat split; try congruence.
      * exists (Song.withArtID a s :: calls). split.
        -- unfold calls_between in *. rewrite I6, J. simpl. by rewrite <- app_assoc.
        -- intros c [<-|Hc]; [exists s; split; [by left|done]|].
           destruct (I7 c Hc) as (s' & ? & ?). exists s'. split; [by right|done].
      * intros x Hx Hne. apply I8; [|intros s' Hs'; apply Hne; by right].
        rewrite Hs. apply in_map_iff. exists x. split; [|done]. simpl.
        destruct (Song.ID x =? Song.ID s) eqn:Eid; [|done].
        apply Z.eqb_eq in Eid. exfalso. apply (Hne s); [by left|done].
    + injection H as _ <-. repeat split; try congruence.
      exists [Song.withArtID a s]. split; [done|].
      intros c [<-|[]]. exists s. split; [by left|done].
Qed.







(** The identities of the songs are those the walk left. *)
Lemma associateArt_ids pairs d r d' :
  associateArt env pairs d = (r, d') -> map Song.ID (songs d') = map Song.ID (songs d).
Proof.
  revert d. induction pairs as [|p pairs IH]; simpl; intros d H.
  - by injection H as _ <-.
  - destruct (DB_SongsForFolder (faults env) (folderID p) d) as [[l|e] d0] eqn:E;
      apply query_inv in E as [-> _]; [|by injection H as _ <-].
    destruct (updateArt env l (artID p) _) as [[e|] d1] eqn:E1;
      apply updateArt_frame in E1 as (I1 & _); simpl in I1.
    + injection H as _ <-. done.
    + apply IH in H. congruence.
Qed.
End AssociateArt.

(** ** [MediaScan] as a whole *)

Section MediaScanTheorems.
Variable env : Env.

(** A media scan that returns no error has walked to the end and run
    the deferred pass to the end. *)
Lemma MediaScan_inv root d n d' :
  MediaScan env root d = ((n, None), d') ->
  exists st,
    walk env 0 (Walk env root) (initState d) = (None, st) /\
    associateArt env (artFiles st) (db st) = (None, d') /\
    n = changes st.
Proof.
  unfold MediaScan. destruct (walk env 0 _ _) as [[e|] st] eqn:E; [done|].
  destruct (associateArt env _ _) as [[e|] d1] eqn:E1; [done|].
  intros [= <- <-]. by exists st.
Qed.

End MediaScanTheorems.

(** ** What holds all along the walk *)

Section WalkInvariants.
Variable env : Env.

(** A property every call of the callback keeps holds after the walk. *)
Lemma walk_invariant (I : ScanState -> Prop) items :
  (forall i currPath info st r st',
     In (currPath, info) items -> I st ->
     run (walkFn env i currPath info) st = (r, st') -> I st') ->
  forall i st r st', I st -> walk env i items st = (r, st') -> I st'.
Proof.
  induction items as [|[currPath info] items IH]; intros Hstep i st r st' HI H.
  - simpl in H. by injection H as _ <-.
  - simpl in H. destruct (run (walkFn env i currPath info) st) as [[e|] st1] eqn:E.
    + injection H as _ <-. eapply Hstep; [by left|done|done].
    + eapply IH; [|eapply Hstep; [by left|done|done]|exact H].
      intros ? ? ? ? ? ? Hin. apply Hstep. by right.
Qed.

Lemma map_ID_update id (song : Song.t) l :
  map Song.ID (map (fun x => if Song.ID x =? id then Song.withID id song else x) l)
  = map Song.ID l.
Proof.
  rewrite map_map. apply map_ext. intros y.
  destruct (Song.ID y =? id) eqn:E; [|done]. by apply Z.eqb_eq in E.
Qed.

Lemma walkFn_scanned d i currPath info st r st' :
  scanned d st -> run (walkFn env i currPath info) st = (r, st') -> scanned d st'.
Proof.
  intros ((saved & Hart & Hfresh & Hpairs) & Hids & Hzero) H.
  apply walkFn_effect in H as [->|(fi & -> & Ha & Hs)]; [by repeat split; eauto|].
  split; [|split].
  - destruct Ha as [(Ea & Ef & _)|(folder & Hsize & Ea & Ef & _)].
    + exists saved. rewrite Ea, Ef. by repeat split.
    + exists (saved ++ [Art.mk (nextID (map Art.ID (art (db st)))) currPath (Size fi) (ModTime fi)]).
      rewrite Ea, Ef, Hart. split; [by rewrite app_assoc|]. split.
      * intros a [Ha|[<-|[]]]%in_app_or; [by apply Hfresh|]. simpl. intros Hin.
        apply (nextID_fresh (map Art.ID (art d ++ saved))).
        apply in_map_iff in Hin as (y & Hy & Hyin). rewrite <- Hy.
        apply in_map, in_or_app. by left.
      * intros p [Hp|[<-|[]]]%in_app_or.
        -- apply Hpairs in Hp. apply in_map_iff in Hp as (a & <- & Ha).
           apply in_map, in_or_app. by left.
        -- apply in_map_iff. eexists. split; [|apply in_or_app; right; by left]. done.
  - intros Hnd. specialize (Hids Hnd).
    destruct Hs as [(Es & _)|(song & _ & _ & _ & _ & _ & _ & [Es|[Es|(id & Es)]])];
      rewrite Es; try done.
    + rewrite List.map_app. simpl. apply List.NoDup_app; [done|repeat constructor; by intros []|].
      intros x Hx [<-|[]]. by apply nextID_fresh in Hx.
    + by rewrite map_ID_update.
  - intros x Hx.
    destruct Hs as [(Es & _)|(song & Hz & _ & _ & _ & _ & _ & [Es|[Es|(id & Es)]])];
      rewrite Es in Hx; try by apply Hzero.
    + apply in_app_or in Hx as [Hx|[<-|[]]]; [by apply Hzero|]. by right.
    + apply in_map_iff in Hx as (y & Hy & Hyin).
      destruct (Song.ID y =? id); subst; [by right|by apply Hzero].
Qed.

Lemma scanned_init d : scanned d (initState d).
Proof.
  split; [|split]; simpl; try tauto.
  exists []. rewrite app_nil_r. repeat split; by intros ? [].
Qed.

Lemma walk_scanned d items i r st :
  walk env i items (initState d) = (r, st) -> scanned d st.
Proof.
  apply (walk_invariant (scanned d)); [|apply scanned_init].
  intros. by eapply walkFn_scanned.
Qed.

(** A visit of an item of non-negative size keeps the sizes positive. *)
Lemma walkFn_positive_sizes i currPath info st r st' :
  (forall fi, info = Some fi -> 0 <= Size fi) ->
  positive_sizes (db st) -> run (walkFn env i currPath info) st = (r, st') ->
  positive_sizes (db st').
Proof.
  intros Hsize [Hsongs Hart] H.
  apply walkFn_effect in H as [->|(fi & -> & Ha & Hs)]; [done|].
  specialize (Hsize fi eq_refl). split.
  - intros x Hx.
    destruct Hs as [(Es & _)|(song & _ & _ & _ & Hfs & _ & Hnz & [Es|[Es|(id & Es)]])];
      rewrite Es in Hx; try by apply Hsongs.
    + apply in_app_or in Hx as [Hx|[<-|[]]]; [by apply Hsongs|]. simpl. lia.
    + apply in_map_iff in Hx as (y & Hy & Hyin).
      destruct (Song.ID y =? id); subst; [simpl; lia|by apply Hsongs].
  - intros a Hin.
    destruct Ha as [(Ea & _)|(folder & Hnz & Ea & _)]; rewrite Ea in Hin; [by apply Hart|].
    apply in_app_or in Hin as [Hin|[<-|[]]]; [by apply Hart|]. simpl. lia.
Qed.
End WalkInvariants.

Section DeferredPassFrame.
Variable env : Env.

(** The deferred pass passes by the songs of the folders without a
    pair, and only calls the store on behalf of a pair. *)
Lemma associateArt_frame pairs d r d' :
  List.NoDup (map Song.ID (songs d)) ->
  associateArt env pairs d = (r, d') ->
  (forall x, In x (songs d) ->
     (forall p, In p pairs -> folderID p <> Song.FolderID x) -> In x (songs d')) /\
  art d' = art d /\
  exists calls, calls_between d d' calls /\
    forall c, In c calls -> exists p, In p pairs /\ call_for_pair p c.
Proof.
  revert d. induction pairs as [|p pairs IH]; simpl; intros d Hnd H.
  - injection H as _ <-. repeat split; try done.
    exists []. split; [apply calls_between_refl|by intros ? []].
  - destruct (DB_SongsForFolder (faults env) (folderID p) d) as [[l|e] d0] eqn:E;
      apply query_inv in E as [-> Hl].
    2:{ injection H as _ <-. repeat split; try done.
        exists [SongsForFolder (folderID p)]. split; [done|].
        intros c [<-|[]]. exists p. split; [by left|by left]. }
    specialize (Hl _ eq_refl). simpl in Hl. subst l.
    destruct (updateArt env _ (artID p) _) as [r1 d1] eqn:E1.
    apply updateArt_frame in E1 as (Hids & _ & _ & _ & Hart & (ups & Hj & Hups) & Hkeep).
    simpl in Hids, Hkeep, Hart.
    assert (forall x, In x (songs d) -> folderID p <> Song.FolderID x -> In x (songs d1)) as K.
    { intros x Hx Hne. apply Hkeep; [done|]. intros s [Hs Hf%Z.eqb_eq]%filter_In Heq.
      apply Hne. rewrite <- Hf. f_equal. by apply (NoDup_map_inj Song.ID (songs d)). }
    assert (exists calls, calls_between d d1 calls /\
              forall c, In c calls -> call_for_pair p c) as (c1 & J1 & C1).
    { exists (SongsForFolder (folderID p) :: map UpdateSong ups). split.
      - unfold calls_between in *. rewrite Hj. simpl. by rewrite <- app_assoc.
      - intros c [<-|Hc]; [by left|]. right.
        apply in_map_iff in Hc as (s & <- & Hs). exists s. split; [done|].
        destruct (Hups s Hs) as (s0 & [_ Hf%Z.eqb_eq]%filter_In & ->). done. }
    destruct r1 as [e|].
    + injection H as _ <-. split; [|split; [done|]].
      * intros x Hx Hp. apply K; [done|]. apply Hp. by left.
      * exists c1. split; [done|]. intros c Hc. exists p. split; [by left|auto].
    + apply IH in H as (I1 & I2 & c2 & J2 & C2); [|by rewrite Hids].
      split; [|split; [congruence|]].
      * intros x Hx Hp. apply I1; [apply K; [done|apply Hp; by left]|].
        intros q Hq. apply Hp. by right.
      * exists (c1 ++ c2). split; [by eapply calls_between_trans|].
        intros c [Hc|Hc]%in_app_or.
        -- exists p. split; [by left|auto].
        -- destruct (C2 c Hc) as (q & Hq & ?). exists q. split; [by right|done].
Qed.
End DeferredPassFrame.

Section MediaScanFrame.
Variable env : Env.

(** C10. In a media scan that returns no error, the pairs the deferred
    pass applies all name an art saved during the walk, under an
    identity the store did not hold before; the pass leaves as it is every
    song of a folder for which no pair was recorded, and calls the store
    on behalf of the recorded pairs only; and a song the walk has saved or
    written over refers to no art when the pass starts, so that a new
    song of a folder whose art was in the store before the scan keeps the
    art reference zero. *)
Theorem MediaScan_only_new_art root d n d' :
  List.NoDup (map Song.ID (songs d)) ->
  MediaScan env root d = ((n, None), d') ->
  exists st,
    walk env 0 (Walk env root) (initState d) = (None, st) /\
    (forall p, In p (artFiles st) ->
       exists a, In a (art (db st)) /\ Art.ID a = artID p /\
                 ~ In (Art.ID a) (map Art.ID (art d))) /\
    (forall x, In x (songs (db st)) ->
       (forall p, In p (artFiles st) -> folderID p <> Song.FolderID x) ->
       In x (songs d')) /\
    (forall x, In x (songs (db st)) -> ~ In x (songs d) -> Song.ArtID x = 0) /\
    exists calls, calls_between (db st) d' calls /\
      forall c, In c calls -> exists p, In p (artFiles st) /\ call_for_pair p c.
Proof.
  intros Hnd H. apply MediaScan_inv in H as (st & Hw & Ha & _).
  exists st. split; [done|].
  pose proof (walk_scanned env _ _ _ _ _ Hw) as ((saved & Hart & Hfresh & Hpairs) & Hids & Hzero).
  apply associateArt_frame in Ha as (Hkeep & _ & Hcalls); [|by apply Hids].
  repeat split; try done.
  - intros p Hp. apply Hpairs in Hp. apply in_map_iff in Hp as (a & Ha & Hin).
    exists a. rewrite Hart. split; [apply in_or_app; by right|]. split; [done|by apply Hfresh].
  - intros x Hx Hnew. destruct (Hzero x Hx); [done|done].
Qed.
End MediaScanFrame.

(** The cover is discovered before the song ... *)
Example art_then_song :
  let d' := (MediaScan Library.env "/music" emptyDB).2 in
  map fst (Walk Library.env "/music")
    = ["/music"; "/music/ArtistA"; "/music/ArtistA/Album1";
       "/music/ArtistA/Album1/cover.jpg"; "/music/ArtistA/Album1/track1.mp3"] /\
  (MediaScan Library.env "/music" emptyDB).1 = (7, None) /\
  map Art.ID (art d') = [1] /\ map Song.ArtID (songs d') = [1].
Proof. vm_compute. by repeat split. Qed.

(** ... and the song before the cover. *)
Example song_then_art :
  let d' := (MediaScan LibraryB.env "/music" emptyDB).2 in
  map fst (Walk LibraryB.env "/music")
    = ["/music"; "/music/ArtistA"; "/music/ArtistA/Album1";
       "/music/ArtistA/Album1/a_track.mp3"; "/music/ArtistA/Album1/cover.jpg"] /\
  (MediaScan LibraryB.env "/music" emptyDB).1 = (7, None) /\
  map Art.ID (art d') = [1] /\ map Song.ArtID (songs d') = [1].
Proof. vm_compute. by repeat split. Qed.

(** A song added to a folder whose cover is in the store keeps no art. *)
Example new_song_old_art :
  let d' := (MediaScan Grown.env "/music" Grown.indexed).2 in
  (MediaScan Grown.env "/music" Grown.indexed).1 = (1, None) /\
  map Song.FileName (songs d')
    = ["/music/ArtistA/Album1/track1.mp3"; "/music/ArtistA/Album1/track2.mp3"] /\
  map Song.ArtID (songs d') = [1; 0].
Proof. vm_compute. by repeat split. Qed.


Lemma MediaScan_only_new_art_witness :
  let d' := (MediaScan Grown.env "/music" Grown.indexed).2 in
  List.NoDup (map Song.ID (songs Grown.indexed)) /\
  MediaScan Grown.env "/music" Grown.indexed = ((1, None), d') /\
  exists st, walk Grown.env 0 (Walk Grown.env "/music") (initState Grown.indexed) = (None, st) /\
    forall x, In x (songs (db st)) -> ~ In x (songs Grown.indexed) -> Song.ArtID x = 0.
Proof.
  intros d'.
  assert (List.NoDup (map Song.ID (songs Grown.indexed))) as Hnd
    by (vm_compute; repeat constructor; intros []).
  assert (MediaScan Grown.env "/music" Grown.indexed = ((1, None), d')) as H
    by (vm_compute; reflexivity).
  split; [exact Hnd|]. split; [exact H|].
  destruct (MediaScan_only_new_art _ _ _ _ _ Hnd H) as (st & Hw & _ & _ & Hz & _).
  exists st. split; [exact Hw|exact Hz].
Defined.

(** ** Halting *)

Section Halting.
Variable env : Env.

(** A call of the callback that reads the flag set returns the halt
    error and does nothing else. *)
Lemma walkFn_halted i currPath info st :
  haltWalk env i = true ->
  run (walkFn env i currPath info) st = (Some haltedByChannel, st).
Proof. intros H. unfold walkFn. by rewrite H. Qed.

Lemma walk_app i l1 l2 st :
  walk env i (l1 ++ l2) st =
    match walk env i l1 st with
    | (Some e, st') => (Some e, st')
    | (None, st') => walk env (i + length l1) l2 st'
    end.
Proof.
  revert i st. induction l1 as [|[p info] l1 IH]; intros i st; simpl.
  - by rewrite Nat.add_0_r.
  - destruct (run (walkFn env i p info) st) as [[e|] st1]; [done|].
    rewrite IH. by replace (S i + length l1)%nat with (i + S (length l1))%nat by lia.
Qed.

(** X6.  A media scan whose flag is set when the callback is called on the
    item after [done] returns the halt error, and leaves the store as the
    calls on [done] left it: no call is made to the store afterwards. *)
Lemma MediaScan_halted root d visited item rest st :
  Walk env root = visited ++ item :: rest ->
  walk env 0 visited (initState d) = (None, st) ->
  haltWalk env (length visited) = true ->
  MediaScan env root d = ((0, Some haltedByChannel), db st).
Proof.
  intros Hw Hv Hh. unfold MediaScan. rewrite Hw, walk_app, Hv. simpl.
  destruct item as [p info]. by rewrite walkFn_halted.
Qed.
End Halting.

(** ** Empty directories *)

Section EmptyDirectories.
Variable env : Env.

Lemma resolveFolder_empty currPath info st :
  IsDir info = true -> ReadDir env currPath = Ok [] ->
  let st' := (resolveFolder env currPath info st).2 in
  folders (db st') = folders (db st) /\ folderCount st' = folderCount st.
Proof.
  intros Hdir Hread. walk_unfold. rewrite Hdir. simpl. rewrite Hread.
  walk_cases; done.
Qed.

(** C6, as the code has it.  The callback called on a directory with no
    entry at all saves no folder and counts none; and when the store has
    no folder for it (the load answers not-found), the flag is not set and
    the cache does not hold it, the callback returns nil having done
    nothing but that load. *)
Theorem walkFn_empty_directory i currPath info st r st' :
  IsDir info = true -> ReadDir env currPath = Ok [] ->
  run (walkFn env i currPath (Some info)) st = (r, st') ->
  folders (db st') = folders (db st) /\ folderCount st' = folderCount st /\
  (haltWalk env i = false -> folderCache st !! currPath = None ->
   (Folder_Load (faults env) currPath (db st)).1 = Err ErrNoRows ->
   r = None /\ same_records (db st) (db st') /\
   calls_between (db st) (db st') [LoadFolder currPath] /\ changes st' = changes st).
Proof.
  intros Hdir Hread E.
  assert (folders (db st') = folders (db st) /\ folderCount st' = folderCount st) as Hkeep.
  { revert E. unfold walkFn. destruct (haltWalk env i); [by intros [= _ <-]|].
    unfold run, bind at 1.
    pose proof (resolveFolder_empty currPath info st Hdir Hread) as [F1 F2].
    destruct (resolveFolder env currPath info st) as [[folder|r1] st1]; simpl in F1, F2.
    2:{ by intros [= _ <-]. }
    unfold bind at 1, modify at 1.
    destruct (negb (Has (mediaSet env) (path_Ext currPath)) &&
              negb (Has (artSet env) (path_Ext currPath))); [by intros [= _ <-]|].
    destruct (Has (artSet env) (path_Ext currPath)).
    - pose proof (scanArt_frame env currPath info folder (cacheFolder folder st1)) as Fa.
      destruct (scanArt env currPath info folder (cacheFolder folder st1)) as [[[]|r2] st2].
      all: intros [= _ <-]; frame_split; split; congruence.
    - pose proof (scanSong_effect env currPath info folder (cacheFolder folder st1))
        as [(_ & _ & _ & Fs1 & Fs2) _].
      destruct (scanSong env currPath info folder (cacheFolder folder st1)) as [[[]|r2] st2].
      all: intros [= _ <-]; simpl in *; split; congruence. }
  destruct Hkeep as [K1 K2]. do 2 (split; [done|]).
  intros Hhalt Hcache Hload. revert E Hload.
  unfold walkFn. rewrite Hhalt.
  unfold run, bind at 1, resolveFolder, bind at 1, gets. rewrite Hdir. simpl.
  rewrite Hcache. unfold bind at 1, store.
  destruct (Folder_Load (faults env) currPath (db st)) as [l d1] eqn:El. simpl.
  intros E ->. rewrite Hread in E. simpl in E. injection E as <- <-.
  revert El. store_unfold. destruct (faults env (LoadFolder currPath)); intros [= _ <-]; done.
Qed.
End EmptyDirectories.

(** C6, as the specification words it, fails: not one file lies below
    [/music/a], yet the scan saves a folder for it and counts it. *)
Lemma empty_tree_gets_folders :
  file_count Hollow.music = 0%nat /\
  let '(r, d') := MediaScan Hollow.env "/music" emptyDB in
  r = (2, None) /\ map Folder.Path (folders d') = ["/music"; "/music/a"].
Proof. vm_compute. by repeat split. Qed.

Lemma walkFn_empty_directory_witness :
  let info := {| Name := "b"; Size := 4096; ModTime := 0; IsDir := true |} in
  let st := initState emptyDB in
  let out := run (walkFn Hollow.env 2 "/music/a/b" (Some info)) st in
  IsDir info = true /\ ReadDir Hollow.env "/music/a/b" = Ok [] /\
  folders (db out.2) = folders (db st) /\ folderCount out.2 = folderCount st.
Proof.
  intros info st out. split; [reflexivity|]. split; [vm_compute; reflexivity|].
  destruct (walkFn_empty_directory Hollow.env 2 "/music/a/b" info st out.1 out.2)
    as (H1 & H2 & _).
  - reflexivity.
  - vm_compute; reflexivity.
  - apply surjective_pairing.
  - split; [exact H1|exact H2].
Defined.

(** ** A song whose path the store knows *)

Section ExistingSong.
Variable env : Env.



End ExistingSong.

(** ** Files of size zero *)

Section ZeroSize.
Variable env : Env.

Lemma scanArt_zero_size currPath info folder st :
  Size info = 0 ->
  (scanArt env currPath info folder st).1 = inr None /\
  media_records (scanArt env currPath info folder st).2 = media_records st.
Proof.
  intros Hsize. unfold media_records. walk_unfold. rewrite Hsize. simpl.
  walk_cases; done.
Qed.

Lemma scanSong_zero_size currPath info folder st :
  Size info = 0 ->
  media_records (scanSong env currPath info folder st).2 = media_records st /\
  ((scanSong env currPath info folder st).1 = inr None \/
   (exists e, taglib_Read env currPath = Err e) \/
   (exists file, taglib_Read env currPath = Ok file /\ songTagsError env file <> None)).
Proof.
  intros Hsize. unfold scanSong, SongFromFile.
  destruct (taglib_Read env currPath) as [file|e]; [|split; [done|right; left; eauto]].
  destruct (songTagsError env file) eqn:Hs.
  - split; [done|]. right; right. exists file. split; [done|]. by rewrite Hs.
  - cbn [Song.FileSize Song.withFile]. rewrite Hsize. simpl. by split; [|left].
Qed.

Lemma updateArt_positive_sizes l a d r d' :
  (forall s, In s l -> 0 < Song.FileSize s) ->
  positive_sizes d -> updateArt env l a d = (r, d') -> positive_sizes d'.
Proof.
  revert d. induction l as [|s l IH]; simpl; intros d Hl Hd H.
  - by injection H as _ <-.
  - destruct (Song_Update (faults env) (Song.withArtID a s) d) as [[[]|e] d1] eqn:E;
      apply Song_Update_inv in E as (_ & _ & _ & _ & Ha & Hs).
    + apply (IH d1); [intros; apply Hl; by right| |done].
      destruct Hd as [Hds Hda]. split; [|by rewrite Ha].
      intros x Hx. rewrite Hs in Hx. apply in_map_iff in Hx as (y & Hy & Hyin).
      destruct (Song.ID y =? Song.ID (Song.withArtID a s)); subst; [|by apply Hds].
      simpl. apply Hl. by left.
    + injection H as _ <-. destruct Hd as [Hds Hda]. split; [by rewrite Hs|by rewrite Ha].
Qed.

Lemma associateArt_positive_sizes pairs d r d' :
  positive_sizes d -> associateArt env pairs d = (r, d') -> positive_sizes d'.
Proof.
  revert d. induction pairs as [|p pairs IH]; simpl; intros d Hd H.
  - by injection H as _ <-.
  - destruct (DB_SongsForFolder (faults env) (folderID p) d) as [[l|e] d0] eqn:E;
      apply query_inv in E as [-> Hl]; [|by injection H as _ <-].
    specialize (Hl _ eq_refl). simpl in Hl.
    destruct (updateArt env l (artID p) _) as [r1 d1] eqn:E1.
    apply updateArt_positive_sizes in E1; [| |done].
    + destruct r1; [by injection H as _ <-|by eapply IH].
    + intros s Hs. rewrite Hl in Hs. apply filter_In in Hs as [Hs _]. by apply Hd.
Qed.

(** C7, as the code has it.  The callback called on a file of size zero
    saves no artist, album, song or art, records no pair and moves none of
    their counters; it returns nil when the flag is not set and the folder
    is resolved, unless the file has a media extension and its tags
    cannot be read.  And a scan over items of sizes that are not negative,
    from a store whose songs and art all have a positive size, leaves such
    a store, error or not. *)
Theorem MediaScan_zero_size :
  (forall i currPath info st r st',
     Size info = 0 ->
     run (walkFn env i currPath (Some info)) st = (r, st') ->
     media_records st' = media_records st /\
     (haltWalk env i = false ->
      (exists folder st1, resolveFolder env currPath info st = (inl folder, st1)) ->
      Has (artSet env) (path_Ext currPath) = true \/
      Has (mediaSet env) (path_Ext currPath) = false \/
      (exists file, taglib_Read env currPath = Ok file /\ songTagsError env file = None) ->
      r = None)) /\
  (forall root d r d',
     (forall currPath info, In (currPath, Some info) (Walk env root) -> 0 <= Size info) ->
     positive_sizes d ->
     MediaScan env root d = (r, d') -> positive_sizes d').
Proof.
  split.
  - intros i currPath info st r st' Hsize E.
    revert E. unfold walkFn. destruct (haltWalk env i) eqn:Hhalt.
    { intros [= _ <-]. split; [done|]. done. }
    unfold run, bind at 1.
    pose proof (resolveFolder_frame env currPath info st) as F.
    destruct (resolveFolder env currPath info st) as [[folder|r1] st1] eqn:Ef.
    2:{ intros [= _ <-]. split; [unfold media_records; frame_split; by frame_rewrite|].
        by intros _ (? & ? & ?). }
    unfold bind at 1, modify at 1.
    assert (media_records (cacheFolder folder st1) = media_records st) as Hm
      by (unfold media_records; frame_split; by frame_rewrite).
    destruct (Has (artSet env) (path_Ext currPath)) eqn:Hart.
    + rewrite andb_false_r.
      destruct (scanArt_zero_size currPath info folder (cacheFolder folder st1) Hsize)
        as [Hr Hk].
      destruct (scanArt env currPath info folder (cacheFolder folder st1)) as [o st2].
      simpl in Hr, Hk. subst o. intros [= <- <-]. split; [congruence|done].
    + rewrite andb_true_r.
      destruct (Has (mediaSet env) (path_Ext currPath)) eqn:Hmedia; cbn [negb].
      2:{ intros [= <- <-]. done. }
      destruct (scanSong_zero_size currPath info folder (cacheFolder folder st1) Hsize)
        as [Hk Hr].
      destruct (scanSong env currPath info folder (cacheFolder folder st1)) as [o st2].
      simpl in Hr, Hk. intros E. split; [destruct o as [[]|?]; injection E as _ <-; congruence|].
      intros _ _ [?|[?|(file & Htags & Hsong)]]; try done.
      destruct Hr as [->|[(e & He)|(file' & Hf & Hne)]].
      * by injection E as <- _.
      * congruence.
      * rewrite Htags in Hf. injection Hf as <-. done.
  - intros root d r d' Hsizes Hd. unfold MediaScan.
    destruct (walk env 0 (Walk env root) (initState d)) as [o st] eqn:Hw.
    assert (positive_sizes (db st)) as Hst.
    { revert Hw. apply (walk_invariant env (fun s => positive_sizes (db s))); [|done].
      intros i p info s r0 s' Hin Hs. apply walkFn_positive_sizes; [|done].
      intros fi ->. by eapply Hsizes. }
    destruct o as [e|]; [by intros [= _ <-]|].
    destruct (associateArt env (artFiles st) (db st)) as [o d1] eqn:Ha.
    apply associateArt_positive_sizes in Ha; [|done].
    destruct o; by intros [= _ <-].
Qed.
End ZeroSize.

(** C7, as the specification words it, fails: a song file of size zero
    is not skipped when its tags cannot be read; the scan ends there with
    the error of the tag reader. *)
Lemma zero_size_song_ends_scan :
  Size Truncated.info = 0 /\
  Walk Truncated.env "/music"
    = [("/music", Some (node_info Truncated.music));
       ("/music/empty.mp3", Some Truncated.info)] /\
  taglib_Read Truncated.env "/music/empty.mp3" = Err (ErrMsg "taglib: invalid file") /\
  (MediaScan Truncated.env "/music" emptyDB).1
    = (0, Some (ErrMsg "/music/empty.mp3: taglib: invalid file")).
Proof. vm_compute. by repeat split. Qed.

Lemma MediaScan_zero_size_witness :
  let st := initState emptyDB in
  let out := run (walkFn Truncated.env 1 "/music/empty.mp3" (Some Truncated.info)) st in
  Size Truncated.info = 0 /\ media_records out.2 = media_records st.
Proof.
  intros st out. split; [reflexivity|].
  destruct (MediaScan_zero_size Truncated.env) as [Hstep _].
  destruct (Hstep 1%nat "/music/empty.mp3" Truncated.info st out.1 out.2) as [Hk _].
  - reflexivity.
  - apply surjective_pairing.
  - exact Hk.
Defined.

(** ** Errors *)

Section Errors.
Variable env : Env.







End Errors.

Section ErrorsAbort.
Variable env : Env.




(** A tag reader that fails ends the callback with its error, the path
    put in front. *)
Lemma walkFn_tags_fail i currPath info st folder st1 e0 :
  haltWalk env i = false ->
  resolveFolder env currPath info st = (inl folder, st1) ->
  Has (artSet env) (path_Ext currPath) = false ->
  Has (mediaSet env) (path_Ext currPath) = true ->
  taglib_Read env currPath = Err e0 ->
  run (walkFn env i currPath (Some info)) st
    = (Some (ErrMsg (String.append currPath (String.append ": " (error_string e0)))),
       cacheFolder folder st1).
Proof.
  intros Hh Hf Ha Hm Ht. unfold walkFn, run, bind. rewrite Hh, Hf. unfold modify.
  rewrite Ha, Hm. cbn [negb andb]. unfold scanSong. by rewrite Ht.
Qed.

(** An error of the walk ends the scan: it is what the scan returns, with
    the count zero, and the store stays as the callback left it. *)
Lemma MediaScan_walk_error root d e st :
  walk env 0 (Walk env root) (initState d) = (Some e, st) ->
  MediaScan env root d = ((0, Some e), db st).
Proof. intros H. unfold MediaScan. by rewrite H. Qed.










End ErrorsAbort.



(** ** A second scan of an unchanged tree *)

Section Quiet.
Variable env : Env.
Variable d : DB.
Hypothesis loads_pass : forall c, is_load c = true -> faults env c = None.

Lemma quiet_init : quiet d (initState d).
Proof.
  unfold quiet. simpl. repeat split; try done.
  exists []. split; [apply calls_between_refl|constructor].
Qed.

Lemma quiet_logged c st : is_load c = true -> quiet d st -> quiet d (logged c st).
Proof.
  intros Hc (Hr & (calls & Hj & Hl) & Hn & Hf & Hfc & Hac).
  unfold quiet. simpl. repeat split; try tauto; try apply Hr.
  exists (calls ++ [c]). split.
  - unfold calls_between in *. simpl. by rewrite Hj, app_assoc.
  - apply Forall_app. split; [done|]. by constructor.
Qed.

Lemma quiet_lookups st :
  quiet d st ->
  (forall p, folderAt (db st) p = folderAt d p) /\
  (forall t, artistNamed (db st) t = artistNamed d t) /\
  (forall a t, albumOf (db st) a t = albumOf d a t) /\
  (forall p, songAt (db st) p = songAt d p) /\
  (forall p, artAt (db st) p = artAt d p).
Proof.
  intros ((Hf & Hr & Hl & Hs & Ha) & _).
  unfold folderAt, artistNamed, albumOf, songAt, artAt.
  rewrite Hf, Hr, Hl, Hs, Ha. done.
Qed.

Lemma quiet_cacheFolder f st :
  folderAt d (Folder.Path f) = Some f -> quiet d st -> quiet d (cacheFolder f st).
Proof.
  intros Hsome (Hr & Hj & Hn & Hf & Hfc & Hac).
  unfold quiet. simpl. repeat split; try tauto; try apply Hr.
  intros p f'. destruct (decide (Folder.Path f = p)) as [<-|Hne].
  - rewrite lookup_insert_eq. by intros [= <-].
  - rewrite lookup_insert_ne by done. apply Hfc.
Qed.

Lemma folderAt_path p f : folderAt d p = Some f -> Folder.Path f = p.
Proof. unfold folderAt. intros [_ H]%find_some. by apply String.eqb_eq in H. Qed.

Lemma artistNamed_title t a : artistNamed d t = Some a -> Artist.Title a = t.
Proof. unfold artistNamed. intros [_ H]%find_some. by apply String.eqb_eq in H. Qed.

Lemma quiet_cacheArtist a st :
  artistNamed d (Artist.Title a) = Some a -> quiet d st -> quiet d (cacheArtist a st).
Proof.
  intros Hsome (Hr & Hj & Hn & Hf & Hfc & Hac).
  unfold quiet. simpl. repeat split; try tauto; try apply Hr.
  intros t a'. destruct (decide (Artist.Title a = t)) as [<-|Hne].
  - rewrite lookup_insert_eq. by intros [= <-].
  - rewrite lookup_insert_ne by done. apply Hac.
Qed.

Lemma quiet_cacheAlbum key a st : quiet d st -> quiet d (cacheAlbum key a st).
Proof.
  intros (Hr & Hj & Hn & Hf & Hfc & Hac). unfold quiet. simpl. repeat split; tauto || apply Hr.
Qed.

(** The folder of an indexed item: from the cache or from the store, or
    the callback returns, and nothing is written. *)
Lemma resolveFolder_quiet currPath info st :
  quiet d st ->
  (folderAt d (folderPath currPath info) = None ->
   holds_items env (folderPath currPath info) = false) ->
  let out := resolveFolder env currPath info st in
  quiet d out.2 /\
  forall f, out.1 = inl f -> folderAt d (folderPath currPath info) = Some f.
Proof.
  intros Hq Hidx. pose proof (quiet_lookups st Hq) as (Lf & _).
  pose proof Hq as (Hr & Hj & Hn & Hf & Hfc & Hac).
  unfold resolveFolder, bind, gets, store, ret, Return, modify, Folder_Load, Folder_Save, invoke.
  rewrite !(loads_pass (LoadFolder _)) by reflexivity.
  change (Folder.Path (Folder.withPath ?p Folder.new)) with p.
  fold (folderPath currPath info).
  destruct (folderCache st !! folderPath currPath info) as [f|] eqn:Hc; simpl.
  { split; [done|]. intros f' [= <-]. by apply Hfc. }
  change (folderAt (record_call ?c ?x) ?p) with (folderAt x p). rewrite Lf.
  fold (logged (LoadFolder (folderPath currPath info)) st).
  assert (quiet d (logged (LoadFolder (folderPath currPath info)) st)) as Hq1
    by (by apply quiet_logged).
  destruct (folderAt d (folderPath currPath info)) as [f|] eqn:Hat; simpl.
  { split; [done|]. by intros f' [= <-]. }
  specialize (Hidx eq_refl). unfold holds_items in Hidx.
  destruct (ReadDir env (folderPath currPath info)) as [[|x l]|e]; try done; simpl.
  all: split; [done|]; done.
Qed.

Lemma scanArt_quiet currPath info folder st :
  quiet d st -> art_indexed d currPath info = true ->
  quiet d (scanArt env currPath info folder st).2.
Proof.
  intros Hq Hidx. pose proof (quiet_lookups st Hq) as (_ & _ & _ & _ & La).
  unfold scanArt, bind, store, Return, modify, Art_Load, Art_Save, invoke.
  rewrite !(loads_pass (LoadArt _)) by reflexivity. simpl.
  change (artAt (record_call ?c ?x) ?p) with (artAt x p). rewrite La.
  fold (logged (LoadArt currPath) st).
  assert (quiet d (logged (LoadArt currPath) st)) as Hq1 by (by apply quiet_logged).
  unfold art_indexed in Hidx. apply orb_true_iff in Hidx as [Hz|Ha].
  - destruct (artAt d currPath); simpl; [done|]. by rewrite Hz.
  - apply bool_decide_eq_true in Ha as [a ->]. done.
Qed.

Lemma resolveArtist_quiet title artist st :
  quiet d st -> artistNamed d title = Some artist ->
  let out := resolveArtist env (Artist.mk 0 title) st in
  quiet d out.2 /\ out.1 = inl artist.
Proof.
  intros Hq Hidx. pose proof (quiet_lookups st Hq) as (_ & Lr & _).
  pose proof Hq as (Hr & Hj & Hn & Hf & Hfc & Hac).
  unfold resolveArtist, bind, gets, store, ret, modify, Artist_Load, Artist_Save, invoke.
  rewrite !(loads_pass (LoadArtist _)) by reflexivity. simpl.
  destruct (artistCache st !! title) as [a|] eqn:Hc; simpl.
  { split; [done|]. apply Hac in Hc. congruence. }
  change (artistNamed (record_call ?c ?x) ?p) with (artistNamed x p). rewrite Lr, Hidx. simpl.
  split; [|done]. by apply (quiet_logged (LoadArtist title)).
Qed.

Lemma resolveAlbum_quiet album stored st :
  quiet d st -> albumOf d (Album.ArtistID album) (Album.Title album) = Some stored ->
  let out := resolveAlbum env album st in
  quiet d out.2 /\ exists a, out.1 = inl a.
Proof.
  intros Hq Hidx. pose proof (quiet_lookups st Hq) as (_ & _ & Ll & _).
  unfold resolveAlbum, bind, gets, store, ret, modify, Album_Load, Album_Save, invoke.
  rewrite !(loads_pass (LoadAlbum _ _)) by reflexivity. simpl.
  destruct (albumCache st !! albumCacheKey album) as [a|] eqn:Hc; simpl.
  { split; [done|]. by exists a. }
  change (albumOf (record_call ?c ?x) ?p ?q) with (albumOf x p q). rewrite Ll, Hidx. simpl.
  split; [|by eexists]. by apply (quiet_logged (LoadAlbum _ _)).
Qed.

Lemma reconcileSong_quiet song stored st :
  quiet d st -> songAt d (Song.FileName song) = Some stored ->
  Song.LastModified song <= Song.LastModified stored ->
  quiet d (reconcileSong env song st).2.
Proof.
  intros Hq Hidx Hold. pose proof (quiet_lookups st Hq) as (_ & _ & _ & Ls & _).
  unfold reconcileSong, bind, store, ret, modify, Song_Load, Song_Save, Song_Update, invoke.
  rewrite !(loads_pass (LoadSong _)) by reflexivity. simpl.
  change (songAt (record_call ?c ?x) ?p) with (songAt x p). rewrite Ls, Hidx. simpl.
  destruct (Song.LastModified song >? Song.LastModified stored) eqn:Hnew.
  - rewrite Z.gtb_ltb in Hnew. apply Z.ltb_lt in Hnew. lia.
  - simpl. by apply (quiet_logged (LoadSong _)).
Qed.
End Quiet.

Section QuietScan.
Variable env : Env.
Variable d : DB.
Hypothesis loads_pass : forall c, is_load c = true -> faults env c = None.

Lemma indexSong_quiet song artist album stored st :
  quiet d st ->
  artistNamed d (Song.Artist song) = Some artist ->
  albumOf d (Artist.ID artist) (Song.Album song) = Some album ->
  songAt d (Song.FileName song) = Some stored ->
  Song.LastModified song <= Song.LastModified stored ->
  quiet d (indexSong env song st).2.
Proof.
  intros Hq Hartist Halbum Hsong Hold.
  destruct (indexSong_run env song st) as (a1 & st1 & a2 & st2 & E1 & E2 & ->). simpl.
  destruct (resolveArtist_quiet env d loads_pass (Song.Artist song) artist st Hq Hartist)
    as [Hq1 Ha1].
  unfold ArtistFromSong in E1. rewrite E1 in Hq1, Ha1. simpl in Hq1, Ha1.
  injection Ha1 as ->.
  assert (quiet d (cacheArtist artist st1)) as Hq1'.
  { apply quiet_cacheArtist; [|done]. by rewrite (artistNamed_title d _ _ Hartist). }
  destruct (resolveAlbum_quiet env d loads_pass
              (Album.withArtistID (Artist.ID artist) (AlbumFromSong song)) album
              (cacheArtist artist st1) Hq1' Halbum) as [Hq2 _].
  rewrite E2 in Hq2. simpl in Hq2.
  apply (reconcileSong_quiet env d loads_pass _ stored); [|done|done].
  by apply quiet_cacheAlbum.
Qed.

Lemma scanSong_quiet currPath info folder st :
  quiet d st -> song_indexed env d currPath info = true ->
  quiet d (scanSong env currPath info folder st).2.
Proof.
  intros Hq Hidx. unfold song_indexed in Hidx. unfold scanSong, SongFromFile.
  destruct (taglib_Read env currPath) as [file|e]; [|done].
  destruct (songTagsError env file); [done|].
  cbn [Song.FileSize Song.withFile].
  destruct (FileTypeMap env !! path_Ext (Name info)) as [fileType|];
    destruct (Size info =? 0) eqn:Hsize; try done.
  simpl in Hidx.
  destruct (artistNamed d (tagArtist file)) as [artist|] eqn:Hartist; [|done].
  destruct (albumOf d (Artist.ID artist) (tagAlbum file)) as [album|] eqn:Halbum; [|done].
  destruct (songAt d currPath) as [stored|] eqn:Hsong; [|done].
  apply Z.leb_le in Hidx.
  by apply (indexSong_quiet _ artist album stored).
Qed.

Lemma walkFn_quiet i currPath info st r st' :
  item_indexed env d (currPath, info) = true ->
  quiet d st -> run (walkFn env i currPath info) st = (r, st') -> quiet d st'.
Proof.
  intros Hidx Hq. unfold walkFn.
  destruct (haltWalk env i); [by intros [= _ <-]|].
  destruct info as [info|]; [|by intros [= _ <-]].
  unfold run, bind at 1. simpl in Hidx.
  destruct (resolveFolder_quiet env d loads_pass currPath info st Hq) as [Hq1 Hf].
  { intros Hnone. rewrite Hnone in Hidx. by apply negb_true_iff in Hidx. }
  destruct (resolveFolder env currPath info st) as [[folder|r1] st1]; simpl in Hq1, Hf.
  2:{ by intros [= _ <-]. }
  specialize (Hf folder eq_refl). rewrite Hf in Hidx.
  unfold bind at 1, modify at 1.
  assert (quiet d (cacheFolder folder st1)) as Hq2.
  { apply quiet_cacheFolder; [|done]. by rewrite (folderAt_path d _ _ Hf). }
  destruct (Has (artSet env) (path_Ext currPath)).
  - rewrite andb_false_r.
    pose proof (scanArt_quiet env d loads_pass currPath info folder _ Hq2 Hidx) as Hq3.
    destruct (scanArt env currPath info folder (cacheFolder folder st1)) as [[[]|r2] st2].
    all: by intros [= _ <-].
  - rewrite andb_true_r. destruct (Has (mediaSet env) (path_Ext currPath)); cbn [negb].
    2:{ by intros [= _ <-]. }
    pose proof (scanSong_quiet currPath info folder _ Hq2 Hidx) as Hq3.
    destruct (scanSong env currPath info folder (cacheFolder folder st1)) as [[[]|r2] st2].
    all: by intros [= _ <-].
Qed.

End QuietScan.

(** C3, as the specification words it, fails: the tree is the one the
    first scan has indexed, unchanged, and the store reflects every item
    of it; the store fails the load of the song, otherwise than by
    not-found, and the second scan takes the song for a stored one older
    than the file: it calls for an update and returns the count one. *)
Lemma failed_load_counts_update :
  let d := (MediaScan Library.env "/music" emptyDB).2 in
  Walk Locked.env "/music" = Walk Library.env "/music" /\
  (forall item, In item (Walk Locked.env "/music") -> item_indexed Locked.env d item = true) /\
  Flaky.locked <> ErrNoRows /\
  let '(r, d') := MediaScan Locked.env "/music" d in
  r = (1, None) /\
  length (journal d') = (length (journal d) + 8)%nat /\
  exists s, last (journal d') = Some (UpdateSong s) /\ Song.ID s = 0.
Proof.
  intros d. split; [reflexivity|]. split.
  { intros item Hin. vm_compute in Hin.
    repeat (destruct Hin as [<-|Hin]; [vm_compute; reflexivity|]). destruct Hin. }
  split; [discriminate|].
  vm_compute. do 2 (split; [reflexivity|]). eexists. split; reflexivity.
Qed.


(** ** The first scan of a tree makes the store reflect it *)

Lemma before_sep_digits d t :
  before_sep (String.append (NilEmpty.string_of_uint d) (String "_" t))
  = NilEmpty.string_of_uint d.
Proof. induction d; simpl; congruence. Qed.

Lemma after_sep_digits d t :
  after_sep (String.append (NilEmpty.string_of_uint d) (String "_" t)) = t.
Proof. induction d; simpl; congruence. Qed.

Lemma before_sep_Itoa a t :
  before_sep (String.append (Itoa a) (String.append "_" t)) = Itoa a.
Proof.
  change (String.append "_" t) with (String "_" t).
  unfold Itoa, NilZero.string_of_int, NilZero.string_of_uint.
  destruct (Z.to_int a) as [u|u]; destruct u; simpl; try reflexivity;
    by rewrite before_sep_digits.
Qed.

Lemma after_sep_Itoa a t :
  after_sep (String.append (Itoa a) (String.append "_" t)) = t.
Proof.
  change (String.append "_" t) with (String "_" t).
  unfold Itoa, NilZero.string_of_int, NilZero.string_of_uint.
  destruct (Z.to_int a) as [u|u]; destruct u; simpl; try reflexivity;
    by rewrite after_sep_digits.
Qed.

Lemma Itoa_inj a b : Itoa a = Itoa b -> a = b.
Proof.
  unfold Itoa. intros H. apply DecimalZ.to_int_inj.
  assert (forall z, NilZero.int_of_string (NilZero.string_of_int (Z.to_int z)) = Some (Z.to_int z))
    as Hparse.
  { intros z. apply NilZero.isi; destruct z; simpl; try discriminate.
    - intros [= E]. by apply DecimalPos.Unsigned.to_uint_nonnil in E.
    - intros [= E]. by apply DecimalPos.Unsigned.to_uint_nonnil in E. }
  pose proof (Hparse a) as Ha. rewrite H, Hparse in Ha. by injection Ha.
Qed.

(** The key of the album cache tells the albums apart. *)
Lemma albumCacheKey_inj al al' :
  albumCacheKey al = albumCacheKey al' ->
  Album.ArtistID al = Album.ArtistID al' /\ Album.Title al = Album.Title al'.
Proof.
  unfold albumCacheKey. intros H. split.
  - apply Itoa_inj. apply (f_equal before_sep) in H.
    by rewrite !before_sep_Itoa in H.
  - apply (f_equal after_sep) in H. by rewrite !after_sep_Itoa in H.
Qed.

Lemma find_app_Some {A : Type} (P : A -> bool) l l' x :
  find P l = Some x -> find P (l ++ l') = Some x.
Proof. induction l as [|y l IH]; simpl; [done|]. destruct (P y); [done|apply IH]. Qed.

Lemma find_app_None {A : Type} (P : A -> bool) l l' :
  find P l = None -> find P (l ++ l') = find P l'.
Proof. induction l as [|y l IH]; simpl; [done|]. destruct (P y); [done|apply IH]. Qed.

Section Grows.
Variable env : Env.

Lemma grows_tables d d' lf la lb lc :
  folders d' = folders d ++ lf -> artists d' = artists d ++ la ->
  albums d' = albums d ++ lb -> art d' = art d ++ lc -> songs d' = songs d ->
  (forall f, In f lf -> holds_items env (Folder.Path f) = true) ->
  grows env d d'.
Proof.
  intros Hf Ha Hb Hc Hs Hh. unfold grows. repeat split; eauto.
  intros p s Hp. exists s. unfold songAt in *. rewrite Hs. split; [done|lia].
Qed.

Lemma grows_refl d : grows env d d.
Proof. apply (grows_tables d d [] [] [] []); rewrite ?app_nil_r; try done; by intros ? []. Qed.

Lemma grows_trans d1 d2 d3 : grows env d1 d2 -> grows env d2 d3 -> grows env d1 d3.
Proof.
  intros ((lf & Hf & Hh) & (la & Ha) & (lb & Hb) & (lc & Hc) & Hs)
         ((lf' & Hf' & Hh') & (la' & Ha') & (lb' & Hb') & (lc' & Hc') & Hs').
  unfold grows. repeat split.
  - exists (lf ++ lf'). rewrite Hf', Hf, app_assoc. split; [done|].
    intros f [?|?]%in_app_or; auto.
  - exists (la ++ la'). by rewrite Ha', Ha, app_assoc.
  - exists (lb ++ lb'). by rewrite Hb', Hb, app_assoc.
  - exists (lc ++ lc'). by rewrite Hc', Hc, app_assoc.
  - intros p s Hp. destruct (Hs p s Hp) as (s1 & H1 & L1).
    destruct (Hs' p s1 H1) as (s2 & H2 & L2). exists s2. split; [done|lia].
Qed.

Lemma grows_logged c d : grows env d (record_call c d).
Proof. apply (grows_tables _ _ [] [] [] []); rewrite ?app_nil_r; try done; by intros ? []. Qed.

Lemma grows_folderAt d d' p f :
  grows env d d' -> folderAt d p = Some f -> folderAt d' p = Some f.
Proof. intros ((l & Hl & _) & _). unfold folderAt. rewrite Hl. apply find_app_Some. Qed.

Lemma grows_folderAt_None d d' p :
  grows env d d' -> folderAt d p = None -> holds_items env p = false -> folderAt d' p = None.
Proof.
  intros ((l & Hl & Hh) & _) Hnone Hempty. unfold folderAt in *. rewrite Hl.
  rewrite find_app_None by done.
  destruct (find _ l) as [f|] eqn:E; [|done].
  apply find_some in E as [Hin Hp%String.eqb_eq]. apply Hh in Hin. congruence.
Qed.

Lemma grows_artistNamed d d' t a :
  grows env d d' -> artistNamed d t = Some a -> artistNamed d' t = Some a.
Proof. intros (_ & (l & Hl) & _). unfold artistNamed. rewrite Hl. apply find_app_Some. Qed.

Lemma grows_albumOf d d' a t al :
  grows env d d' -> albumOf d a t = Some al -> albumOf d' a t = Some al.
Proof. intros (_ & _ & (l & Hl) & _). unfold albumOf. rewrite Hl. apply find_app_Some. Qed.

Lemma grows_artAt d d' p a :
  grows env d d' -> artAt d p = Some a -> artAt d' p = Some a.
Proof. intros (_ & _ & _ & (l & Hl) & _). unfold artAt. rewrite Hl. apply find_app_Some. Qed.

(** What the store reflects, it still reflects once it has grown. *)
Lemma grows_indexed d d' item :
  grows env d d' -> item_indexed env d item = true -> item_indexed env d' item = true.
Proof.
  intros Hg. destruct item as [currPath [info|]]; [|done]. simpl.
  destruct (folderAt d (folderPath currPath info)) as [f|] eqn:Hf.
  2:{ intros Hh%negb_true_iff. by rewrite (grows_folderAt_None d d' _ Hg Hf Hh), Hh. }
  rewrite (grows_folderAt d d' _ _ Hg Hf).
  destruct (Has (artSet env) (path_Ext currPath)).
  { unfold art_indexed. intros [Hz|Ha]%orb_true_iff; apply orb_true_iff; [by left|right].
    apply bool_decide_eq_true in Ha as [a Ha]. apply bool_decide_eq_true.
    rewrite (grows_artAt d d' _ _ Hg Ha). by eexists. }
  destruct (Has (mediaSet env) (path_Ext currPath)); [|done].
  unfold song_indexed. destruct (taglib_Read env currPath) as [file|]; [|done].
  destruct (songTagsError env file); [done|].
  destruct (FileTypeMap env !! path_Ext (Name info)); [|done].
  intros [Hz|Hs]%orb_true_iff; apply orb_true_iff; [by left|right].
  destruct (artistNamed d (tagArtist file)) as [artist|] eqn:Ha; [|done].
  rewrite (grows_artistNamed d d' _ _ Hg Ha).
  destruct (albumOf d (Artist.ID artist) (tagAlbum file)) as [album|] eqn:Hb; [|done].
  rewrite (grows_albumOf d d' _ _ _ Hg Hb).
  destruct (songAt d currPath) as [song|] eqn:Hsong; [|done].
  destruct Hg as (_ & _ & _ & _ & Hsongs).
  destruct (Hsongs _ _ Hsong) as (song' & -> & Hle).
  apply Z.leb_le in Hs. apply Z.leb_le. lia.
Qed.

(** The caches of a coherent state stay right while the store grows. *)
Lemma coherent_grows st st' :
  coherent st -> grows env (db st) (db st') ->
  folderCache st' = folderCache st -> artistCache st' = artistCache st ->
  albumCache st' = albumCache st ->
  List.NoDup (map Song.ID (songs (db st'))) ->
  coherent st'.
Proof.
  intros (Hf & Ha & Hb & _) Hg Ef Ea Eb Hnd. unfold coherent. rewrite Ef, Ea, Eb.
  repeat split; try done.
  - intros p f Hp. eapply grows_folderAt; eauto.
  - intros t a Ht. eapply grows_artistNamed; eauto.
  - intros al al' Hk. eapply grows_albumOf; eauto.
Qed.
End Grows.

Lemma find_map_keeps {A : Type} (P : A -> bool) (f : A -> A) l :
  (forall x, In x l -> P (f x) = P x) -> find P (map f l) = option_map f (find P l).
Proof.
  induction l as [|y l IH]; simpl; intros H; [done|].
  rewrite (H y) by (by left). destruct (P y); [done|]. apply IH. intros; apply H. by right.
Qed.

(** Writing a song over the stored song of its identity and of its path,
    no newer than it, in a table of distinct identities. *)
Lemma songs_rewritten env d d' (stored new : Song.t) :
  List.NoDup (map Song.ID (songs d)) -> In stored (songs d) ->
  Song.FileName new = Song.FileName stored ->
  Song.LastModified stored <= Song.LastModified new ->
  folders d' = folders d -> artists d' = artists d -> albums d' = albums d -> art d' = art d ->
  songs d' = map (fun x => if Song.ID x =? Song.ID stored then new else x) (songs d) ->
  grows env d d' /\
  forall p s, songAt d p = Some s ->
    songAt d' p = Some (if Song.ID s =? Song.ID stored then new else s).
Proof.
  intros Hnd Hin Hname Hle Hf Ha Hb Hc Hs.
  assert (forall p s, songAt d p = Some s ->
    songAt d' p = Some (if Song.ID s =? Song.ID stored then new else s)) as Hat.
  { intros p s Hp. unfold songAt in *. rewrite Hs, find_map_keeps, Hp; [done|].
    intros x Hx. destruct (Song.ID x =? Song.ID stored) eqn:E; [|done].
    apply Z.eqb_eq in E. rewrite (NoDup_map_inj Song.ID (songs d) x stored); try done.
    by rewrite Hname. }
  split; [|done]. unfold grows. rewrite Hf, Ha, Hb, Hc. repeat split.
  - exists []. rewrite app_nil_r. split; [done|by intros ? []].
  - exists []. by rewrite app_nil_r.
  - exists []. by rewrite app_nil_r.
  - exists []. by rewrite app_nil_r.
  - intros p s Hp. eexists. split; [by apply Hat|].
    destruct (Song.ID s =? Song.ID stored) eqn:E; [|lia].
    apply Z.eqb_eq in E. apply find_some in Hp as [Hp _].
    rewrite (NoDup_map_inj Song.ID (songs d) s stored); try done. 
Qed.

Lemma NoDup_rewritten (stored new : Song.t) l :
  Song.ID new = Song.ID stored ->
  map Song.ID (map (fun x => if Song.ID x =? Song.ID stored then new else x) l) = map Song.ID l.
Proof.
  intros Hid. rewrite map_map. apply map_ext. intros y.
  destruct (Song.ID y =? Song.ID stored) eqn:E; [|done]. apply Z.eqb_eq in E. congruence.
Qed.

Section FirstScan.
Variable env : Env.
Hypothesis no_fault : faults env = no_faults.

Lemma resolveFolder_first currPath info st :
  coherent st ->
  let out := resolveFolder env currPath info st in
  grows env (db st) (db out.2) /\
  match out.1 with
  | inl f => folderAt (db out.2) (folderPath currPath info) = Some f
  | inr None =>
      folderAt (db out.2) (folderPath currPath info) = None /\
      holds_items env (folderPath currPath info) = false
  | inr (Some _) => True
  end.
Proof.
  intros (Hfc & _).
  unfold resolveFolder, bind, gets, store, ret, Return, modify, Folder_Load, Folder_Save, invoke.
  rewrite no_fault. unfold no_faults.
  change (Folder.Path (Folder.withPath ?p Folder.new)) with p.
  fold (folderPath currPath info). fold (parentPath currPath info).
  destruct (folderCache st !! folderPath currPath info) as [f|] eqn:Hc; simpl.
  { split; [apply grows_refl|by apply Hfc]. }
  change (folderAt (record_call ?c ?x) ?p) with (folderAt x p).
  destruct (folderAt (db st) (folderPath currPath info)) as [f|] eqn:Hat; simpl.
  { split; [apply grows_logged|done]. }
  unfold holds_items.
  destruct (ReadDir env (folderPath currPath info)) as [[|x l]|e] eqn:Hread; simpl.
  - split; [apply grows_logged|done].
  - change (folderAt (record_call ?c ?x) ?p) with (folderAt x p).
    destruct (folderAt (db st) (parentPath currPath info)) as [pf|]; simpl.
    all: split;
      [eapply (grows_tables env _ _ [_] [] [] []); simpl; rewrite ?app_nil_r; try done;
       intros ? [<-|[]]; simpl; unfold holds_items; by rewrite Hread
      |unfold folderAt in *; simpl; rewrite find_app_None by done; simpl;
       by rewrite String.eqb_refl].
  - split; [apply grows_logged|done].
Qed.

Lemma scanArt_first currPath info folder st :
  let out := scanArt env currPath info folder st in
  grows env (db st) (db out.2) /\ art_indexed (db out.2) currPath info = true.
Proof.
  unfold scanArt, bind, store, Return, modify, Art_Load, Art_Save, invoke.
  rewrite no_fault. unfold no_faults, art_indexed. simpl.
  change (artAt (record_call ?c ?x) ?p) with (artAt x p).
  destruct (artAt (db st) currPath) as [a|] eqn:Hat; simpl.
  { split; [apply grows_logged|]. apply orb_true_iff. right.
    apply bool_decide_eq_true. unfold artAt in *. simpl. rewrite Hat. by eexists. }
  destruct (Size info =? 0) eqn:Hz; simpl.
  { split; [apply grows_logged|done]. }
  split.
  - eapply (grows_tables env _ _ [] [] [] [_]); simpl; rewrite ?app_nil_r; try done.
  - apply bool_decide_eq_true. unfold artAt in *. simpl.
    rewrite find_app_None by done. simpl. rewrite String.eqb_refl. by eexists.
Qed.

Lemma resolveArtist_first title st :
  coherent st ->
  let out := resolveArtist env (Artist.mk 0 title) st in
  grows env (db st) (db out.2) /\
  exists a, out.1 = inl a /\ artistNamed (db out.2) title = Some a.
Proof.
  intros (_ & Hac & _).
  unfold resolveArtist, bind, gets, store, ret, modify, Artist_Load, Artist_Save, invoke.
  rewrite no_fault. unfold no_faults. simpl.
  destruct (artistCache st !! title) as [a|] eqn:Hc; simpl.
  { split; [apply grows_refl|]. exists a. split; [done|by apply Hac]. }
  change (artistNamed (record_call ?c ?x) ?p) with (artistNamed x p).
  destruct (artistNamed (db st) title) as [a|] eqn:Hat; simpl.
  { split; [apply grows_logged|]. by exists a. }
  split.
  - eapply (grows_tables env _ _ [] [_] [] []); simpl; rewrite ?app_nil_r; try done.
  - eexists. split; [done|]. unfold artistNamed in *. simpl.
    rewrite find_app_None by done. simpl. by rewrite String.eqb_refl.
Qed.

Lemma resolveAlbum_first album st :
  coherent st ->
  let out := resolveAlbum env album st in
  grows env (db st) (db out.2) /\
  exists a, out.1 = inl a /\
    albumOf (db out.2) (Album.ArtistID album) (Album.Title album) = Some a.
Proof.
  intros (_ & _ & Hbc & _).
  unfold resolveAlbum, bind, gets, store, ret, modify, Album_Load, Album_Save, invoke.
  rewrite no_fault. unfold no_faults. simpl.
  destruct (albumCache st !! albumCacheKey album) as [a|] eqn:Hc; simpl.
  { split; [apply grows_refl|]. exists a. split; [done|by apply Hbc]. }
  change (albumOf (record_call ?c ?x) ?p ?q) with (albumOf x p q).
  destruct (albumOf (db st) (Album.ArtistID album) (Album.Title album)) as [a|] eqn:Hat; simpl.
  { split; [apply grows_logged|]. by exists a. }
  split.
  - eapply (grows_tables env _ _ [] [] [_] []); simpl; rewrite ?app_nil_r; try done.
  - eexists. split; [done|]. unfold albumOf in *. simpl.
    rewrite find_app_None by done. simpl. by rewrite Z.eqb_refl, String.eqb_refl.
Qed.

Lemma reconcileSong_first song st :
  coherent st ->
  let out := reconcileSong env song st in
  grows env (db st) (db out.2) /\
  List.NoDup (map Song.ID (songs (db out.2))) /\
  exists s, songAt (db out.2) (Song.FileName song) = Some s /\
            Song.LastModified song <= Song.LastModified s.
Proof.
  intros (_ & _ & _ & Hnd).
  unfold reconcileSong, bind, store, ret, modify, Song_Load, Song_Save, Song_Update, invoke.
  rewrite no_fault. unfold no_faults. simpl.
  change (songAt (record_call ?c ?x) ?p) with (songAt x p).
  destruct (songAt (db st) (Song.FileName song)) as [stored|] eqn:Hat; simpl.
  - destruct (Song.LastModified song >? Song.LastModified stored) eqn:Hnew; simpl.
    + rewrite Z.gtb_ltb in Hnew. apply Z.ltb_lt in Hnew.
      pose proof Hat as Hin. apply find_some in Hin as [Hin Hname%String.eqb_eq].
      destruct (songs_rewritten env (db st)
        (set_songs (map (fun x => if Song.ID x =? Song.ID stored
                                  then Song.withID (Song.ID stored) song else x)
                        (songs (db st)))
           (record_call (UpdateSong (Song.withID (Song.ID stored) song))
              (record_call (LoadSong (Song.FileName song)) (db st))))
        stored (Song.withID (Song.ID stored) song)) as [Hg Hsongs]; try done.
      { simpl. lia. }
      split; [done|]. split; [simpl; by rewrite NoDup_rewritten|].
      rewrite (Hsongs _ _ Hat), Z.eqb_refl. eexists. split; [done|]. simpl. lia.
    + rewrite Z.gtb_ltb in Hnew. apply Z.ltb_ge in Hnew.
      split; [apply grows_logged|]. split; [done|]. exists stored. split; [|done].
      unfold songAt in *. simpl. done.
  - split; [|split].
    + unfold grows. simpl.
      split; [exists []; rewrite app_nil_r; split; [done|by intros ? []]|].
      do 3 (split; [exists []; by rewrite app_nil_r|]).
      intros p s Hp. exists s. unfold songAt in *. simpl.
      split; [by apply find_app_Some|lia].
    + simpl. rewrite List.map_app. simpl.
      apply List.NoDup_app; [done|repeat constructor; by intros []|].
      intros x Hx [<-|[]]. by apply nextID_fresh in Hx.
    + eexists. unfold songAt in *. simpl. rewrite find_app_None by done. simpl.
      rewrite String.eqb_refl. split; [done|]. simpl. lia.
Qed.
End FirstScan.

Section FirstScanVisit.
Variable env : Env.
Hypothesis no_fault : faults env = no_faults.

Lemma coherent_cacheFolder f st :
  coherent st -> folderAt (db st) (Folder.Path f) = Some f -> coherent (cacheFolder f st).
Proof.
  intros (Hf & Ha & Hb & Hnd) Hat. repeat split; try done.
  intros p f'. simpl. destruct (decide (Folder.Path f = p)) as [<-|Hne].
  - rewrite lookup_insert_eq. by intros [= <-].
  - rewrite lookup_insert_ne by done. apply Hf.
Qed.

Lemma coherent_cacheArtist a st :
  coherent st -> artistNamed (db st) (Artist.Title a) = Some a -> coherent (cacheArtist a st).
Proof.
  intros (Hf & Ha & Hb & Hnd) Hat. repeat split; try done.
  intros t a'. simpl. destruct (decide (Artist.Title a = t)) as [<-|Hne].
  - rewrite lookup_insert_eq. by intros [= <-].
  - rewrite lookup_insert_ne by done. apply Ha.
Qed.

Lemma coherent_cacheAlbum album a st :
  coherent st ->
  albumOf (db st) (Album.ArtistID album) (Album.Title album) = Some a ->
  coherent (cacheAlbum (albumCacheKey album) a st).
Proof.
  intros (Hf & Ha & Hb & Hnd) Hat. repeat split; try done.
  intros al al'. simpl. destruct (decide (albumCacheKey album = albumCacheKey al)) as [E|Hne].
  - rewrite E, lookup_insert_eq. intros [= <-].
    apply albumCacheKey_inj in E as [<- <-]. done.
  - rewrite lookup_insert_ne by done. apply Hb.
Qed.

Lemma indexSong_first song st :
  coherent st ->
  let out := indexSong env song st in
  coherent out.2 /\ grows env (db st) (db out.2) /\
  exists artist album s,
    artistNamed (db out.2) (Song.Artist song) = Some artist /\
    albumOf (db out.2) (Artist.ID artist) (Song.Album song) = Some album /\
    songAt (db out.2) (Song.FileName song) = Some s /\
    Song.LastModified song <= Song.LastModified s.
Proof.
  intros Hc.
  destruct (indexSong_run env song st) as (artist & st1 & album & st2 & E1 & E2 & ->). simpl.
  (* the artist *)
  destruct (resolveArtist_first env no_fault (Song.Artist song) st Hc) as (G1 & a & Ea & Hartist).
  pose proof (resolveArtist_frame env (ArtistFromSong song) st) as F1.
  unfold ArtistFromSong in E1, F1. rewrite E1 in G1, Ea, Hartist, F1. simpl in G1, Ea, Hartist.
  injection Ea as <-.
  assert (coherent st1) as Hc1.
  { frame_split. apply (coherent_grows env st); try done. destruct Hc as (_ & _ & _ & Hnd).
    congruence. }
  assert (coherent (cacheArtist artist st1)) as Hc1'.
  { apply coherent_cacheArtist; [done|].
    unfold artistNamed in Hartist. pose proof Hartist as Ht.
    apply find_some in Ht as [_ Ht%String.eqb_eq]. by rewrite Ht. }
  (* the album *)
  set (album0 := Album.withArtistID (Artist.ID artist) (AlbumFromSong song)) in *.
  destruct (resolveAlbum_first env no_fault album0 (cacheArtist artist st1) Hc1')
    as (G2 & b & Eb & Halbum).
  pose proof (resolveAlbum_frame env album0 (cacheArtist artist st1)) as F2.
  rewrite E2 in G2, Eb, Halbum, F2. simpl in G2, Eb, Halbum. injection Eb as <-.
  assert (coherent st2) as Hc2.
  { frame_split. apply (coherent_grows env (cacheArtist artist st1)); try done.
    destruct Hc1' as (_ & _ & _ & Hnd). simpl in Hnd. congruence. }
  assert (coherent (cacheAlbum (albumCacheKey album0) album st2)) as Hc2'
    by (by apply coherent_cacheAlbum).
  (* the song *)
  set (song' := Song.withIDs (Artist.ID artist) (Album.ID album) song).
  destruct (reconcileSong_first env no_fault song' _ Hc2') as (G3 & Hnd3 & s & Hs & Hle).
  pose proof (reconcileSong_frame env song' (cacheAlbum (albumCacheKey album0) album st2)) as F3.
  set (st3 := (reconcileSong env song' (cacheAlbum (albumCacheKey album0) album st2)).2) in *.
  assert (grows env (db st) (db st3)) as G.
  { eapply grows_trans; [exact G1|]. eapply grows_trans; [exact G2|exact G3]. }
  split; [|split; [done|]].
  - frame_split. apply (coherent_grows env (cacheAlbum (albumCacheKey album0) album st2));
      try done.
  - exists artist, album, s. repeat split; try done.
    + eapply grows_artistNamed; [|exact Hartist]. eapply grows_trans; [exact G2|exact G3].
    + eapply grows_albumOf; [exact G3|exact Halbum].
Qed.

Lemma scanSong_first currPath info folder st :
  coherent st ->
  let out := scanSong env currPath info folder st in
  coherent out.2 /\ grows env (db st) (db out.2) /\
  ((forall e, out.1 <> inr (Some e)) -> song_indexed env (db out.2) currPath info = true).
Proof.
  intros Hc. unfold scanSong, SongFromFile, song_indexed.
  destruct (taglib_Read env currPath) as [file|e].
  2:{ split; [done|]. split; [apply grows_refl|]. intros H. by destruct (H _ eq_refl). }
  destruct (songTagsError env file).
  { split; [done|]. split; [apply grows_refl|]. intros H. by destruct (H _ eq_refl). }
  cbn [Song.FileSize Song.withFile].
  destruct (Size info =? 0) eqn:Hsize.
  { split; [done|]. split; [apply grows_refl|]. intros _.
    by destruct (FileTypeMap env !! path_Ext (Name info)). }
  destruct (FileTypeMap env !! path_Ext (Name info)) as [fileType|].
  2:{ split; [done|]. split; [apply grows_refl|]. intros H. by destruct (H _ eq_refl). }
  set (song := Song.withFileTypeID fileType _).
  destruct (indexSong_first song st Hc) as (Hc' & G & artist & album & s & Ha & Hb & Hs & Hle).
  split; [done|]. split; [done|]. intros _. simpl.
  subst song. simpl in Ha, Hb, Hs, Hle. rewrite Ha, Hb, Hs. by apply Z.leb_le.
Qed.

(** One call of the callback on a store that fails no call: the state
    stays coherent, the store grows, and when the callback returns nil the
    store reflects the item. *)
Lemma walkFn_first i currPath info st r st' :
  coherent st -> run (walkFn env i currPath info) st = (r, st') ->
  coherent st' /\ grows env (db st) (db st') /\
  (r = None -> item_indexed env (db st') (currPath, info) = true).
Proof.
  intros Hc. unfold walkFn.
  destruct (haltWalk env i); [intros [= <- <-]; by split; [|split; [apply grows_refl|]]|].
  destruct info as [info|]; [|intros [= <- <-]; by split; [|split; [apply grows_refl|]]].
  unfold run, bind at 1.
  destruct (resolveFolder_first env no_fault currPath info st Hc) as [G1 Hf].
  pose proof (resolveFolder_frame env currPath info st) as F1.
  destruct (resolveFolder env currPath info st) as [[folder|r1] st1]; simpl in G1, Hf, F1.
  2:{ intros [= <- <-]. split; [|split; [done|]].
      - frame_split. apply (coherent_grows env st); try done.
        destruct Hc as (_ & _ & _ & Hnd). congruence.
      - intros ->. simpl. destruct Hf as [-> ->]. done. }
  assert (coherent st1) as Hc1.
  { frame_split. apply (coherent_grows env st); try done.
    destruct Hc as (_ & _ & _ & Hnd). congruence. }
  assert (coherent (cacheFolder folder st1)) as Hc2.
  { apply coherent_cacheFolder; [done|].
    pose proof Hf as Hp. unfold folderAt in Hp.
    apply find_some in Hp as [_ Hp%String.eqb_eq]. by rewrite Hp. }
  unfold bind at 1, modify at 1. simpl item_indexed.
  destruct (Has (artSet env) (path_Ext currPath)) eqn:Hart.
  - rewrite andb_false_r.
    destruct (scanArt_first env no_fault currPath info folder (cacheFolder folder st1))
      as [G2 Hidx].
    pose proof (scanArt_frame env currPath info folder (cacheFolder folder st1)) as F2.
    destruct (scanArt env currPath info folder (cacheFolder folder st1)) as [o st2].
    simpl in G2, Hidx, F2.
    assert (st' = st2 -> coherent st' /\ grows env (db st) (db st') /\
            (r = None -> match folderAt (db st') (folderPath currPath info) with
                         | Some _ => art_indexed (db st') currPath info
                         | None => negb (holds_items env (folderPath currPath info))
                         end = true)) as Hgoal.
    { intros ->. split; [|split].
      - frame_split. apply (coherent_grows env (cacheFolder folder st1)); try done.
        destruct Hc2 as (_ & _ & _ & Hnd). simpl in Hnd. congruence.
      - by eapply grows_trans.
      - intros _. by rewrite (grows_folderAt env _ _ _ _ G2 Hf). }
    destruct o as [[]|r2]; intros [= _ <-]; by apply Hgoal.
  - rewrite andb_true_r.
    destruct (Has (mediaSet env) (path_Ext currPath)) eqn:Hmedia; cbn [negb].
    2:{ intros [= <- <-]. split; [done|]. split; [done|]. intros _. simpl.
        change (folderAt (db (cacheFolder folder st1))) with (folderAt (db st1)).
        by rewrite Hf. }
    destruct (scanSong_first currPath info folder (cacheFolder folder st1) Hc2)
      as (Hc3 & G2 & Hidx).
    destruct (scanSong env currPath info folder (cacheFolder folder st1)) as [o st2].
    simpl in Hc3, G2, Hidx.
    destruct o as [[]|r2]; intros [= <- <-].
    + split; [done|]. split; [by eapply grows_trans|]. intros _.
      rewrite (grows_folderAt env _ _ _ _ G2 Hf). by apply Hidx.
    + split; [done|]. split; [by eapply grows_trans|]. intros ->.
      rewrite (grows_folderAt env _ _ _ _ G2 Hf). by apply Hidx.
Qed.
End FirstScanVisit.

(** A table with the paths and the modification times of another, in the
    same order, answers a load by path with a song as recent. *)
Lemma find_same_keys (l l' : list Song.t) p s :
  map (fun x => (Song.FileName x, Song.LastModified x)) l'
  = map (fun x => (Song.FileName x, Song.LastModified x)) l ->
  find (fun x => String.eqb (Song.FileName x) p) l = Some s ->
  exists s', find (fun x => String.eqb (Song.FileName x) p) l' = Some s' /\
             Song.LastModified s' = Song.LastModified s.
Proof.
  revert l'. induction l as [|x l IH]; intros [|x' l']; simpl; try done.
  intros [= Hn Hm Hl]. rewrite Hn.
  destruct (String.eqb (Song.FileName x) p).
  - intros [= <-]. by exists x'.
  - by apply IH.
Qed.

Section FirstScanWalk.
Variable env : Env.
Hypothesis no_fault : faults env = no_faults.

(** The walk of a store that fails no call: when it ends without an
    error, the store reflects every item it visited. *)
Lemma walk_first items : forall i st st',
  coherent st -> walk env i items st = (None, st') ->
  coherent st' /\ grows env (db st) (db st') /\
  forall item, In item items -> item_indexed env (db st') item = true.
Proof.
  induction items as [|[currPath info] items IH]; simpl; intros i st st' Hc.
  - intros [= <-]. split; [done|]. split; [apply grows_refl|]. by intros ? [].
  - destruct (run (walkFn env i currPath info) st) as [[e|] st1] eqn:E; [done|].
    destruct (walkFn_first env no_fault _ _ _ _ _ _ Hc E) as (Hc1 & G1 & Hidx).
    intros Hw. destruct (IH _ _ _ Hc1 Hw) as (Hc' & G & Hrest).
    split; [done|]. split; [by eapply grows_trans|].
    intros item [<-|Hin]; [|by apply Hrest].
    apply (grows_indexed env (db st1)); [done|by apply Hidx].
Qed.

(** The updates of one pair keep the paths and the modification times
    of the table, when its songs of the identities updated have the
    path and the time of the update. *)
Lemma updateArt_keys l a : forall d r d',
  updateArt env l a d = (r, d') ->
  (forall s x, In s l -> In x (songs d) -> Song.ID x = Song.ID s ->
     Song.FileName x = Song.FileName s /\ Song.LastModified x = Song.LastModified s) ->
  map (fun x => (Song.FileName x, Song.LastModified x)) (songs d')
  = map (fun x => (Song.FileName x, Song.LastModified x)) (songs d).
Proof.
  induction l as [|s l IH]; simpl; intros d r d' H Hag.
  - by injection H as _ <-.
  - destruct (Song_Update (faults env) (Song.withArtID a s) d) as [[[]|e] d1] eqn:E;
      apply Song_Update_inv in E as (_ & _ & _ & _ & _ & Hs).
    2:{ injection H as _ <-. by rewrite Hs. }
    assert (map (fun x => (Song.FileName x, Song.LastModified x)) (songs d1)
            = map (fun x => (Song.FileName x, Song.LastModified x)) (songs d)) as Hk.
    { rewrite Hs, map_map. apply map_ext_in. intros x Hx. simpl.
      destruct (Song.ID x =? Song.ID s) eqn:Eid; [|done].
      apply Z.eqb_eq in Eid. simpl.
      destruct (Hag s x) as [-> ->]; auto. }
    rewrite <- Hk. apply (IH _ _ _ H).
    intros s2 x' Hs2 Hx' Hid. rewrite Hs in Hx'.
    apply in_map_iff in Hx' as (x & <- & Hx). simpl in Hid |- *.
    destruct (Song.ID x =? Song.ID s) eqn:Eid.
    + apply Z.eqb_eq in Eid. simpl in Hid |- *.
      destruct (Hag s x) as [<- <-]; auto.
      apply Hag; auto. congruence.
    + apply Hag; auto.
Qed.

Lemma associateArt_keys pairs : forall d r d',
  List.NoDup (map Song.ID (songs d)) ->
  associateArt env pairs d = (r, d') ->
  map (fun x => (Song.FileName x, Song.LastModified x)) (songs d')
  = map (fun x => (Song.FileName x, Song.LastModified x)) (songs d).
Proof.
  induction pairs as [|p pairs IH]; simpl; intros d r d' Hnd H.
  - by injection H as _ <-.
  - destruct (DB_SongsForFolder (faults env) (folderID p) d) as [[l|e] d0] eqn:E;
      apply query_inv in E as [-> Hl]; [|by injection H as _ <-].
    destruct (updateArt env l (artID p) _) as [o d1] eqn:E1.
    assert (map (fun x => (Song.FileName x, Song.LastModified x)) (songs d1)
            = map (fun x => (Song.FileName x, Song.LastModified x)) (songs d)) as Hk.
    { apply (updateArt_keys _ _ _ _ _ E1). simpl. intros s x Hs Hx Hid.
      rewrite (Hl l eq_refl) in Hs. simpl in Hs. apply filter_In in Hs as [Hs _].
      by rewrite (NoDup_map_inj Song.ID (songs d) x s). }
    destruct o as [e|]; [by injection H as _ <-|].
    rewrite <- Hk. apply (fun N => IH _ _ _ N H).
    apply updateArt_frame in E1 as (I1 & _). simpl in I1. by rewrite I1.
Qed.

Lemma associateArt_tables pairs : forall d r d',
  associateArt env pairs d = (r, d') ->
  folders d' = folders d /\ artists d' = artists d /\ albums d' = albums d /\ art d' = art d.
Proof.
  induction pairs as [|p pairs IH]; simpl; intros d r d' H.
  - by injection H as _ <-.
  - destruct (DB_SongsForFolder (faults env) (folderID p) d) as [[l|e] d0] eqn:E;
      apply query_inv in E as [-> _]; [|by injection H as _ <-].
    destruct (updateArt env l (artID p) _) as [o d1] eqn:E1.
    apply updateArt_frame in E1 as (_ & Hf & Ha & Hb & Hc & _). simpl in Hf, Ha, Hb, Hc.
    destruct o as [e|]; [by injection H as _ <-|].
    apply IH in H as (-> & -> & -> & ->). done.
Qed.

(** The deferred pass writes art identities only: the store it leaves
    has grown from the store the walk left. *)
Lemma associateArt_grows pairs d r d' :
  List.NoDup (map Song.ID (songs d)) ->
  associateArt env pairs d = (r, d') -> grows env d d'.
Proof.
  intros Hnd H. pose proof (associateArt_keys _ _ _ _ Hnd H) as Hk.
  pose proof (associateArt_tables _ _ _ _ H) as (Hf & Ha & Hb & Hc).
  unfold grows. rewrite Hf, Ha, Hb, Hc. repeat split.
  - exists []. rewrite app_nil_r. split; [done|by intros ? []].
  - exists []. by rewrite app_nil_r.
  - exists []. by rewrite app_nil_r.
  - exists []. by rewrite app_nil_r.
  - intros q s Hq. destruct (find_same_keys _ _ _ _ Hk Hq) as (s' & Hs' & Hle).
    exists s'. split; [done|lia].
Qed.
End FirstScanWalk.

(** X1.  A media scan of a store that fails no call and holds songs of
    distinct identities: when it returns no error, the store it leaves
    reflects every item of the walk, which is what the next scan of the
    same tree is given. *)
Theorem MediaScan_reflects_tree env root d n d' :
  faults env = no_faults ->
  List.NoDup (map Song.ID (songs d)) ->
  MediaScan env root d = ((n, None), d') ->
  (forall item, In item (Walk env root) -> item_indexed env d' item = true) /\
  List.NoDup (map Song.ID (songs d')).
Proof.
  intros no_fault Hnd H. apply MediaScan_inv in H as (st & Hw & Ha & _).
  assert (coherent (initState d)) as Hc.
  { repeat split; try done; simpl; intros ? ?; by rewrite lookup_empty. }
  destruct (walk_first env no_fault _ _ _ _ Hc Hw) as ((_ & _ & _ & Hnd') & _ & Hidx).
  split.
  - intros item Hin. apply (grows_indexed env (db st)); [|by apply Hidx].
    by apply (associateArt_grows env (artFiles st) _ None).
  - by rewrite (associateArt_ids env _ _ _ _ Ha).
Qed.

Lemma MediaScan_reflects_tree_witness :
  faults Library.env = no_faults /\
  List.NoDup (map Song.ID (songs emptyDB)) /\
  (forall item, In item (Walk Library.env "/music") ->
     item_indexed Library.env (MediaScan Library.env "/music" emptyDB).2 item = true) /\
  List.NoDup (map Song.ID (songs (MediaScan Library.env "/music" emptyDB).2)).
Proof.
  split; [reflexivity|]. split; [constructor|].
  apply (MediaScan_reflects_tree Library.env "/music" emptyDB
           (MediaScan Library.env "/music" emptyDB).1.1).
  - reflexivity.
  - constructor.
  - vm_compute. reflexivity.
Defined.

(** ** What a media scan keeps and counts *)

Lemma ids_grow_refl ids : ids_grow ids ids.
Proof. split; [exists []; by rewrite app_nil_r|done]. Qed.

Lemma ids_grow_trans a b c : ids_grow a b -> ids_grow b c -> ids_grow a c.
Proof.
  intros [[k ->] H1] [[k' ->] H2]. split; [exists (k ++ k'); by rewrite app_assoc|auto].
Qed.

Lemma ids_grow_next ids : ids_grow ids (ids ++ [nextID ids]).
Proof.
  split; [by eexists|]. intros Hnd.
  apply List.NoDup_app; [done|repeat constructor; by intros []|].
  intros x Hx [<-|[]]. by apply nextID_fresh in Hx.
Qed.

Lemma keeps_records_refl d : keeps_records d d.
Proof. unfold keeps_records. repeat split; exists []; by rewrite app_nil_r. Qed.

Lemma keeps_records_trans a b c : keeps_records a b -> keeps_records b c -> keeps_records a c.
Proof.
  intros ([k1 E1] & [k2 E2] & [k3 E3] & [k4 E4] & [k5 E5])
         ([l1 F1] & [l2 F2] & [l3 F3] & [l4 F4] & [l5 F5]).
  unfold keeps_records. rewrite F1, F2, F3, F4, F5, E1, E2, E3, E4, E5.
  repeat split; eexists; by rewrite <- app_assoc.
Qed.

Lemma updates_app l1 l2 : updates (l1 ++ l2) = updates l1 + updates l2.
Proof. unfold updates. rewrite List.filter_app, length_app. lia. Qed.

Lemma advance_refl st : advance st st.
Proof.
  unfold advance. split; [apply keeps_records_refl|].
  split; [repeat split; try apply ids_grow_refl; exists []; by rewrite app_nil_r|].
  split; [|lia].
  exists []. split; [apply calls_between_refl|]. split; [constructor|]. unfold updates. simpl. lia.
Qed.

Lemma advance_trans a b c : advance a b -> advance b c -> advance a c.
Proof.
  intros (K1 & (I1 & I2 & I3 & I4 & I5) & (l1 & J1 & C1 & U1) & L1)
         (K2 & (I1' & I2' & I3' & I4' & I5') & (l2 & J2 & C2 & U2) & L2).
  split; [by eapply keeps_records_trans|].
  split; [repeat split; by (eapply ids_grow_trans; eauto) || (destruct I1, I1'; auto)|].
  split; [|lia].
  exists (l1 ++ l2). split; [by eapply calls_between_trans|]. split; [by apply Forall_app|].
  rewrite updates_app. lia.
Qed.

Ltac advance_solve :=
  unfold advance, keeps_records, calls_between; simpl;
  rewrite ?map_ID_update, ?List.map_app, ?length_app, ?length_map; simpl;
  repeat match goal with
  | |- _ /\ _ => split
  | |- ids_grow ?l ?l => apply ids_grow_refl
  | |- ids_grow ?l (?l ++ [nextID ?l]) => apply ids_grow_next
  | |- exists k, ?l = ?l ++ k => exists []; by rewrite app_nil_r
  | |- exists k, ?l ++ ?x = ?l ++ k => by exists x
  | |- exists calls, ?j = ?j ++ calls /\ _ /\ _ =>
      exists []; rewrite app_nil_r; split; [done|];
      split; [constructor|unfold updates; simpl; lia]
  | |- exists calls, _ /\ _ /\ _ =>
      eexists; split; [rewrite <- ?app_assoc; reflexivity|];
      split; [repeat constructor|unfold updates; simpl; lia]
  | |- _ = _ => lia
  end.

Section AdvancePhases.
Variable env : Env.
Lemma resolveFolder_advance currPath info st :
  advance st (resolveFolder env currPath info st).2.
Proof. walk_unfold. walk_cases; advance_solve. Qed.
Lemma scanArt_advance currPath info folder st :
  advance st (scanArt env currPath info folder st).2.
Proof. walk_unfold. walk_cases; advance_solve. Qed.
Lemma resolveArtist_advance a st :
  advance st (resolveArtist env a st).2.
Proof. walk_unfold. walk_cases; advance_solve. Qed.
Lemma resolveAlbum_advance a st :
  advance st (resolveAlbum env a st).2.
Proof. walk_unfold. walk_cases; advance_solve. Qed.
Lemma reconcileSong_advance a st :
  advance st (reconcileSong env a st).2.
Proof. walk_unfold. walk_cases; advance_solve. Qed.
End AdvancePhases.

Section AdvanceWalk.
Variable env : Env.

Lemma cacheFolder_advance f st : advance st (cacheFolder f st).
Proof. advance_solve. Qed.
Lemma cacheArtist_advance a st : advance st (cacheArtist a st).
Proof. advance_solve. Qed.
Lemma cacheAlbum_advance k a st : advance st (cacheAlbum k a st).
Proof. advance_solve. Qed.

Lemma indexSong_advance song st : advance st (indexSong env song st).2.
Proof.
  destruct (indexSong_run env song st) as (artist & st1 & album & st2 & E1 & E2 & ->). simpl.
  pose proof (resolveArtist_advance env (ArtistFromSong song) st) as A1. rewrite E1 in A1.
  pose proof (resolveAlbum_advance env
    (Album.withArtistID (Artist.ID artist) (AlbumFromSong song)) (cacheArtist artist st1)) as A2.
  rewrite E2 in A2. simpl in A1, A2.
  eapply advance_trans; [exact A1|].
  eapply advance_trans; [apply cacheArtist_advance|].
  eapply advance_trans; [exact A2|].
  eapply advance_trans; [apply cacheAlbum_advance|]. apply reconcileSong_advance.
Qed.

Lemma scanSong_advance currPath info folder st :
  advance st (scanSong env currPath info folder st).2.
Proof.
  unfold scanSong, SongFromFile.
  destruct (taglib_Read env currPath) as [file|e]; [|apply advance_refl].
  destruct (songTagsError env file); [apply advance_refl|].
  cbn [Song.FileSize Song.withFile].
  destruct (Size info =? 0); [apply advance_refl|].
  destruct (FileTypeMap env !! path_Ext (Name info)); [|apply advance_refl].
  apply indexSong_advance.
Qed.

Lemma walkFn_advance i currPath info st r st' :
  run (walkFn env i currPath info) st = (r, st') -> advance st st'.
Proof.
  unfold walkFn. destruct (haltWalk env i); [intros [= _ <-]; apply advance_refl|].
  destruct info as [info|]; [|intros [= _ <-]; apply advance_refl].
  unfold run, bind at 1.
  pose proof (resolveFolder_advance env currPath info st) as A1.
  destruct (resolveFolder env currPath info st) as [[folder|r1] st1]; simpl in A1.
  2:{ by intros [= _ <-]. }
  unfold bind at 1, modify at 1.
  pose proof (scanArt_advance env currPath info folder (cacheFolder folder st1)) as A2.
  pose proof (scanSong_advance currPath info folder (cacheFolder folder st1)) as A3.
  assert (advance st (cacheFolder folder st1)) as A
    by (eapply advance_trans; [exact A1|apply cacheFolder_advance]).
  destruct (negb (Has (mediaSet env) (path_Ext currPath)) &&
            negb (Has (artSet env) (path_Ext currPath))).
  { by intros [= _ <-]. }
  destruct (Has (artSet env) (path_Ext currPath)).
  - destruct (scanArt env currPath info folder (cacheFolder folder st1)) as [[[]|r2] st2];
      intros [= _ <-]; by eapply advance_trans.
  - destruct (scanSong env currPath info folder (cacheFolder folder st1)) as [[[]|r2] st2];
      intros [= _ <-]; by eapply advance_trans.
Qed.

Lemma walk_advance items i st r st' : walk env i items st = (r, st') -> advance st st'.
Proof.
  apply (walk_invariant env (advance st)); [|apply advance_refl].
  intros j p info s r' s' _ Hs Hrun. eapply advance_trans; [exact Hs|by eapply walkFn_advance].
Qed.

Lemma updateArt_calls l a : forall d r d',
  updateArt env l a d = (r, d') ->
  exists calls, calls_between d d' calls /\ Forall (fun c => is_scan_call c = true) calls.
Proof.
  intros d r d' H. apply updateArt_frame in H as (_ & _ & _ & _ & _ & (calls & J & _) & _).
  exists (map UpdateSong calls). split; [done|].
  apply List.Forall_forall. by intros c (s & <- & _)%in_map_iff.
Qed.

Lemma associateArt_calls pairs : forall d r d',
  associateArt env pairs d = (r, d') ->
  exists calls, calls_between d d' calls /\ Forall (fun c => is_scan_call c = true) calls.
Proof.
  induction pairs as [|p pairs IH]; simpl; intros d r d' H.
  - injection H as _ <-. exists []. split; [apply calls_between_refl|constructor].
  - destruct (DB_SongsForFolder (faults env) (folderID p) d) as [[l|e] d0] eqn:E;
      apply query_inv in E as [-> _].
    2:{ injection H as _ <-. exists [SongsForFolder (folderID p)]. split; [done|].
        by repeat constructor. }
    destruct (updateArt env l (artID p) _) as [o d1] eqn:E1.
    apply updateArt_calls in E1 as (c1 & J1 & C1).
    assert (exists calls, calls_between d d1 calls /\
              Forall (fun c => is_scan_call c = true) calls) as (c0 & J0 & C0).
    { exists ([SongsForFolder (folderID p)] ++ c1). split.
      - eapply calls_between_trans; [|exact J1]. done.
      - apply Forall_app. split; [by repeat constructor|done]. }
    destruct o as [e|]; [injection H as _ <-; by exists c0|].
    apply IH in H as (c2 & J2 & C2). exists (c0 ++ c2).
    split; [by eapply calls_between_trans|by apply Forall_app].
Qed.

(** X3.  Whatever a media scan returns, the store it leaves holds every
    folder, artist, album and art it was given, as they were, and every
    song under its identity; the scan has called the store for loads,
    saves, song updates and the songs of a folder, never for a deletion,
    a purge or a path query. *)
Theorem MediaScan_keeps_records root d :
  let out := MediaScan env root d in
  keeps_records d out.2 /\
  exists calls, calls_between d out.2 calls /\ Forall (fun c => is_scan_call c = true) calls.
Proof.
  unfold MediaScan.
  destruct (walk env 0 (Walk env root) (initState d)) as [o st] eqn:Hw.
  apply walk_advance in Hw as (K & _ & (c1 & J1 & C1 & _) & _). simpl in K, J1.
  destruct o as [e|]; simpl; [split; [done|by exists c1]|].
  destruct (associateArt env (artFiles st) (db st)) as [o d'] eqn:Ha.
  pose proof (associateArt_tables env _ _ _ _ Ha) as (Hf & Hr & Hl & Hc).
  pose proof (associateArt_ids env _ _ _ _ Ha) as Hs.
  pose proof (associateArt_calls _ _ _ _ Ha) as (c2 & J2 & C2).
  assert (keeps_records d d' /\
          exists calls, calls_between d d' calls /\
                        Forall (fun c => is_scan_call c = true) calls) as Hgoal.
  { split.
    - unfold keeps_records in *. by rewrite Hf, Hr, Hl, Hc, Hs.
    - exists (c1 ++ c2). split; [by eapply calls_between_trans|by apply Forall_app]. }
  by destruct o.
Qed.
End AdvanceWalk.

Section AdvanceScan.
Variable env : Env.

(** X4.  A media scan of a store whose records have distinct identities
    leaves a store whose records have distinct identities, whatever it
    returns and whichever calls fail. *)
Theorem MediaScan_distinct_ids root d :
  distinct_ids d -> distinct_ids (MediaScan env root d).2.
Proof.
  intros (Nf & Nr & Nl & Ns & Nc). unfold MediaScan.
  destruct (walk env 0 (Walk env root) (initState d)) as [o st] eqn:Hw.
  apply (walk_advance env) in Hw as (_ & (I1 & I2 & I3 & I4 & I5) & _). simpl in *.
  assert (distinct_ids (db st)) as Hst.
  { unfold distinct_ids. destruct I1 as [_ I1], I2 as [_ I2], I3 as [_ I3], I4 as [_ I4],
      I5 as [_ I5]. repeat split; auto. }
  destruct o as [e|]; [done|].
  destruct (associateArt env (artFiles st) (db st)) as [o d'] eqn:Ha.
  pose proof (associateArt_tables env _ _ _ _ Ha) as (Hf & Hr & Hl & Hc).
  pose proof (associateArt_ids env _ _ _ _ Ha) as Hs.
  assert (distinct_ids d') by (unfold distinct_ids in *; by rewrite Hf, Hr, Hl, Hc, Hs).
  by destruct o.
Qed.

(** X5.  The count a media scan returns with no error is the number of
    records the store has gained, over its five tables, plus the number
    of song updates the walk has called. *)
Theorem MediaScan_count root d n d' :
  MediaScan env root d = ((n, None), d') ->
  exists st calls,
    walk env 0 (Walk env root) (initState d) = (None, st) /\
    calls_between d (db st) calls /\
    n = added d d' + updates calls.
Proof.
  intros H. apply MediaScan_inv in H as (st & Hw & Ha & ->).
  pose proof (walk_advance env _ _ _ _ _ Hw) as (_ & _ & (calls & J & _ & U) & L).
  exists st, calls. split; [done|]. split; [done|].
  pose proof (associateArt_tables env _ _ _ _ Ha) as (Hf & Hr & Hl & Hc).
  pose proof (associateArt_ids env _ _ _ _ Ha) as Hs.
  apply (f_equal (@length Z)) in Hs. rewrite !length_map in Hs.
  unfold added, changes. rewrite Hf, Hr, Hl, Hc, Hs. simpl in *. lia.
Qed.
End AdvanceScan.

Lemma MediaScan_distinct_ids_witness :
  distinct_ids Grown.indexed /\ distinct_ids (MediaScan Grown.env "/music" Grown.indexed).2.
Proof.
  assert (distinct_ids Grown.indexed) as H.
  { unfold distinct_ids. vm_compute.
    repeat split; repeat (apply List.NoDup_cons; [intros Hin; simpl in Hin; intuition discriminate|]);
      apply List.NoDup_nil. }
  split; [exact H|]. exact (MediaScan_distinct_ids Grown.env "/music" Grown.indexed H).
Defined.

Lemma MediaScan_count_witness :
  exists st calls,
    walk Touched.env 0 (Walk Touched.env "/music") (initState Grown.indexed) = (None, st) /\
    calls_between Grown.indexed (db st) calls /\
    1 = added Grown.indexed (MediaScan Touched.env "/music" Grown.indexed).2 + updates calls.
Proof.
  apply (MediaScan_count Touched.env "/music" Grown.indexed 1).
  vm_compute. reflexivity.
Defined.

(** ** The check for an existing song *)

Section ExistingSongVisit.
Variable env : Env.



End ExistingSongVisit.


(** C4, as the specification words it, fails: the store holds the song of
    the file, as new as the file, and fails its load otherwise than by
    not-found; the callback takes a blank song for the stored one, calls
    for an update under the identity zero and counts it. *)
Lemma unchanged_song_is_updated :
  let st := initState Grown.indexed in
  let info := {| Name := "track1.mp3"; Size := 5000000; ModTime := 100; IsDir := false |} in
  let st' := (run (walkFn Locked.env 4 Touched.track1 (Some info)) st).2 in
  (songAt (db st) Touched.track1 = Some Touched.stored /\
   ModTime info <= Song.LastModified Touched.stored /\ Song.ID Touched.stored = 1) /\
  songUpdateCount st' = songUpdateCount st + 1 /\
  exists s, last (journal (db st')) = Some (UpdateSong s) /\ Song.ID s = 0.
Proof.
  vm_compute. split; [by repeat split|]. split; [reflexivity|]. eexists. split; reflexivity.
Qed.

(** ** What an orphan scan leaves *)

Lemma filter_filter_and {A : Type} (f g : A -> bool) l :
  List.filter f (List.filter g l) = List.filter (fun x => g x && f x) l.
Proof.
  induction l as [|x l IH]; simpl; [done|].
  destruct (g x); simpl; [destruct (f x)|]; by rewrite IH.
Qed.

Lemma filter_all {A : Type} (f : A -> bool) l :
  (forall x, In x l -> f x = true) -> List.filter f l = l.
Proof.
  induction l as [|x l IH]; simpl; intros H; [done|].
  rewrite (H x) by (by left). f_equal. apply IH. intros; apply H. by right.
Qed.

Lemma NoDup_map_filter {A : Type} (id : A -> Z) (f : A -> bool) l :
  List.NoDup (map id l) -> List.NoDup (map id (List.filter f l)).
Proof.
  induction l as [|x l IH]; simpl; intros H; [done|].
  inversion H as [|? ? Hnotin Hnd]; subst. destruct (f x); simpl; [|auto].
  constructor; [|auto]. intros Hin. apply Hnotin.
  apply in_map_iff in Hin as (y & Hy & [Hin _]%filter_In). rewrite <- Hy. by apply in_map.
Qed.

Lemma filter_removed {A : Type} (f : A -> bool) l :
  Z.of_nat (length (List.filter (fun x => negb (f x)) l))
  = Z.of_nat (length l) - Z.of_nat (length (List.filter f l)).
Proof. pose proof (filter_length f l). lia. Qed.

Lemma in_path_empty p : in_path "" p = true.
Proof. reflexivity. Qed.

Section RemoveSelected.
Context {A : Type}.
Variable rows : DB -> list A.
Variable id : A -> Z.
Variable delete : A -> DB -> result unit * DB.

Hypothesis delete_rows : forall a d,
  rows (delete a d).2 =
    match (delete a d).1 with
    | Ok _ => List.filter (fun x => negb (id x =? id a)) (rows d)
    | Err _ => rows d
    end.

(** A loop that ends without an error has tested every item, deleted
    the rows with the identity of an item it selected, and counted the
    items it selected. *)
Lemma removeEach_selected doomed items : forall count d n d',
  removeEach doomed delete items count d = (Ok n, d') ->
  rows d' = List.filter (fun x => negb (existsb (fun a => (id x =? id a) && doomed_now doomed a)
                                          items)) (rows d) /\
  n = count + Z.of_nat (length (List.filter (doomed_now doomed) items)) /\
  forall a, In a items -> doomed a = Ok (doomed_now doomed a).
Proof.
  induction items as [|a items IH]; simpl; intros count d n d' H.
  - injection H as <- <-. split; [by rewrite filter_all|]. split; [lia|by intros ? []].
  - destruct (doomed a) as [[]|e] eqn:Ea; [| |done].
    + assert (doomed_now doomed a = true) as Hda by (unfold doomed_now; by rewrite Ea).
      pose proof (delete_rows a d) as Hd.
      destruct (delete a d) as [[[]|e] d1] eqn:E; simpl in Hd; [|done].
      apply IH in H as (Hr & Hn & Hall). rewrite Hda. split; [|split].
      * rewrite Hr, Hd, filter_filter_and. apply filter_ext. intros x.
        rewrite andb_true_r. by destruct (id x =? id a).
      * simpl. lia.
      * intros b [<-|Hb]; [by rewrite Hda|by apply Hall].
    + assert (doomed_now doomed a = false) as Hda by (unfold doomed_now; by rewrite Ea).
      apply IH in H as (Hr & Hn & Hall). rewrite Hda. split; [|split].
      * rewrite Hr. apply filter_ext. intros x. by rewrite andb_false_r.
      * done.
      * intros b [<-|Hb]; [by rewrite Hda|by apply Hall].
Qed.

(** In a table of distinct identities, a loop over the rows a query has
    selected leaves the rows that were not both queried and selected,
    and counts the rows it has taken away. *)
Lemma removeEach_queried doomed q count d n d' :
  List.NoDup (map id (rows d)) ->
  removeEach doomed delete (List.filter q (rows d)) count d = (Ok n, d') ->
  rows d' = List.filter (fun x => negb (q x && doomed_now doomed x)) (rows d) /\
  n = count + (Z.of_nat (length (rows d)) - Z.of_nat (length (rows d'))) /\
  forall a, In a (rows d) -> q a = true -> doomed a = Ok (doomed_now doomed a).
Proof.
  intros Hnd H. apply removeEach_selected in H as (Hr & Hn & Hall).
  assert (rows d' = List.filter (fun x => negb (q x && doomed_now doomed x)) (rows d)) as Hr'.
  { rewrite Hr. apply filter_ext_in. intros x Hx. f_equal.
    destruct (q x && doomed_now doomed x) eqn:Hq.
    - apply andb_prop in Hq as [Hq Hdm]. apply existsb_exists. exists x.
      split; [by apply filter_In|]. by rewrite Z.eqb_refl, Hdm.
    - destruct (existsb _ _) eqn:Hex; [|done].
      apply existsb_exists in Hex as (a & [Ha Hqa]%filter_In & [Hid%Z.eqb_eq Hdm]%andb_prop).
      rewrite (NoDup_map_inj id (rows d) x a) in Hq by done. by rewrite Hqa, Hdm in Hq. }
  split; [done|]. split.
  - rewrite Hn, Hr', filter_removed, filter_filter_and. lia.
  - intros a Ha Hq. apply Hall. by apply filter_In.
Qed.

End RemoveSelected.

Section OrphanScanRows.
Variable env : Env.

(** A bulk query that does not fail was not failed by the plan, and
    answers from the store as it is. *)
Lemma query_passes {A : Type} (c : call) (answer : DB -> list A) d l d' :
  invoke (faults env) c (fun d => (Ok (answer d), d)) d = (Ok l, d') ->
  faults env c = None /\ d' = record_call c d /\ l = answer (record_call c d).
Proof. unfold invoke. destruct (faults env c); [done|]. by intros [= <- <-]. Qed.

Lemma baseEviction_spec base d counts d1 :
  unique_ids d -> baseEviction env base d = (Ok counts, d1) ->
  unique_ids d1 /\
  (art d1 = List.filter (fun a => in_path base (Art.FileName a)) (art d) /\
   songs d1 = List.filter (fun s => in_path base (Song.FileName s)) (songs d) /\
   folders d1 = List.filter (fun f => in_path base (Folder.Path f)) (folders d) /\
   albums d1 = albums d /\ artists d1 = artists d) /\
  counts = (Z.of_nat (length (art d)) - Z.of_nat (length (art d1)),
            Z.of_nat (length (songs d)) - Z.of_nat (length (songs d1)),
            Z.of_nat (length (folders d)) - Z.of_nat (length (folders d1))) /\
  (base <> "" ->
   faults env (ArtNotInPath base) = None /\ faults env (SongsNotInPath base) = None /\
   faults env (FoldersNotInPath base) = None).
Proof.
  intros (Ua & Us & Uf) H. unfold baseEviction in H.
  destruct (String.eqb base "") eqn:Eb.
  { apply String.eqb_eq in Eb as ->. injection H as <- <-.
    rewrite !filter_all by (intros; apply in_path_empty).
    split; [done|]. split; [done|].
    split; [apply pair_equal_spec; split; [apply pair_equal_spec; split|]; lia|done]. }
  phase_step H; [|done]. apply query_passes in E as (P1 & -> & ->).
  phase_step H; [|done].
  pose proof (removeEach_frame _ besides_art _ _ _ _ _ _ (Art_Delete_frame (faults env)) E) as F1.
  apply (removeEach_queried art Art.ID _ (Art_Delete_rows (faults env))) in E
    as (R1 & N1 & _); [|done].
  phase_step H; [|done]. apply query_passes in E as (P2 & -> & ->).
  phase_step H; [|done].
  pose proof (removeEach_frame _ besides_songs _ _ _ _ _ _ (Song_Delete_frame (faults env)) E) as F2.
  apply (removeEach_queried songs Song.ID _ (Song_Delete_rows (faults env))) in E
    as (R2 & N2 & _).
  2:{ simpl. inversion F1. congruence. }
  phase_step H; [|done]. apply query_passes in E as (P3 & -> & ->).
  phase_step H; [|done].
  pose proof (removeEach_frame _ besides_folders _ _ _ _ _ _ (Folder_Delete_frame (faults env)) E)
    as F3.
  apply (removeEach_queried folders Folder.ID _ (Folder_Delete_rows (faults env))) in E
    as (R3 & N3 & _).
  2:{ simpl. inversion F1. inversion F2. simpl in *. congruence. }
  injection H as <- <-.
  unfold besides_art, besides_songs, besides_folders in *. simpl in *.
  inversion F1 as [[A1 A2 A3 A4]]. inversion F2 as [[B1 B2 B3 B4]].
  inversion F3 as [[C1 C2 C3 C4]]. clear F1 F2 F3.
  assert (art d3 = List.filter (fun a => in_path base (Art.FileName a)) (art d)) as Ra.
  { rewrite C4, B4, R1. apply filter_ext. intros x. unfold doomed_now, always.
    by rewrite andb_true_r, negb_involutive. }
  assert (songs d3 = List.filter (fun s => in_path base (Song.FileName s)) (songs d)) as Rs.
  { rewrite C3, R2, A4. apply filter_ext. intros x. unfold doomed_now, always.
    by rewrite andb_true_r, negb_involutive. }
  assert (folders d3 = List.filter (fun f => in_path base (Folder.Path f)) (folders d)) as Rf.
  { rewrite R3, B1, A1. apply filter_ext. intros x. unfold doomed_now, always.
    by rewrite andb_true_r, negb_involutive. }
  split; [|split; [|split]].
  - unfold unique_ids. rewrite Ra, Rs, Rf. repeat split; by apply NoDup_map_filter.
  - repeat split; try done; congruence.
  - rewrite N1, N2, N3, C4, B4, C3, A4, B1, A1.
    apply pair_equal_spec; split; [apply pair_equal_spec; split|]; lia.
  - done.
Qed.

Lemma existenceCheck_spec sub a0 s0 f0 d a s f d2 :
  unique_ids d -> existenceCheck env sub (a0, s0, f0) d = (Ok (a, s, f), d2) ->
  unique_ids d2 /\
  (art d2 = List.filter (fun x => negb (in_path sub (Art.FileName x) &&
                                        gone env (Art.FileName x))) (art d) /\
   songs d2 = List.filter (fun x => negb (in_path sub (Song.FileName x) &&
                                          gone env (Song.FileName x))) (songs d) /\
   folders d2 = List.filter (fun x => negb (in_path sub (Folder.Path x) && empty_dir env x))
                            (folders d) /\
   albums d2 = albums d /\ artists d2 = artists d) /\
  (a = a0 + (Z.of_nat (length (art d)) - Z.of_nat (length (art d2))) /\
   s = s0 + (Z.of_nat (length (songs d)) - Z.of_nat (length (songs d2))) /\
   f = f0 + (Z.of_nat (length (folders d)) - Z.of_nat (length (folders d2)))) /\
  (forall x, In x (folders d) -> in_path sub (Folder.Path x) = true ->
     deserted env x = Ok (empty_dir env x)) /\
  (faults env (ArtInPath sub) = None /\ faults env (SongsInPath sub) = None /\
   faults env (FoldersInPath sub) = None).
Proof.
  intros (Ua & Us & Uf) H. unfold existenceCheck in H.
  phase_step H; [|done]. apply query_passes in E as (P1 & -> & ->).
  phase_step H; [|done].
  pose proof (removeEach_frame _ besides_art _ _ _ _ _ _ (Art_Delete_frame (faults env)) E) as F1.
  apply (removeEach_queried art Art.ID _ (Art_Delete_rows (faults env))) in E
    as (R1 & N1 & _); [|done].
  phase_step H; [|done]. apply query_passes in E as (P2 & -> & ->).
  phase_step H; [|done].
  pose proof (removeEach_frame _ besides_songs _ _ _ _ _ _ (Song_Delete_frame (faults env)) E) as F2.
  apply (removeEach_queried songs Song.ID _ (Song_Delete_rows (faults env))) in E
    as (R2 & N2 & _).
  2:{ simpl. inversion F1. congruence. }
  phase_step H; [|done]. apply query_passes in E as (P3 & -> & ->).
  phase_step H; [|done].
  pose proof (removeEach_frame _ besides_folders _ _ _ _ _ _ (Folder_Delete_frame (faults env)) E)
    as F3.
  apply (removeEach_queried folders Folder.ID _ (Folder_Delete_rows (faults env))) in E
    as (R3 & N3 & D3).
  2:{ simpl. inversion F1. inversion F2. simpl in *. congruence. }
  injection H as -> -> -> ->.
  unfold besides_art, besides_songs, besides_folders in *. simpl in *.
  inversion F1 as [[A1 A2 A3 A4]]. inversion F2 as [[B1 B2 B3 B4]].
  inversion F3 as [[C1 C2 C3 C4]]. clear F1 F2 F3.
  assert (art d2 = List.filter (fun x => negb (in_path sub (Art.FileName x) &&
                                              gone env (Art.FileName x))) (art d)) as Ra
    by (by rewrite C4, B4, R1).
  assert (songs d2 = List.filter (fun x => negb (in_path sub (Song.FileName x) &&
                                                gone env (Song.FileName x))) (songs d)) as Rs
    by (by rewrite C3, R2, A4).
  assert (folders d2 = List.filter (fun x => negb (in_path sub (Folder.Path x) &&
                                                  empty_dir env x)) (folders d)) as Rf
    by (by rewrite R3, B1, A1).
  split; [|split; [|split; [|split]]].
  - unfold unique_ids. rewrite Ra, Rs, Rf. repeat split; by apply NoDup_map_filter.
  - repeat split; try done; congruence.
  - repeat split; congruence.
  - intros x Hx Hp. apply D3; [|done]. revert Hx. by rewrite ?B1, ?A1.
  - done.
Qed.

Lemma cascadingPurge_spec d albumCount artistCount d' :
  cascadingPurge env d = (Ok (albumCount, artistCount), d') ->
  (folders d' = folders d /\ songs d' = songs d /\ art d' = art d /\
   albums d' = List.filter (album_has_song d') (albums d) /\
   artists d' = List.filter (artist_has_album d') (artists d)) /\
  (albumCount = Z.of_nat (length (albums d)) - Z.of_nat (length (albums d')) /\
   artistCount = Z.of_nat (length (artists d)) - Z.of_nat (length (artists d'))) /\
  (faults env PurgeOrphanAlbums = None /\ faults env PurgeOrphanArtists = None).
Proof.
  unfold cascadingPurge, DB_PurgeOrphanAlbums, DB_PurgeOrphanArtists, invoke.
  destruct (faults env PurgeOrphanAlbums); [done|]. simpl.
  destruct (faults env PurgeOrphanArtists); [done|]. simpl.
  intros H. inversion H; subst; simpl. by repeat split.
Qed.

(** What an orphan scan that returns no error leaves of a store of
    distinct identities, and what it has found on its way. *)
Lemma OrphanScan_rows base sub d n d' :
  unique_ids d -> OrphanScan env base sub d = ((n, None), d') ->
  (art d' = List.filter (fun x => stays base sub (Art.FileName x) (gone env (Art.FileName x)))
                        (art d) /\
   songs d' = List.filter (fun x => stays base sub (Song.FileName x)
                                      (gone env (Song.FileName x))) (songs d) /\
   folders d' = List.filter (fun x => stays base sub (Folder.Path x) (empty_dir env x))
                            (folders d) /\
   albums d' = List.filter (album_has_song d') (albums d) /\
   artists d' = List.filter (artist_has_album d') (artists d)) /\
  n = added d' d /\
  (forall x, In x (folders d) -> in_path base (Folder.Path x) = true ->
     in_path (checked base sub) (Folder.Path x) = true ->
     deserted env x = Ok (empty_dir env x)) /\
  ((base <> "" ->
    faults env (ArtNotInPath base) = None /\ faults env (SongsNotInPath base) = None /\
    faults env (FoldersNotInPath base) = None) /\
   (faults env (ArtInPath (checked base sub)) = None /\
    faults env (SongsInPath (checked base sub)) = None /\
    faults env (FoldersInPath (checked base sub)) = None) /\
   (faults env PurgeOrphanAlbums = None /\ faults env PurgeOrphanArtists = None)).
Proof.
  intros U H.
  apply OrphanScan_inv in H as (counts & d1 & a & s & f & d2 & na & nr & E1 & E2 & E3 & ->).
  apply baseEviction_spec in E1 as (U1 & (Ra & Rs & Rf & Rl & Rr) & -> & P1); [|done].
  fold (checked base sub) in E2.
  apply existenceCheck_spec in E2
    as (U2 & (Ra' & Rs' & Rf' & Rl' & Rr') & (-> & -> & ->) & D & P2); [|done].
  apply cascadingPurge_spec in E3 as ((Pf & Ps & Pa & Pl & Pr) & (-> & ->) & P3).
  split; [|split; [|split]].
  - rewrite Pa, Ps, Pf, Pl, Pr, Ra', Rs', Rf', Rl', Rr', Ra, Rs, Rf, Rl, Rr.
    rewrite !filter_filter_and. by repeat split.
  - unfold added. rewrite Pa, Ps, Pf, Rl', Rr', Rl, Rr. lia.
  - intros x Hx Hb Hc. apply D; [|done]. rewrite Rf. by apply filter_In.
  - done.
Qed.
End OrphanScanRows.


Lemma stays_true base sub p lost :
  stays base sub p lost = true <->
  in_path base p = true /\ (in_path (checked base sub) p = true -> lost = false).
Proof.
  unfold stays. destruct (in_path base p), (in_path (checked base sub) p), lost; simpl;
    intuition congruence.
Qed.

Section OrphanScanSettled.
Variable env : Env.




End OrphanScanSettled.

Section OrphanScanAgain.
Variables env env' : Env.
Hypothesis same_Stat : Stat env' = Stat env.
Hypothesis same_ReadDir : ReadDir env' = ReadDir env.



End OrphanScanAgain.

Section OrphanScanLeaves.
Variable env : Env.

(** X11.  In a store of distinct identities, an orphan scan that returns no
    error leaves exactly the art, the songs and the folders that are
    under the base folder and are not, under the subfolder it checks,
    gone from the disk; then the albums that still have a song and the
    artists that still have an album. *)
Theorem OrphanScan_leaves base sub d n d' :
  unique_ids d ->
  OrphanScan env base sub d = ((n, None), d') ->
  (forall x, In x (art d') <->
     In x (art d) /\ in_path base (Art.FileName x) = true /\
     (in_path (checked base sub) (Art.FileName x) = true -> gone env (Art.FileName x) = false)) /\
  (forall x, In x (songs d') <->
     In x (songs d) /\ in_path base (Song.FileName x) = true /\
     (in_path (checked base sub) (Song.FileName x) = true ->
      gone env (Song.FileName x) = false)) /\
  (forall x, In x (folders d') <->
     In x (folders d) /\ in_path base (Folder.Path x) = true /\
     (in_path (checked base sub) (Folder.Path x) = true -> empty_dir env x = false)) /\
  (forall x, In x (albums d') <->
     In x (albums d) /\ exists s, In s (songs d') /\ Song.AlbumID s = Album.ID x) /\
  (forall x, In x (artists d') <->
     In x (artists d) /\ exists a, In a (albums d') /\ Album.ArtistID a = Artist.ID x).
Proof.
  intros U H. apply OrphanScan_rows in H as ((Ra & Rs & Rf & Rl & Rr) & _); [|done].
  split; [|split; [|split; [|split]]]; intros x.
  - rewrite Ra, filter_In, stays_true. tauto.
  - rewrite Rs, filter_In, stays_true. tauto.
  - rewrite Rf, filter_In, stays_true. tauto.
  - rewrite Rl at 1. rewrite filter_In. unfold album_has_song. rewrite existsb_exists.
    split; intros [Hx (s & Hs & He)]; (split; [done|]); exists s; split; try done;
      by apply Z.eqb_eq.
  - rewrite Rr at 1. rewrite filter_In. unfold artist_has_album. rewrite existsb_exists.
    split; intros [Hx (s & Hs & He)]; (split; [done|]); exists s; split; try done;
      by apply Z.eqb_eq.
Qed.

(** X12.  In a store of distinct identities, the count an orphan scan returns
    with no error is the number of records the store has lost, over its
    five tables. *)
Theorem OrphanScan_count base sub d n d' :
  unique_ids d ->
  OrphanScan env base sub d = ((n, None), d') ->
  n = added d' d.
Proof. intros U H. by apply OrphanScan_rows in H as (_ & ? & _). Qed.
End OrphanScanLeaves.


(** ** What an orphan scan spares, whatever it returns *)

Section RemoveSpares.
Context {A : Type}.
Variable rows : DB -> list A.
Variable id : A -> Z.
Variable delete : A -> DB -> result unit * DB.

Hypothesis delete_rows : forall a d,
  rows (delete a d).2 =
    match (delete a d).1 with
    | Ok _ => List.filter (fun x => negb (id x =? id a)) (rows d)
    | Err _ => rows d
    end.

(** However a loop ends, it has spared the rows that share their
    identity with no item it selects. *)
Lemma removeEach_spares doomed items x : forall count d r d',
  removeEach doomed delete items count d = (r, d') ->
  (forall a, In a items -> id a = id x -> doomed_now doomed a = false) ->
  In x (rows d) -> In x (rows d').
Proof.
  induction items as [|a items IH]; simpl; intros count d r d' H Hsel Hx.
  - by injection H as _ <-.
  - assert (forall b, In b items -> id b = id x -> doomed_now doomed b = false) as Hrest
      by (intros; apply Hsel; auto).
    pose proof (Hsel a (or_introl eq_refl)) as Ha. unfold doomed_now in Ha.
    destruct (doomed a) as [[]|e] eqn:Ea.
    + pose proof (delete_rows a d) as Hd.
      destruct (delete a d) as [[[]|e] d1] eqn:E; simpl in Hd.
      * apply (IH _ _ _ _ H Hrest). rewrite Hd. apply filter_In. split; [done|].
        apply negb_true_iff, Z.eqb_neq. intros Hid. symmetry in Hid. by apply Ha in Hid.
      * injection H as _ <-. by rewrite Hd.
    + by apply (IH _ _ _ _ H Hrest).
    + by injection H as _ <-.
Qed.

Lemma removeEach_NoDup doomed items : forall count d r d',
  removeEach doomed delete items count d = (r, d') ->
  List.NoDup (map id (rows d)) -> List.NoDup (map id (rows d')).
Proof.
  induction items as [|a items IH]; simpl; intros count d r d' H Hnd.
  - by injection H as _ <-.
  - destruct (doomed a) as [[]|e] eqn:Ea.
    + pose proof (delete_rows a d) as Hd.
      destruct (delete a d) as [[[]|e] d1] eqn:E; simpl in Hd.
      * apply (IH _ _ _ _ H). rewrite Hd. by apply NoDup_map_filter.
      * injection H as _ <-. by rewrite Hd.
    + by apply (IH _ _ _ _ H).
    + by injection H as _ <-.
Qed.

(** The same for a loop over the rows a query has selected, in a table
    of distinct identities. *)
Lemma removeEach_spares_queried doomed q x count d r d' :
  List.NoDup (map id (rows d)) ->
  removeEach doomed delete (List.filter q (rows d)) count d = (r, d') ->
  In x (rows d) -> (q x = true -> doomed_now doomed x = false) -> In x (rows d').
Proof.
  intros Hnd H Hx Hsel. apply (removeEach_spares _ _ _ _ _ _ _ H); [|done].
  intros a [Ha Hq]%filter_In Hid.
  rewrite (NoDup_map_inj id (rows d) a x) in Hq |- *; auto.
Qed.
End RemoveSpares.

Section Spared.
Variable env : Env.
Variables base sub : string.

Lemma spared_refl d : spared env base sub d d.
Proof. intros U. split; [done|]. by repeat split. Qed.

Lemma spared_trans d1 d2 d3 :
  spared env base sub d1 d2 -> spared env base sub d2 d3 -> spared env base sub d1 d3.
Proof.
  intros H1 H2 U1. destruct (H1 U1) as (U2 & A1 & S1 & F1).
  destruct (H2 U2) as (U3 & A2 & S2 & F2). repeat split; try apply U3; auto.
Qed.

Lemma spared_same d d' :
  art d' = art d -> songs d' = songs d -> folders d' = folders d -> spared env base sub d d'.
Proof. intros Ha Hs Hf U. unfold unique_ids. rewrite Ha, Hs, Hf. split; [done|]. by repeat split. Qed.

Lemma spared_art doomed q count d r d' :
  (forall x, stays base sub (Art.FileName x) (gone env (Art.FileName x)) = true ->
             q x = true -> doomed_now doomed x = false) ->
  removeEach doomed (Art_Delete (faults env)) (List.filter q (art d)) count d = (r, d') ->
  spared env base sub d d'.
Proof.
  intros Hsel H (Ua & Us & Uf).
  pose proof (removeEach_frame _ besides_art _ _ _ _ _ _ (Art_Delete_frame (faults env)) H) as F.
  inversion F as [[F1 F2 F3 F4]]. unfold unique_ids. rewrite F1, F4.
  split; [|split; [|by split]].
  - split; [|done].
    by apply (removeEach_NoDup art Art.ID _ (Art_Delete_rows (faults env)) _ _ _ _ _ _ H).
  - intros x Hx Hst.
    apply (removeEach_spares_queried art Art.ID _ (Art_Delete_rows (faults env))
             _ _ _ _ _ _ _ Ua H Hx). auto.
Qed.

Lemma spared_songs doomed q count d r d' :
  (forall x, stays base sub (Song.FileName x) (gone env (Song.FileName x)) = true ->
             q x = true -> doomed_now doomed x = false) ->
  removeEach doomed (Song_Delete (faults env)) (List.filter q (songs d)) count d = (r, d') ->
  spared env base sub d d'.
Proof.
  intros Hsel H (Ua & Us & Uf).
  pose proof (removeEach_frame _ besides_songs _ _ _ _ _ _ (Song_Delete_frame (faults env)) H)
    as F.
  inversion F as [[F1 F2 F3 F4]]. unfold unique_ids. rewrite F1, F4.
  split; [|split; [done|split; [|done]]].
  - split; [done|]. split; [|done].
    by apply (removeEach_NoDup songs Song.ID _ (Song_Delete_rows (faults env)) _ _ _ _ _ _ H).
  - intros x Hx Hst.
    apply (removeEach_spares_queried songs Song.ID _ (Song_Delete_rows (faults env))
             _ _ _ _ _ _ _ Us H Hx). auto.
Qed.

Lemma spared_folders doomed q count d r d' :
  (forall x, stays base sub (Folder.Path x) (empty_dir env x) = true ->
             q x = true -> doomed_now doomed x = false) ->
  removeEach doomed (Folder_Delete (faults env)) (List.filter q (folders d)) count d = (r, d') ->
  spared env base sub d d'.
Proof.
  intros Hsel H (Ua & Us & Uf).
  pose proof (removeEach_frame _ besides_folders _ _ _ _ _ _ (Folder_Delete_frame (faults env)) H)
    as F.
  inversion F as [[F1 F2 F3 F4]]. unfold unique_ids. rewrite F3, F4.
  split; [|split; [done|split; [done|]]].
  - split; [done|]. split; [done|].
    by apply (removeEach_NoDup folders Folder.ID _ (Folder_Delete_rows (faults env))
                _ _ _ _ _ _ H).
  - intros x Hx Hst.
    apply (removeEach_spares_queried folders Folder.ID _ (Folder_Delete_rows (faults env))
             _ _ _ _ _ _ _ Uf H Hx). auto.
Qed.

End Spared.

(** Chains what the calls of a phase have spared, up to the store the
    phase has left. *)
Ltac spared_chain :=
  repeat match goal with
  | E : invoke _ _ _ _ = (Ok _, _) |- _ => apply query_passes in E as (_ & -> & ->)
  | E : invoke _ _ _ _ = (Err _, _) |- _ => apply query_inv in E as [-> _]
  end;
  repeat match goal with
  | |- spared _ _ _ ?d ?d => apply spared_refl
  | |- spared _ _ _ ?d (record_call ?c ?d1) =>
      apply (spared_trans _ _ _ d d1); [|by apply spared_same]
  | E : removeEach _ (Art_Delete _) _ _ ?d1 = (_, ?d2) |- spared _ _ _ ?d ?d2 =>
      apply (spared_trans _ _ _ d d1);
      [|refine (spared_art _ _ _ _ _ _ _ _ _ _ E);
        intros x [Hb Hg]%stays_true Hq; first [exact (Hg Hq) | by rewrite Hb in Hq]];
      clear E
  | E : removeEach _ (Song_Delete _) _ _ ?d1 = (_, ?d2) |- spared _ _ _ ?d ?d2 =>
      apply (spared_trans _ _ _ d d1);
      [|refine (spared_songs _ _ _ _ _ _ _ _ _ _ E);
        intros x [Hb Hg]%stays_true Hq; first [exact (Hg Hq) | by rewrite Hb in Hq]];
      clear E
  | E : removeEach _ (Folder_Delete _) _ _ ?d1 = (_, ?d2) |- spared _ _ _ ?d ?d2 =>
      apply (spared_trans _ _ _ d d1);
      [|refine (spared_folders _ _ _ _ _ _ _ _ _ _ E);
        intros x [Hb Hg]%stays_true Hq; first [exact (Hg Hq) | by rewrite Hb in Hq]];
      clear E
  end.

Section OrphanScanSpares.
Variable env : Env.
Variables base sub : string.

Lemma baseEviction_spared d r d1 :
  baseEviction env base d = (r, d1) -> spared env base sub d d1.
Proof.
  unfold baseEviction. destruct (String.eqb base ""); [intros [= _ <-]; apply spared_refl|].
  unfold DB_ArtNotInPath, DB_SongsNotInPath, DB_FoldersNotInPath.
  intros H. repeat phase_step H; inversion H; subst; clear H; spared_chain.
Qed.

Lemma existenceCheck_spared counts d r d2 :
  existenceCheck env (checked base sub) counts d = (r, d2) -> spared env base sub d d2.
Proof.
  unfold existenceCheck. destruct counts as [[a s] f].
  unfold DB_ArtInPath, DB_SongsInPath, DB_FoldersInPath.
  intros H. repeat phase_step H; inversion H; subst; clear H; spared_chain.
Qed.

Lemma cascadingPurge_spared d r d' : cascadingPurge env d = (r, d') -> spared env base sub d d'.
Proof.
  unfold cascadingPurge, DB_PurgeOrphanAlbums, DB_PurgeOrphanArtists, invoke.
  destruct (faults env PurgeOrphanAlbums); [intros [= _ <-]; by apply spared_same|]. simpl.
  destruct (faults env PurgeOrphanArtists); intros [= _ <-]; by apply spared_same.
Qed.

(** X14.  Whatever an orphan scan returns, and wherever it stops, it has
    deleted no art, song or folder of a store of distinct identities
    that is under the base folder and, if under the subfolder checked,
    still on the disk: a file that is there, a directory that holds
    items. *)
Theorem OrphanScan_spares d :
  unique_ids d ->
  let d' := (OrphanScan env base sub d).2 in
  (forall x, In x (art d) -> in_path base (Art.FileName x) = true ->
     (in_path (checked base sub) (Art.FileName x) = true -> gone env (Art.FileName x) = false) ->
     In x (art d')) /\
  (forall x, In x (songs d) -> in_path base (Song.FileName x) = true ->
     (in_path (checked base sub) (Song.FileName x) = true ->
      gone env (Song.FileName x) = false) ->
     In x (songs d')) /\
  (forall x, In x (folders d) -> in_path base (Folder.Path x) = true ->
     (in_path (checked base sub) (Folder.Path x) = true -> empty_dir env x = false) ->
     In x (folders d')).
Proof.
  intros U.
  assert (spared env base sub d (OrphanScan env base sub d).2) as H.
  { unfold OrphanScan.
    destruct (baseEviction env base d) as [[counts|e] d1] eqn:E1;
      apply baseEviction_spared in E1; [|done].
    fold (checked base sub).
    destruct (existenceCheck env (checked base sub) counts d1) as [[[[a s] f]|e] d2] eqn:E2;
      apply existenceCheck_spared in E2; [|by eapply spared_trans].
    destruct (cascadingPurge env d2) as [[[na nr]|e] d3] eqn:E3;
      apply cascadingPurge_spared in E3; simpl;
      (eapply spared_trans; [exact E1|]); by eapply spared_trans. }
  destruct (H U) as (_ & Ha & Hs & Hf).
  repeat split; intros x Hx Hb Hg; [apply Ha|apply Hs|apply Hf]; try done;
    by apply stays_true.
Qed.
End OrphanScanSpares.

Lemma OrphanScan_leaves_witness :
  let d' := (OrphanScan Stale.env "/music" "" Stale.db).2 in
  unique_ids Stale.db /\
  OrphanScan Stale.env "/music" "" Stale.db = ((5, None), d') /\
  forall x, In x (songs d') <->
    In x (songs Stale.db) /\ in_path "/music" (Song.FileName x) = true /\
    (in_path (checked "/music" "") (Song.FileName x) = true ->
     gone Stale.env (Song.FileName x) = false).
Proof.
  intros d'.
  assert (OrphanScan Stale.env "/music" "" Stale.db = ((5, None), d')) as H
    by (vm_compute; reflexivity).
  split; [apply Stale_unique_ids|]. split; [exact H|].
  exact (proj1 (proj2 (OrphanScan_leaves Stale.env "/music" "" Stale.db 5 d'
                         Stale_unique_ids H))).
Defined.

Lemma OrphanScan_count_witness :
  unique_ids Stale.db /\
  OrphanScan Stale.env "/music" "" Stale.db
    = ((5, None), (OrphanScan Stale.env "/music" "" Stale.db).2) /\
  5 = added (OrphanScan Stale.env "/music" "" Stale.db).2 Stale.db.
Proof.
  split; [apply Stale_unique_ids|]. split; [vm_compute; reflexivity|].
  apply (OrphanScan_count Stale.env "/music" "").
  - apply Stale_unique_ids.
  - vm_compute. reflexivity.
Defined.


Lemma OrphanScan_spares_witness :
  unique_ids Stale.db /\
  In (Art.mk 1 "/music/cover.jpg" 12288 100)
     (art (OrphanScan Stale.env "/music" "" Stale.db).2).
Proof.
  split; [apply Stale_unique_ids|].
  apply (proj1 (OrphanScan_spares Stale.env "/music" "" Stale.db Stale_unique_ids)).
  - left. reflexivity.
  - vm_compute. reflexivity.
  - intros _. vm_compute. reflexivity.
Defined.

(** ** A media scan that is halted, or given a path it cannot read *)

Lemma MediaScan_halted_witness :
  let visited := firstn 4 (Walk Interrupted.env "/music") in
  let st := (walk Interrupted.env 0 visited (initState emptyDB)).2 in
  MediaScan Interrupted.env "/music" emptyDB = ((0, Some haltedByChannel), db st) /\
  map Art.FileName (art (db st)) = ["/music/ArtistA/Album1/cover.jpg"] /\ songs (db st) = [].
Proof.
  intros visited st. split; [|split; vm_compute; reflexivity].
  apply (MediaScan_halted Interrupted.env "/music" emptyDB visited
           ("/music/ArtistA/Album1/track1.mp3",
            Some {| Name := "track1.mp3"; Size := 5000000; ModTime := 100; IsDir := false |})
           [] st).
  - vm_compute. reflexivity.
  - vm_compute. reflexivity.
  - vm_compute. reflexivity.
Defined.

Section InvalidPath.
Variable env : Env.

(** X7.  A media scan whose walk hands the callback an item it could not
    read, with no file information, returns the invalid-path error that
    names the item, with the count zero, and leaves the store as the
    calls on the items before left it. *)
Theorem MediaScan_invalid_path root d visited p rest st :
  Walk env root = visited ++ (p, None) :: rest ->
  walk env 0 visited (initState d) = (None, st) ->
  haltWalk env (length visited) = false ->
  MediaScan env root d
  = ((0, Some (ErrMsg (String.append "media scan: invalid path: " p))), db st).
Proof.
  intros Hw Hv Hh. unfold MediaScan. rewrite Hw, walk_app, Hv. simpl.
  unfold walkFn. by rewrite Hh.
Qed.
End InvalidPath.

Lemma MediaScan_invalid_path_witness :
  MediaScan Library.env "/nowhere" Grown.indexed
  = ((0, Some (ErrMsg "media scan: invalid path: /nowhere")), Grown.indexed).
Proof.
  apply (MediaScan_invalid_path Library.env "/nowhere" Grown.indexed [] "/nowhere" []
           (initState Grown.indexed)).
  - vm_compute. reflexivity.
  - reflexivity.
  - reflexivity.
Defined.

Section ScanTwice.
Variable env : Env.
Hypothesis no_fault : faults env = no_faults.

(** X2.  A media scan that fails no call and returns no error, from a store
    whose songs have distinct identities, then a second scan of the same
    tree on the store the first has left: the second returns the count
    zero, leaves every record as it is, and calls the store for loads
    only. *)
Theorem MediaScan_twice root d n d1 :
  List.NoDup (map Song.ID (songs d)) ->
  MediaScan env root d = ((n, None), d1) ->
  exists e d2,
    MediaScan env root d1 = ((0, e), d2) /\ same_records d1 d2 /\
    exists calls, calls_between d1 d2 calls /\ Forall (fun c => is_load c = true) calls.
Proof.
  intros Hnd H. apply MediaScan_inv in H as (st & Hw & Ha & _).
  assert (coherent (initState d)) as Hc.
  { repeat split; try done; simpl; intros ? ?; by rewrite lookup_empty. }
  destruct (walk_first env no_fault _ _ _ _ Hc Hw) as ((_ & _ & _ & Hnd') & _ & Hst).
  assert (forall item, In item (Walk env root) -> item_indexed env d1 item = true) as Hidx.
  { intros item Hin. apply (grows_indexed env (db st)); [|by apply Hst].
    by apply (associateArt_grows env (artFiles st) _ None). }
  clear Hw Ha Hst Hc. unfold MediaScan.
  destruct (walk env 0 (Walk env root) (initState d1)) as [o st2] eqn:Hw.
  assert (quiet d1 st2) as (Hr & Hj & Hn & Hf & _).
  { revert Hw. apply (walk_invariant env (quiet d1)); [|apply quiet_init].
    intros i p info s r s' Hin Hs.
    apply (walkFn_quiet env d1 (fun c _ => f_equal (fun plan => plan c) no_fault)); [|done].
    by apply Hidx. }
  destruct o as [e|].
  - by exists (Some e), (db st2).
  - rewrite Hf. simpl. exists None, (db st2). split; [|done].
    unfold changes. destruct Hn as (-> & -> & -> & -> & -> & ->). done.
Qed.
End ScanTwice.

Lemma MediaScan_twice_witness :
  let d1 := (MediaScan Library.env "/music" emptyDB).2 in
  faults Library.env = no_faults /\
  List.NoDup (map Song.ID (songs emptyDB)) /\
  MediaScan Library.env "/music" emptyDB = ((7, None), d1) /\
  exists e d2,
    MediaScan Library.env "/music" d1 = ((0, e), d2) /\ same_records d1 d2 /\
    exists calls, calls_between d1 d2 calls /\ Forall (fun c => is_load c = true) calls.
Proof.
  intros d1. split; [reflexivity|]. split; [constructor|]. split; [vm_compute; reflexivity|].
  apply (MediaScan_twice Library.env eq_refl "/music" emptyDB 7 d1).
  - constructor.
  - vm_compute. reflexivity.
Defined.

(** ** A media scan that fails no call indexes no path twice *)

Lemma NoDup_key_snoc {A K : Type} (key : A -> K) l x :
  List.NoDup (map key l) -> ~ In (key x) (map key l) -> List.NoDup (map key (l ++ [x])).
Proof.
  intros Hnd Hx. rewrite List.map_app. simpl.
  apply List.NoDup_app; [done|repeat constructor; by intros []|].
  by intros y Hy [<-|[]].
Qed.

Lemma find_None_key {A : Type} (key : A -> string) l p :
  find (fun x => String.eqb (key x) p) l = None -> ~ In p (map key l).
Proof.
  intros Hnone (x & <- & Hx)%in_map_iff.
  apply (find_none _ _ Hnone) in Hx. by rewrite String.eqb_refl in Hx.
Qed.

Lemma find_None_album l a t :
  find (fun x => (Album.ArtistID x =? a) && String.eqb (Album.Title x) t) l = None ->
  ~ In (a, t) (map (fun x => (Album.ArtistID x, Album.Title x)) l).
Proof.
  intros Hnone (x & [= <- <-] & Hx)%in_map_iff.
  apply (find_none _ _ Hnone) in Hx. by rewrite Z.eqb_refl, String.eqb_refl in Hx.
Qed.

Section Keys.
Variable env : Env.
Hypothesis no_fault : faults env = no_faults.

Lemma resolveFolder_keys currPath info st :
  List.NoDup (map Folder.Path (folders (db st))) ->
  List.NoDup (map Folder.Path (folders (db (resolveFolder env currPath info st).2))).
Proof.
  intros Hnd.
  unfold resolveFolder, bind, gets, store, ret, Return, modify, Folder_Load, Folder_Save, invoke.
  rewrite no_fault. unfold no_faults.
  change (Folder.Path (Folder.withPath ?p Folder.new)) with p.
  fold (folderPath currPath info). fold (parentPath currPath info).
  destruct (folderCache st !! folderPath currPath info) as [f|] eqn:Hc; simpl; [done|].
  change (folderAt (record_call ?c ?x) ?p) with (folderAt x p).
  destruct (folderAt (db st) (folderPath currPath info)) as [f|] eqn:Hat; simpl; [done|].
  destruct (ReadDir env (folderPath currPath info)) as [[|x l]|e] eqn:Hread; simpl; try done.
  change (folderAt (record_call ?c ?x) ?p) with (folderAt x p).
  destruct (folderAt (db st) (parentPath currPath info)) as [pf|]; simpl.
  all: apply NoDup_key_snoc; [done|]; simpl; by apply find_None_key.
Qed.

Lemma scanArt_keys currPath info folder st :
  List.NoDup (map Art.FileName (art (db st))) ->
  List.NoDup (map Art.FileName (art (db (scanArt env currPath info folder st).2))).
Proof.
  intros Hnd.
  unfold scanArt, bind, store, Return, modify, Art_Load, Art_Save, invoke.
  rewrite no_fault. unfold no_faults. simpl.
  change (artAt (record_call ?c ?x) ?p) with (artAt x p).
  destruct (artAt (db st) currPath) as [a|] eqn:Hat; simpl; [done|].
  destruct (Size info =? 0) eqn:Hz; simpl; [done|].
  apply NoDup_key_snoc; [done|]. simpl. by apply find_None_key.
Qed.

Lemma resolveArtist_keys artist st :
  List.NoDup (map Artist.Title (artists (db st))) ->
  List.NoDup (map Artist.Title (artists (db (resolveArtist env artist st).2))).
Proof.
  intros Hnd.
  unfold resolveArtist, bind, gets, store, ret, modify, Artist_Load, Artist_Save, invoke.
  rewrite no_fault. unfold no_faults. simpl.
  destruct (artistCache st !! Artist.Title artist) as [a|] eqn:Hc; simpl; [done|].
  change (artistNamed (record_call ?c ?x) ?p) with (artistNamed x p).
  destruct (artistNamed (db st) (Artist.Title artist)) as [a|] eqn:Hat; simpl; [done|].
  apply NoDup_key_snoc; [done|]. simpl. by apply find_None_key.
Qed.

Lemma resolveAlbum_keys album st :
  List.NoDup (map (fun a => (Album.ArtistID a, Album.Title a)) (albums (db st))) ->
  List.NoDup (map (fun a => (Album.ArtistID a, Album.Title a))
                  (albums (db (resolveAlbum env album st).2))).
Proof.
  intros Hnd.
  unfold resolveAlbum, bind, gets, store, ret, modify, Album_Load, Album_Save, invoke.
  rewrite no_fault. unfold no_faults. simpl.
  destruct (albumCache st !! albumCacheKey album) as [a|] eqn:Hc; simpl; [done|].
  change (albumOf (record_call ?c ?x) ?p ?q) with (albumOf x p q).
  destruct (albumOf (db st) (Album.ArtistID album) (Album.Title album)) as [a|] eqn:Hat;
    simpl; [done|].
  apply NoDup_key_snoc; [done|]. simpl. by apply find_None_album.
Qed.

Lemma reconcileSong_keys song st :
  List.NoDup (map Song.ID (songs (db st))) ->
  List.NoDup (map Song.FileName (songs (db st))) ->
  List.NoDup (map Song.ID (songs (db (reconcileSong env song st).2))) /\
  List.NoDup (map Song.FileName (songs (db (reconcileSong env song st).2))).
Proof.
  intros Hid Hnd.
  unfold reconcileSong, bind, store, ret, modify, Song_Load, Song_Save, Song_Update, invoke.
  rewrite no_fault. unfold no_faults. simpl.
  change (songAt (record_call ?c ?x) ?p) with (songAt x p).
  destruct (songAt (db st) (Song.FileName song)) as [stored|] eqn:Hat; simpl.
  - destruct (Song.LastModified song >? Song.LastModified stored) eqn:Hnew; simpl; [|done].
    pose proof Hat as Hin. apply find_some in Hin as [Hin Hname%String.eqb_eq].
    split; [by rewrite map_ID_update|].
    replace (map Song.FileName
               (map (fun x => if Song.ID x =? Song.ID stored
                              then Song.withID (Song.ID stored) song else x) (songs (db st))))
      with (map Song.FileName (songs (db st))); [done|].
    rewrite map_map. apply map_ext_in. intros x Hx.
    destruct (Song.ID x =? Song.ID stored) eqn:E; [|done]. apply Z.eqb_eq in E.
    rewrite (NoDup_map_inj Song.ID (songs (db st)) x stored) by done. simpl. congruence.
  - split.
    + rewrite List.map_app. simpl.
      apply List.NoDup_app; [done|repeat constructor; by intros []|].
      intros x Hx [<-|[]]. by apply nextID_fresh in Hx.
    + apply NoDup_key_snoc; [done|]. simpl. by apply find_None_key.
Qed.
End Keys.

Section KeysWalk.
Variable env : Env.
Hypothesis no_fault : faults env = no_faults.

Lemma resolveFolder_well_keyed currPath info st :
  well_keyed (db st) -> well_keyed (db (resolveFolder env currPath info st).2).
Proof.
  intros (Hid & Hf & Hr & Hl & Hs & Ha).
  pose proof (resolveFolder_keys env no_fault currPath info st Hf) as K.
  pose proof (resolveFolder_frame env currPath info st) as F.
  unfold beside_folders in F. pair_split F.
  unfold well_keyed, distinct_keys. repeat split; congruence.
Qed.

Lemma scanArt_well_keyed currPath info folder st :
  well_keyed (db st) -> well_keyed (db (scanArt env currPath info folder st).2).
Proof.
  intros (Hid & Hf & Hr & Hl & Hs & Ha).
  pose proof (scanArt_keys env no_fault currPath info folder st Ha) as K.
  pose proof (scanArt_frame env currPath info folder st) as F.
  unfold beside_art in F. pair_split F.
  unfold well_keyed, distinct_keys. repeat split; congruence.
Qed.

Lemma resolveArtist_well_keyed artist st :
  well_keyed (db st) -> well_keyed (db (resolveArtist env artist st).2).
Proof.
  intros (Hid & Hf & Hr & Hl & Hs & Ha).
  pose proof (resolveArtist_keys env no_fault artist st Hr) as K.
  pose proof (resolveArtist_frame env artist st) as F.
  unfold beside_artists in F. pair_split F.
  unfold well_keyed, distinct_keys. repeat split; congruence.
Qed.

Lemma resolveAlbum_well_keyed album st :
  well_keyed (db st) -> well_keyed (db (resolveAlbum env album st).2).
Proof.
  intros (Hid & Hf & Hr & Hl & Hs & Ha).
  pose proof (resolveAlbum_keys env no_fault album st Hl) as K.
  pose proof (resolveAlbum_frame env album st) as F.
  unfold beside_albums in F. pair_split F.
  unfold well_keyed, distinct_keys. repeat split; congruence.
Qed.

Lemma reconcileSong_well_keyed song st :
  well_keyed (db st) -> well_keyed (db (reconcileSong env song st).2).
Proof.
  intros (Hid & Hf & Hr & Hl & Hs & Ha).
  pose proof (reconcileSong_keys env no_fault song st Hid Hs) as [K1 K2].
  pose proof (reconcileSong_frame env song st) as F.
  unfold beside_songs in F. pair_split F.
  unfold well_keyed, distinct_keys. repeat split; congruence.
Qed.

Lemma indexSong_well_keyed song st :
  well_keyed (db st) -> well_keyed (db (indexSong env song st).2).
Proof.
  intros H.
  destruct (indexSong_run env song st) as (artist & st1 & album & st2 & E1 & E2 & ->). simpl.
  apply reconcileSong_well_keyed.
  change (well_keyed (db st2)).
  pose proof (resolveAlbum_well_keyed
    (Album.withArtistID (Artist.ID artist) (AlbumFromSong song)) (cacheArtist artist st1)) as A2.
  rewrite E2 in A2. apply A2.
  change (well_keyed (db st1)).
  pose proof (resolveArtist_well_keyed (ArtistFromSong song) st) as A1.
  rewrite E1 in A1. by apply A1.
Qed.

Lemma scanSong_well_keyed currPath info folder st :
  well_keyed (db st) -> well_keyed (db (scanSong env currPath info folder st).2).
Proof.
  intros H. unfold scanSong, SongFromFile.
  destruct (taglib_Read env currPath) as [file|e]; [|done].
  destruct (songTagsError env file); [done|].
  cbn [Song.FileSize Song.withFile].
  destruct (Size info =? 0); [done|].
  destruct (FileTypeMap env !! path_Ext (Name info)); [|done].
  by apply indexSong_well_keyed.
Qed.

Lemma walkFn_well_keyed i currPath info st r st' :
  run (walkFn env i currPath info) st = (r, st') -> well_keyed (db st) -> well_keyed (db st').
Proof.
  unfold walkFn. destruct (haltWalk env i); [by intros [= _ <-]|].
  destruct info as [info|]; [|by intros [= _ <-]].
  unfold run, bind at 1. intros H Hk.
  pose proof (resolveFolder_well_keyed currPath info st Hk) as A1.
  destruct (resolveFolder env currPath info st) as [[folder|r1] st1]; simpl in A1.
  2:{ by injection H as _ <-. }
  unfold bind at 1, modify at 1 in H.
  pose proof (scanArt_well_keyed currPath info folder (cacheFolder folder st1) A1) as A2.
  pose proof (scanSong_well_keyed currPath info folder (cacheFolder folder st1) A1) as A3.
  destruct (negb (Has (mediaSet env) (path_Ext currPath)) &&
            negb (Has (artSet env) (path_Ext currPath))).
  { by injection H as _ <-. }
  destruct (Has (artSet env) (path_Ext currPath)).
  - destruct (scanArt env currPath info folder (cacheFolder folder st1)) as [[[]|r2] st2];
      by injection H as _ <-.
  - destruct (scanSong env currPath info folder (cacheFolder folder st1)) as [[[]|r2] st2];
      by injection H as _ <-.
Qed.

(** X8.  A media scan that fails no call, of a store whose songs have
    distinct identities and whose records have distinct keys, leaves a
    store whose records have distinct keys: it saves no folder, artist,
    album, song or art that the store holds already. *)
Theorem MediaScan_distinct_keys root d :
  List.NoDup (map Song.ID (songs d)) -> distinct_keys d ->
  distinct_keys (MediaScan env root d).2.
Proof.
  intros Hid Hk. unfold MediaScan.
  destruct (walk env 0 (Walk env root) (initState d)) as [o st] eqn:Hw.
  assert (well_keyed (db st)) as (Hid' & Hk').
  { revert Hw. apply (walk_invariant env (fun st => well_keyed (db st))); [|by split].
    intros i p info s r s' _ Hs Hrun. by eapply walkFn_well_keyed. }
  destruct o as [e|]; [done|].
  destruct (associateArt env (artFiles st) (db st)) as [o d'] eqn:Ha.
  pose proof (associateArt_tables env _ _ _ _ Ha) as (Hf & Hr & Hl & Hc).
  pose proof (associateArt_keys env _ _ _ _ Hid' Ha) as Hs.
  apply (f_equal (map fst)) in Hs. rewrite !map_map in Hs. simpl in Hs.
  assert (distinct_keys d') as Hd'.
  { destruct Hk' as (K1 & K2 & K3 & K4 & K5). unfold distinct_keys.
    assert (map Song.FileName (songs d') = map Song.FileName (songs (db st))) as Hs'
      by exact Hs.
    by rewrite Hf, Hr, Hl, Hc, Hs'. }
  by destruct o.
Qed.
End KeysWalk.

Lemma MediaScan_distinct_keys_witness :
  faults Grown.env = no_faults /\
  distinct_keys (MediaScan Grown.env "/music" Grown.indexed).2.
Proof.
  split; [reflexivity|].
  apply (MediaScan_distinct_keys Grown.env eq_refl "/music" Grown.indexed).
  - vm_compute. repeat (apply List.NoDup_cons; [intros Hin; simpl in Hin; intuition discriminate|]).
    apply List.NoDup_nil.
  - unfold distinct_keys. vm_compute.
    repeat split;
      repeat (apply List.NoDup_cons; [intros Hin; simpl in Hin; intuition discriminate|]);
      apply List.NoDup_nil.
Defined.

(** ** The qualities [NewMP3Transcoder] accepts *)

Section TranscodeFacts.
Import strconv Transcode.

Lemma append_empty_l s : String.append "" s = s.
Proof. reflexivity. Qed.

Lemma digits_zeros k s : digits (String.append (zeros k) s) 0 = digits s 0.
Proof. induction k as [|k IH]; simpl; [done|]. exact IH. Qed.

(** The value read grows with every digit. *)
Lemma digits_bounds s : forall acc n,
  0 <= acc -> digits s acc = Some n ->
  acc * 10 ^ Z.of_nat (String.length s) <= n < (acc + 1) * 10 ^ Z.of_nat (String.length s).
Proof.
  induction s as [|c s IH]; intros acc n Hacc H.
  - injection H as <-. simpl. lia.
  - simpl in H. destruct (is_digit c) eqn:Hc; [|done].
    unfold is_digit in Hc. apply andb_prop in Hc as [H1%Nat.leb_le H2%Nat.leb_le].
    apply IH in H; [|lia].
    cbn [String.length]. rewrite Nat2Z.inj_succ, Z.pow_succ_r by lia.
    assert (0 < 10 ^ Z.of_nat (String.length s)) by (apply Z.pow_pos_nonneg; lia).
    nia.
Qed.

(** Leading zeros set apart, what is left starts with another digit. *)
Lemma digits_leading s : forall n,
  digits s 0 = Some n -> 0 < n ->
  exists k c rest,
    s = String.append (zeros k) (String c rest) /\
    is_digit c = true /\ (49 <= nat_of_ascii c)%nat /\
    digits rest (Z.of_nat (nat_of_ascii c - 48)) = Some n.
Proof.
  induction s as [|c s IH]; intros n H Hn; [injection H as <-; lia|].
  simpl in H. destruct (is_digit c) eqn:Hc; [|done].
  destruct (Nat.eq_dec (nat_of_ascii c) 48%nat) as [E|E].
  - rewrite E in H. simpl in H. destruct (IH n H Hn) as (k & c' & rest & -> & ? & ? & ?).
    exists (S k), c', rest. split; [|done]. simpl. f_equal.
    rewrite <- (ascii_nat_embedding c), E. reflexivity.
  - exists 0%nat, c, s. split; [done|]. split; [done|]. split; [|done].
    unfold is_digit in Hc. apply andb_prop in Hc as [H1%Nat.leb_le _]. lia.
Qed.

Lemma digit_char (c : ascii) (d : nat) :
  nat_of_ascii c = (48 + d)%nat -> c = ascii_of_nat (48 + d).
Proof. intros H. by rewrite <- (ascii_nat_embedding c), H. Qed.

(** The digits that read as one of the four bitrates: zeros, then the
    bitrate as it is written. *)
Lemma digits_cbr s n :
  digits s 0 = Some n -> In n cbrQualities ->
  exists k v, In v ["128"; "192"; "256"; "320"] /\ s = String.append (zeros k) v /\
              digits v 0 = Some n.
Proof.
  intros H Hn.
  assert (128 <= n <= 320) as Hr by (simpl in Hn; lia).
  destruct (digits_leading s n H) as (k & c1 & rest & -> & D1 & L1 & H1); [lia|].
  exists k.
  unfold is_digit in D1. apply andb_prop in D1 as [_ U1%Nat.leb_le].
  pose proof (digits_bounds rest (Z.of_nat (nat_of_ascii c1 - 48)) n ltac:(lia) H1) as B.
  destruct rest as [|c2 [|c3 [|c4 rest]]].
  - simpl in B. lia.
  - simpl in B. lia.
  - simpl in H1.
    destruct (is_digit c2) eqn:D2; [|done]. destruct (is_digit c3) eqn:D3; [|done].
    injection H1 as H1.
    unfold is_digit in D2, D3.
    apply andb_prop in D2 as [L2%Nat.leb_le U2%Nat.leb_le].
    apply andb_prop in D3 as [L3%Nat.leb_le U3%Nat.leb_le].
    assert (exists d1 d2 d3,
              nat_of_ascii c1 = (48 + d1)%nat /\ nat_of_ascii c2 = (48 + d2)%nat /\
              nat_of_ascii c3 = (48 + d3)%nat /\ (d1 <= 9)%nat /\ (d2 <= 9)%nat /\
              (d3 <= 9)%nat /\
              n = Z.of_nat d1 * 100 + Z.of_nat d2 * 10 + Z.of_nat d3)
      as (d1 & d2 & d3 & E1 & E2 & E3 & ? & ? & ? & En).
    { exists (nat_of_ascii c1 - 48)%nat, (nat_of_ascii c2 - 48)%nat,
        (nat_of_ascii c3 - 48)%nat. repeat split; lia. }
    apply digit_char in E1, E2, E3. subst c1 c2 c3.
    simpl in Hn. destruct Hn as [Hn|[Hn|[Hn|[Hn|[]]]]]; subst n.
    + assert (d1 = 1 /\ d2 = 2 /\ d3 = 8)%nat as (-> & -> & ->) by lia.
      exists "128". split; [simpl; auto|]. by split.
    + assert (d1 = 1 /\ d2 = 9 /\ d3 = 2)%nat as (-> & -> & ->) by lia.
      exists "192". split; [simpl; auto|]. by split.
    + assert (d1 = 2 /\ d2 = 5 /\ d3 = 6)%nat as (-> & -> & ->) by lia.
      exists "256". split; [simpl; auto|]. by split.
    + assert (d1 = 3 /\ d2 = 2 /\ d3 = 0)%nat as (-> & -> & ->) by lia.
      exists "320". split; [simpl; auto|]. by split.
  - exfalso. cbn [String.length] in B. rewrite !Nat2Z.inj_succ in B.
    rewrite !Z.pow_succ_r in B by lia.
    assert (0 < 10 ^ Z.of_nat (String.length rest)) by (apply Z.pow_pos_nonneg; lia).
    nia.
Qed.

Lemma digits_nonneg s n : digits s 0 = Some n -> 0 <= n.
Proof. intros H. apply digits_bounds in H; lia. Qed.

Lemma cbr_fits bits n :
  10 <= bits -> In n cbrQualities ->
  (- 2 ^ (bits - 1) <=? n) && (n <=? 2 ^ (bits - 1) - 1) = true.
Proof.
  intros Hb Hn. assert (2 ^ 9 <= 2 ^ (bits - 1)) as Hp by (apply Z.pow_le_mono_r; lia).
  change (2 ^ 9) with 512 in Hp.
  apply andb_true_intro. split; [apply Z.leb_le|apply Z.leb_le]; simpl in Hn; lia.
Qed.

(** What [Atoi] reads as one of the four bitrates is written in the
    constant bitrate form. *)
Lemma Atoi_cbr bits q n : Atoi bits q = Some n -> In n cbrQualities -> cbr_form q.
Proof.
  intros H Hn. assert (0 < n) as Hpos by (simpl in Hn; lia).
  unfold Atoi in H. destruct q as [|c rest]; [done|].
  destruct (Ascii.eqb c "-") eqn:Eneg; cbn [orb] in H.
  { destruct rest as [|c' rest']; [done|].
    destruct (digits (String c' rest') 0) as [m|] eqn:D; [|done].
    apply digits_nonneg in D.
    destruct (_ && _); [|done]. injection H as H. lia. }
  destruct (Ascii.eqb c "+") eqn:Eplus.
  - apply Ascii.eqb_eq in Eplus as ->.
    destruct rest as [|c' rest']; [done|].
    destruct (digits (String c' rest') 0) as [m|] eqn:D; [|done].
    destruct (_ && _); [|done]. injection H as ->.
    destruct (digits_cbr _ _ D Hn) as (k & v & Hv & E & _).
    exists "+", k, v. split; [by right|]. split; [done|]. simpl. by rewrite E.
  - destruct (digits (String c rest) 0) as [m|] eqn:D; [|done].
    destruct (_ && _); [|done]. injection H as ->.
    destruct (digits_cbr _ _ D Hn) as (k & v & Hv & E & _).
    exists "", k, v. split; [by left|]. by split.
Qed.

(** What is written in the constant bitrate form, [Atoi] reads as one
    of the four bitrates, whatever the size of [int]. *)
Lemma cbr_form_Atoi bits q :
  10 <= bits -> cbr_form q -> exists n, Atoi bits q = Some n /\ In n cbrQualities.
Proof.
  intros Hb (sign & k & v & Hsign & Hv & ->).
  assert (exists n, digits v 0 = Some n /\ In n cbrQualities /\
                    exists c rest, v = String c rest /\ Ascii.eqb c "-" = false /\
                                   Ascii.eqb c "+" = false) as (n & Dv & Hn & c & rest & Ev & N1 & N2).
  { simpl in Hv. destruct Hv as [<-|[<-|[<-|[<-|[]]]]]; eexists; (split; [reflexivity|]);
      (split; [simpl; tauto|]); by eexists _, _. }
  exists n. split; [|done].
  assert (digits (String.append (zeros k) v) 0 = Some n) as D by (by rewrite digits_zeros).
  assert (exists c' rest', String.append (zeros k) v = String c' rest' /\
                           Ascii.eqb c' "-" = false /\ Ascii.eqb c' "+" = false)
    as (c' & rest' & E & M1 & M2).
  { destruct k as [|k]; simpl; [by exists c, rest|]. by eexists _, _. }
  destruct Hsign as [->| ->]; simpl.
  - rewrite E in D |- *.
    change (String.append "" (String c' rest')) with (String c' rest').
    unfold Atoi. cbv beta iota zeta. rewrite M1, M2. cbn [orb]. rewrite D. by rewrite (cbr_fits bits n Hb Hn).
  - rewrite E in D |- *.
    change (String.append "+" (String c' rest')) with (String "+" (String c' rest')).
    unfold Atoi. cbv beta iota zeta.
    change (Ascii.eqb "+" "-") with false. change (Ascii.eqb "+" "+") with true.
    cbn [orb]. cbv beta iota. rewrite !append_empty_l, D. by rewrite (cbr_fits bits n Hb Hn).
Qed.

Lemma vbr_Atoi bits q : In q vbrQualities -> Atoi bits q = None.
Proof. intros H. simpl in H. by destruct H as [<-|[<-|[<-|[<-|[<-|[<-|[]]]]]]]. Qed.

(** X16.  [NewMP3Transcoder] accepts a quality exactly when it is written as
    a constant bitrate (an optional plus sign, zeros, then 128, 192, 256
    or 320) or is one of v0, V0, v2, V2, v4, V4; the transcoder holds the
    constant bitrate as it was written, and the variable one in upper
    case. *)
Theorem NewMP3Transcoder_accepts bits q t :
  10 <= bits ->
  NewMP3Transcoder bits q = inl t <->
  (cbr_form q /\ t = {| mp3Options := MP3CBROptions q |}) \/
  (In q vbrQualities /\ t = {| mp3Options := MP3VBROptions (ToUpper q) |}).
Proof.
  intros Hb. unfold NewMP3Transcoder. split.
  - destruct (Atoi bits q) as [n|] eqn:A.
    + destruct (existsb (Z.eqb n) cbrQualities) eqn:Hin; [|done]. intros [= <-]. left.
      split; [|done]. apply (Atoi_cbr bits q n A).
      apply existsb_exists in Hin as (x & Hx & ->%Z.eqb_eq). done.
    + destruct (existsb (String.eqb q) vbrQualities) eqn:Hin; [|done]. intros [= <-]. right.
      split; [|done]. apply existsb_exists in Hin as (x & Hx & ->%String.eqb_eq). done.
  - intros [[Hq ->]|[Hq ->]].
    + destruct (cbr_form_Atoi bits q Hb Hq) as (n & -> & Hn).
      assert (existsb (Z.eqb n) cbrQualities = true) as ->; [|done].
      apply existsb_exists. exists n. split; [done|apply Z.eqb_refl].
    + rewrite (vbr_Atoi bits q Hq).
      assert (existsb (String.eqb q) vbrQualities = true) as ->; [|done].
      apply existsb_exists. exists q. split; [done|apply String.eqb_refl].
Qed.

(** X17.  The quality a transcoder holds makes the same transcoder again. *)
Theorem NewMP3Transcoder_again bits q t :
  NewMP3Transcoder bits q = inl t -> NewMP3Transcoder bits (quality_of t) = inl t.
Proof.
  unfold NewMP3Transcoder. destruct (Atoi bits q) as [n|] eqn:A.
  - destruct (existsb (Z.eqb n) cbrQualities) eqn:Hin; [|done]. intros [= <-].
    unfold quality_of. cbn [mp3Options]. by rewrite A, Hin.
  - destruct (existsb (String.eqb q) vbrQualities) eqn:Hin; [|done]. intros [= <-].
    apply existsb_exists in Hin as (x & Hx & ->%String.eqb_eq).
    simpl in Hx. by destruct Hx as [<-|[<-|[<-|[<-|[<-|[<-|[]]]]]]].
Qed.

End TranscodeFacts.

Lemma NewMP3Transcoder_accepts_witness :
  10 <= 64 /\
  (Transcode.NewMP3Transcoder 64 "+0320"
   = inl {| Transcode.mp3Options := Transcode.MP3CBROptions "+0320" |} <->
   (Transcode.cbr_form "+0320" /\
    {| Transcode.mp3Options := Transcode.MP3CBROptions "+0320" |}
    = {| Transcode.mp3Options := Transcode.MP3CBROptions "+0320" |}) \/
   (In "+0320" Transcode.vbrQualities /\
    {| Transcode.mp3Options := Transcode.MP3CBROptions "+0320" |}
    = {| Transcode.mp3Options := Transcode.MP3VBROptions (Transcode.ToUpper "+0320") |})).
Proof.
  split; [lia|]. apply (NewMP3Transcoder_accepts 64 "+0320"). lia.
Defined.

Lemma NewMP3Transcoder_again_witness :
  Transcode.NewMP3Transcoder 64 "v2"
  = inl {| Transcode.mp3Options := Transcode.MP3VBROptions "V2" |} /\
  Transcode.NewMP3Transcoder 64 "V2"
  = inl {| Transcode.mp3Options := Transcode.MP3VBROptions "V2" |}.
Proof.
  split; [reflexivity|].
  apply (NewMP3Transcoder_again 64 "v2"
           {| Transcode.mp3Options := Transcode.MP3VBROptions "V2" |}).
  reflexivity.
Defined.

(** ** The errors an orphan scan returns *)

Section RemoveErrors.
Context {A : Type}.
Variable plan : fault_plan.
Variable delete : A -> DB -> result unit * DB.
Variable name : A -> call.

Hypothesis delete_fails : forall a d e, (delete a d).1 = Err e -> plan (name a) = Some e.

(** The error that ends a loop is that of its test on an item, or that
    of the deletion of an item. *)
Lemma removeEach_error doomed items e : forall count d d',
  removeEach doomed delete items count d = (Err e, d') ->
  exists a, In a items /\ (doomed a = Err e \/ plan (name a) = Some e).
Proof.
  induction items as [|a items IH]; simpl; intros count d d' H; [done|].
  destruct (doomed a) as [[]|e0] eqn:Ea.
  - pose proof (delete_fails a d) as Hd.
    destruct (delete a d) as [[[]|e1] d1] eqn:E; simpl in Hd.
    + apply IH in H as (b & Hb & Hor). exists b. auto.
    + injection H as <- _. exists a. split; [by left|]. right. by apply Hd.
  - apply IH in H as (b & Hb & Hor). exists b. auto.
  - injection H as <- _. exists a. split; [by left|by left].
Qed.
End RemoveErrors.

Section OrphanScanErrors.
Variable env : Env.

Lemma Art_Delete_fails a d e :
  (Art_Delete (faults env) a d).1 = Err e -> faults env (DeleteArt a) = Some e.
Proof. unfold Art_Delete, invoke. destruct (faults env _); [by intros [= <-]|done]. Qed.

Lemma Song_Delete_fails a d e :
  (Song_Delete (faults env) a d).1 = Err e -> faults env (DeleteSong a) = Some e.
Proof. unfold Song_Delete, invoke. destruct (faults env _); [by intros [= <-]|done]. Qed.

Lemma Folder_Delete_fails a d e :
  (Folder_Delete (faults env) a d).1 = Err e -> faults env (DeleteFolder a) = Some e.
Proof. unfold Folder_Delete, invoke. destruct (faults env _); [by intros [= <-]|done]. Qed.

Lemma always_passes {A : Type} (a : A) e : always a <> Err e.
Proof. done. Qed.

Lemma missing_passes p e : missing env p <> Err e.
Proof. unfold missing. by destruct (Stat env p). Qed.

Lemma deserted_fails f e :
  deserted env f = Err e -> ReadDir env (Folder.Path f) = Err e /\ IsNotExist e = false.
Proof.
  unfold deserted. destruct (ReadDir env (Folder.Path f)) as [|e0]; [done|].
  destruct (IsNotExist e0) eqn:E; [done|]. by intros [= <-].
Qed.

(** The error of a failed phase step comes from the store, or from the
    listing of a directory. *)
Ltac orphan_error_step :=
  match goal with
  | E : invoke _ ?c _ _ = (Err ?e, _) |- orphan_error _ ?e =>
      left; exists c; split; [by auto|];
      revert E; unfold invoke; destruct (faults env c); [by intros [= <- _]|done]
  | E : removeEach _ (Art_Delete _) _ _ _ = (Err ?e, _) |- orphan_error _ ?e =>
      let a := fresh "a" in
      let Ha := fresh "Ha" in
      destruct (removeEach_error (faults env) _ DeleteArt Art_Delete_fails _ _ _ _ _ _ E)
        as (a & _ & [Ha|Ha]);
      [first [by apply always_passes in Ha | by apply missing_passes in Ha]
      |left; exists (DeleteArt a); by auto]
  | E : removeEach _ (Song_Delete _) _ _ _ = (Err ?e, _) |- orphan_error _ ?e =>
      let a := fresh "a" in
      let Ha := fresh "Ha" in
      destruct (removeEach_error (faults env) _ DeleteSong Song_Delete_fails _ _ _ _ _ _ E)
        as (a & _ & [Ha|Ha]);
      [first [by apply always_passes in Ha | by apply missing_passes in Ha]
      |left; exists (DeleteSong a); by auto]
  | E : removeEach _ (Folder_Delete _) _ _ _ = (Err ?e, _) |- orphan_error _ ?e =>
      let a := fresh "a" in
      let Ha := fresh "Ha" in
      destruct (removeEach_error (faults env) _ DeleteFolder Folder_Delete_fails _ _ _ _ _ _ E)
        as (a & _ & [Ha|Ha]);
      [first [by apply always_passes in Ha | right; exists a; by apply deserted_fails]
      |left; exists (DeleteFolder a); by auto]
  end.

Lemma baseEviction_error base d e d1 :
  baseEviction env base d = (Err e, d1) -> orphan_error env e.
Proof.
  unfold baseEviction. destruct (String.eqb base ""); [done|].
  unfold DB_ArtNotInPath, DB_SongsNotInPath, DB_FoldersNotInPath.
  intros H. repeat phase_step H; inversion H; subst; clear H; orphan_error_step.
Qed.

Lemma existenceCheck_error sub counts d e d2 :
  existenceCheck env sub counts d = (Err e, d2) -> orphan_error env e.
Proof.
  unfold existenceCheck. destruct counts as [[a s] f].
  unfold DB_ArtInPath, DB_SongsInPath, DB_FoldersInPath.
  intros H. repeat phase_step H; inversion H; subst; clear H; orphan_error_step.
Qed.

Lemma cascadingPurge_error d e d' : cascadingPurge env d = (Err e, d') -> orphan_error env e.
Proof.
  unfold cascadingPurge, DB_PurgeOrphanAlbums, DB_PurgeOrphanArtists, invoke.
  destruct (faults env PurgeOrphanAlbums) eqn:E1.
  { intros [= <- _]. left. exists PurgeOrphanAlbums. auto. }
  simpl. destruct (faults env PurgeOrphanArtists) eqn:E2; [|done].
  intros [= <- _]. left. exists PurgeOrphanArtists. auto.
Qed.

(** X15.  An orphan scan that returns an error returns the count zero with
    it, and the error is that of a path query, a deletion or a purge the
    store has failed, or that of the listing of the directory of a
    folder, other than its absence.  No error of [os.Stat] is returned:
    a file it cannot examine, for another reason than absence, stays in
    the store. *)
Theorem OrphanScan_errors base sub d n e d' :
  OrphanScan env base sub d = ((n, Some e), d') -> n = 0 /\ orphan_error env e.
Proof.
  unfold OrphanScan.
  destruct (baseEviction env base d) as [[counts|e1] d1] eqn:E1.
  2:{ intros [= <- <- _]. split; [done|]. by eapply baseEviction_error. }
  destruct (existenceCheck env _ counts d1) as [[[[a s] f]|e2] d2] eqn:E2.
  2:{ intros [= <- <- _]. split; [done|]. by eapply existenceCheck_error. }
  destruct (cascadingPurge env d2) as [[[na nr]|e3] d3] eqn:E3; [done|].
  intros [= <- <- _]. split; [done|]. by eapply cascadingPurge_error.
Qed.
End OrphanScanErrors.

Lemma OrphanScan_errors_witness :
  let env := treeEnv "/" Stale.music noTags
               (fun c => match c with
                         | DeleteSong _ => Some Failing.diskFull
                         | _ => None
                         end) never in
  OrphanScan env "/music" "" Stale.db
  = ((0, Some Failing.diskFull), (OrphanScan env "/music" "" Stale.db).2) /\
  (0 = 0 /\ orphan_error env Failing.diskFull).
Proof.
  intros env. split; [vm_compute; reflexivity|].
  apply (OrphanScan_errors env "/music" "" Stale.db 0 Failing.diskFull
           (OrphanScan env "/music" "" Stale.db).2).
  vm_compute. reflexivity.
Defined.

(** ** The stream handler *)

Section GetStream.
Import Api.
Variable srv : Server.

(** X18.  [GetStream] asks the store for a song only when the parameters have
    passed its checks: a version, if given, that the API supports, and
    an id that [strconv.Atoi] reads, which is the identity it asks for,
    once, before anything else.  Otherwise it renders an error of status
    400 and does nothing else. *)
Theorem GetStream_validates params :
  (exists message, GetStream srv params = [RenderError 400 message]) \/
  (exists pID id rest,
     GetStream srv params = Load id :: rest /\
     params !! "id" = Some pID /\ strconv.Atoi (intSize srv) pID = Some id /\
     (forall version, params !! "version" = Some version ->
                      Has (apiVersionSet srv) version = true) /\
     forall id', ~ In (Load id') rest).
Proof.
  unfold GetStream. cbv zeta.
  destruct (params !! "version") as [v|] eqn:Hv;
    [destruct (Has (apiVersionSet srv) v) eqn:Hh; simpl negb; cbv iota|].
  2:{ left. by eexists. }
  all: destruct (params !! "id") as [pID|] eqn:Hid; [|left; by eexists].
  all: destruct (strconv.Atoi (intSize srv) pID) as [id|] eqn:Hatoi; [|left; by eexists].
  all: right; eexists pID, id, _; split; [reflexivity|]; split; [done|]; split; [done|].
  all: split; [intros version Hversion; congruence|].
  all: intros id'; repeat case_match; simpl; intuition discriminate.
Qed.

(** X19.  [GetStream] answers every request once: it renders one error, or
    sends one stream, never both and never neither; and a stream it has
    opened is closed at the very end, whatever became of sending it. *)
Theorem GetStream_answers_once params :
  let events := GetStream srv params in
  length (List.filter is_answer events) = 1%nat /\
  (forall song, In (OpenStream song) events -> song_Stream srv song = None ->
                last events = Some (CloseStream song)) /\
  (forall song, In (CloseStream song) events ->
                In (OpenStream song) events /\ song_Stream srv song = None /\
                last events = Some (CloseStream song)).
Proof.
  unfold GetStream.
  cbv zeta.
  repeat case_match; simpl; (split; [reflexivity|]); split; intros song' Hin;
    intuition (try discriminate; try congruence).
Qed.
End GetStream.

(** ** The middleware that authenticates API calls *)

Section AuthenticateFacts.
Import Core.
Context {User Session Container : Type}.
Variable Error : authError Container -> string.
Variable IsDebug : bool.

(** X20.  The handler passes a call on exactly when [Authenticate] returned
    no error, of the client or of the server, and then after it has put
    the user and the session in the context, without writing to the
    response.  Otherwise the call stops there: the handler writes one
    body, the last thing it does, and a body of status 500 says
    "server error" and nothing of the error itself. *)
Theorem authenticate_guards (user : User) (session : Session)
    (clientErr serverErr : option (authError Container)) :
  let events := authenticate Error IsDebug user session clientErr serverErr in
  (In Next events <-> clientErr = None /\ serverErr = None) /\
  (In Next events -> events = [SetUser user; SetSession session; LogCall; Next]) /\
  (~ In Next events ->
   exists before body,
     events = before ++ [body] /\ is_body body = true /\
     Forall (fun e => is_body e = false) before) /\
  (forall code message, In (JSON 500 code message) events -> message = "server error").
Proof.
  unfold authenticate.
  destruct clientErr as [[c| | |m]|]; [| | | |destruct serverErr as [[c| | |m]|]];
    try destruct IsDebug; simpl.
  all: split; [split; [intros H; intuition discriminate|intros [? ?]; try discriminate; tauto]|].
  all: split; [intros H; try reflexivity; intuition discriminate|].
  all: split; [|intros code message H; intuition (try discriminate; congruence)].
  all: intros Hnot; try (exfalso; apply Hnot; tauto).
  all: try (by eexists [], _; repeat split).
  all: try (by eexists [_], _; repeat split; repeat constructor).
Qed.
End AuthenticateFacts.

(** ** A media scan that fails no call keeps the references of the store *)

(** The references of a store hold on in a store that has more records
    and whose songs are those of before, or refer to its records. *)
Lemma integrity_extend d d' :
  integrity d ->
  (exists l, folders d' = folders d ++ l /\
     forall f, In f l ->
       Folder.ParentID f = 0 \/ In (Folder.ParentID f) (map Folder.ID (folders d'))) ->
  (exists l, artists d' = artists d ++ l) ->
  (exists l, albums d' = albums d ++ l /\
     forall a, In a l -> In (Album.ArtistID a) (map Artist.ID (artists d'))) ->
  (exists l, art d' = art d ++ l) ->
  (forall s, In s (songs d') -> In s (songs d) \/ refers d' s) ->
  integrity d'.
Proof.
  intros (Is & Il & If) (lf & Ef & Hf) (lr & Er) (ll & El & Hl) (lc & Ec) Hs.
  assert (forall x, In x (map Folder.ID (folders d)) -> In x (map Folder.ID (folders d')))
    as Mf by (intros x Hx; rewrite Ef, List.map_app; apply in_or_app; by left).
  assert (forall x, In x (map Artist.ID (artists d)) -> In x (map Artist.ID (artists d')))
    as Mr by (intros x Hx; rewrite Er, List.map_app; apply in_or_app; by left).
  assert (forall x, In x (map Album.ID (albums d)) -> In x (map Album.ID (albums d')))
    as Ml by (intros x Hx; rewrite El, List.map_app; apply in_or_app; by left).
  assert (forall x, In x (map Art.ID (art d)) -> In x (map Art.ID (art d')))
    as Mc by (intros x Hx; rewrite Ec, List.map_app; apply in_or_app; by left).
  split; [|split].
  - intros s Hin. destruct (Hs s Hin) as [Hold|Hnew]; [|done].
    destruct (Is s Hold) as (R1 & R2 & R3 & R4). unfold refers. intuition.
  - intros a Hin. rewrite El in Hin. apply in_app_or in Hin as [Hin|Hin]; auto.
  - intros f Hin. rewrite Ef in Hin. apply in_app_or in Hin as [Hin|Hin]; [|auto].
    destruct (If f Hin); auto.
Qed.

Lemma no_more {A : Type} (l : list A) : exists k, l = l ++ k.
Proof. exists []. by rewrite app_nil_r. Qed.

Lemma found_Ok {A : Type} (o : option A) a : found o = Ok a -> o = Some a.
Proof. destruct o; [by intros [= ->]|done]. Qed.

Section Parents.
Variable env : Env.

(** [resolveFolder] saves at most one folder, whose parent is a folder
    of the store or none. *)
Lemma resolveFolder_parent currPath info st :
  let st' := (resolveFolder env currPath info st).2 in
  exists l, folders (db st') = folders (db st) ++ l /\
    forall f, In f l ->
      Folder.ParentID f = 0 \/ In (Folder.ParentID f) (map Folder.ID (folders (db st'))).
Proof.
  walk_unfold. walk_cases.
  all: try (exists []; rewrite app_nil_r; split; [done|by intros ? []]).
  all: eexists [_]; (split; [reflexivity|]); intros f [<-|[]]; simpl; auto.
  all: right; rewrite List.map_app; apply in_or_app; left.
  all: match goal with
       | H : found (folderAt _ _) = Ok ?p |- In (Folder.ID ?p) _ =>
           apply found_Ok in H; apply find_some in H as [H _]; by apply in_map
       end.
Qed.

(** [resolveAlbum] saves at most the album it is given. *)
Lemma resolveAlbum_saved album st :
  let st' := (resolveAlbum env album st).2 in
  exists l, albums (db st') = albums (db st) ++ l /\
            forall a, In a l -> Album.ArtistID a = Album.ArtistID album.
Proof.
  walk_unfold. walk_cases.
  all: try (exists []; rewrite app_nil_r; split; [done|by intros ? []]).
  all: eexists [_]; (split; [reflexivity|]); by intros f [<-|[]].
Qed.
End Parents.

Section Sound.
Variable env : Env.
Hypothesis no_fault : faults env = no_faults.

Lemma resolveFolder_sound currPath info st :
  sound st ->
  let out := resolveFolder env currPath info st in
  sound out.2 /\
  forall f, out.1 = inl f -> folderAt (db out.2) (folderPath currPath info) = Some f.
Proof.
  intros (Hc & Hi & Hp).
  destruct (resolveFolder_first env no_fault currPath info st Hc) as [G Hf].
  pose proof (resolveFolder_frame env currPath info st) as F.
  pose proof (resolveFolder_parent env currPath info st) as P.
  destruct (resolveFolder env currPath info st) as [o st1]. simpl in *.
  unfold beside_folders in F. pair_split F.
  assert (artists (db st1) = artists (db st)) as Er by congruence.
  assert (albums (db st1) = albums (db st)) as El by congruence.
  assert (songs (db st1) = songs (db st)) as Es by congruence.
  assert (art (db st1) = art (db st)) as Ec by congruence.
  assert (artFiles st1 = artFiles st) as Ea by congruence.
  split; [split; [|split]|].
  - apply (coherent_grows env st); try done; try congruence.
    destruct Hc as (_ & _ & _ & Hnd). by rewrite Es.
  - apply (integrity_extend (db st)); try done.
    + rewrite Er. apply no_more.
    + exists []. rewrite app_nil_r. split; [done|by intros ? []].
    + rewrite Ec. apply no_more.
    + intros s Hs. left. by rewrite <- Es.
  - intros p Hin. rewrite Ec. apply Hp. by rewrite <- Ea.
  - intros f ->. exact Hf.
Qed.

Lemma cacheFolder_sound f st :
  sound st -> folderAt (db st) (Folder.Path f) = Some f -> sound (cacheFolder f st).
Proof. intros (Hc & Hi & Hp) Hf. split; [by apply coherent_cacheFolder|by split]. Qed.

Lemma scanArt_sound currPath info folder st :
  sound st -> sound (scanArt env currPath info folder st).2.
Proof.
  intros (Hc & Hi & Hp).
  destruct (scanArt_first env no_fault currPath info folder st) as [G _].
  pose proof (scanArt_frame env currPath info folder st) as F.
  pose proof (scanArt_effect env currPath info folder st) as E.
  destruct (scanArt env currPath info folder st) as [o st1]. simpl in *.
  unfold beside_art in F. pair_split F.
  assert (folders (db st1) = folders (db st)) as Ef by congruence.
  assert (artists (db st1) = artists (db st)) as Er by congruence.
  assert (albums (db st1) = albums (db st)) as El by congruence.
  assert (songs (db st1) = songs (db st)) as Es by congruence.
  assert (exists l, art (db st1) = art (db st) ++ l) as Hart.
  { destruct E as [(-> & _)|(f & _ & -> & _)]; [apply no_more|by eexists]. }
  split; [|split].
  - apply (coherent_grows env st); try done; try congruence.
    destruct Hc as (_ & _ & _ & Hnd). by rewrite Es.
  - apply (integrity_extend (db st)); try done.
    + exists []. rewrite app_nil_r. split; [done|by intros ? []].
    + rewrite Er. apply no_more.
    + exists []. rewrite app_nil_r. split; [done|by intros ? []].
    + intros s Hs. left. by rewrite <- Es.
  - intros p Hin. destruct E as [(-> & Efiles & _)|(f & _ & -> & Efiles & _)].
    + apply Hp. by rewrite <- Efiles.
    + rewrite Efiles in Hin. rewrite List.map_app. apply in_or_app.
      apply in_app_or in Hin as [Hin|[<-|[]]]; [left; by apply Hp|right; by left].
Qed.

Lemma resolveArtist_sound title st :
  sound st ->
  let out := resolveArtist env (Artist.mk 0 title) st in
  sound out.2 /\ exists a, out.1 = inl a /\ artistNamed (db out.2) title = Some a.
Proof.
  intros (Hc & Hi & Hp).
  destruct (resolveArtist_first env no_fault title st Hc) as [G Ha].
  pose proof (resolveArtist_frame env (Artist.mk 0 title) st) as F.
  destruct (resolveArtist env (Artist.mk 0 title) st) as [o st1]. simpl in *.
  unfold beside_artists in F. pair_split F.
  assert (folders (db st1) = folders (db st)) as Ef by congruence.
  assert (albums (db st1) = albums (db st)) as El by congruence.
  assert (songs (db st1) = songs (db st)) as Es by congruence.
  assert (art (db st1) = art (db st)) as Ec by congruence.
  assert (artFiles st1 = artFiles st) as Ea by congruence.
  split; [split; [|split]|done].
  - apply (coherent_grows env st); try done; try congruence.
    destruct Hc as (_ & _ & _ & Hnd). by rewrite Es.
  - apply (integrity_extend (db st)); try done.
    + exists []. rewrite app_nil_r. split; [done|by intros ? []].
    + by destruct G as (_ & ? & _).
    + exists []. rewrite app_nil_r. split; [done|by intros ? []].
    + rewrite Ec. apply no_more.
    + intros s Hs. left. by rewrite <- Es.
  - intros p Hin. rewrite Ec. apply Hp. by rewrite <- Ea.
Qed.

Lemma cacheArtist_sound a st :
  sound st -> artistNamed (db st) (Artist.Title a) = Some a -> sound (cacheArtist a st).
Proof. intros (Hc & Hi & Hp) Hf. split; [by apply coherent_cacheArtist|by split]. Qed.

Lemma resolveAlbum_sound album st :
  sound st -> In (Album.ArtistID album) (map Artist.ID (artists (db st))) ->
  let out := resolveAlbum env album st in
  sound out.2 /\
  exists a, out.1 = inl a /\
            albumOf (db out.2) (Album.ArtistID album) (Album.Title album) = Some a.
Proof.
  intros (Hc & Hi & Hp) Hartist.
  destruct (resolveAlbum_first env no_fault album st Hc) as [G Ha].
  pose proof (resolveAlbum_frame env album st) as F.
  pose proof (resolveAlbum_saved env album st) as (l & Hl & Hsaved).
  destruct (resolveAlbum env album st) as [o st1]. simpl in *.
  unfold beside_albums in F. pair_split F.
  assert (folders (db st1) = folders (db st)) as Ef by congruence.
  assert (artists (db st1) = artists (db st)) as Er by congruence.
  assert (songs (db st1) = songs (db st)) as Es by congruence.
  assert (art (db st1) = art (db st)) as Ec by congruence.
  assert (artFiles st1 = artFiles st) as Ea by congruence.
  split; [split; [|split]|done].
  - apply (coherent_grows env st); try done; try congruence.
    destruct Hc as (_ & _ & _ & Hnd). by rewrite Es.
  - apply (integrity_extend (db st)); try done.
    + exists []. rewrite app_nil_r. split; [done|by intros ? []].
    + rewrite Er. apply no_more.
    + exists l. split; [done|]. intros a Hin. rewrite (Hsaved a Hin), Er. done.
    + rewrite Ec. apply no_more.
    + intros s Hs. left. by rewrite <- Es.
  - intros p Hin. rewrite Ec. apply Hp. by rewrite <- Ea.
Qed.

Lemma cacheAlbum_sound album a st :
  sound st -> albumOf (db st) (Album.ArtistID album) (Album.Title album) = Some a ->
  sound (cacheAlbum (albumCacheKey album) a st).
Proof. intros (Hc & Hi & Hp) Hf. split; [by apply coherent_cacheAlbum|by split]. Qed.

Lemma reconcileSong_sound song st :
  sound st -> refers (db st) song -> sound (reconcileSong env song st).2.
Proof.
  intros (Hc & Hi & Hp) Hsong.
  destruct (reconcileSong_first env no_fault song st Hc) as (G & Hnd & _).
  pose proof (reconcileSong_frame env song st) as F.
  pose proof (reconcileSong_effect env song st) as E.
  destruct (reconcileSong env song st) as [o st1]. simpl in *.
  unfold beside_songs in F. pair_split F.
  assert (folders (db st1) = folders (db st)) as Ef by congruence.
  assert (artists (db st1) = artists (db st)) as Er by congruence.
  assert (albums (db st1) = albums (db st)) as El by congruence.
  assert (art (db st1) = art (db st)) as Ec by congruence.
  assert (artFiles st1 = artFiles st) as Ea by congruence.
  assert (forall id, refers (db st1) (Song.withID id song)) as Hnew.
  { intros id. unfold refers in *. simpl. by rewrite Ef, Er, El, Ec. }
  split; [|split].
  - apply (coherent_grows env st); try done; congruence.
  - apply (integrity_extend (db st)); try done.
    + exists []. rewrite app_nil_r. split; [done|by intros ? []].
    + rewrite Er. apply no_more.
    + exists []. rewrite app_nil_r. split; [done|by intros ? []].
    + rewrite Ec. apply no_more.
    + intros s Hs. destruct E as [(E & _)|[E|[E|(id & E)]]]; rewrite E in Hs.
      * by left.
      * by left.
      * apply in_app_or in Hs as [Hs|[<-|[]]]; [by left|right; apply Hnew].
      * apply in_map_iff in Hs as (x & <- & Hx).
        destruct (Song.ID x =? id); [right; apply Hnew|by left].
  - intros p Hin. rewrite Ec. apply Hp. by rewrite <- Ea.
Qed.
End Sound.

Section SoundWalk.
Variable env : Env.
Hypothesis no_fault : faults env = no_faults.

Lemma indexSong_sound song st :
  sound st -> In (Song.FolderID song) (map Folder.ID (folders (db st))) ->
  Song.ArtID song = 0 ->
  sound (indexSong env song st).2.
Proof.
  intros Hs Hfolder Hart.
  destruct (indexSong_run env song st) as (artist & st1 & album & st2 & E1 & E2 & ->). simpl.
  (* the artist *)
  destruct (resolveArtist_sound env no_fault (Song.Artist song) st Hs) as (S1 & a & Ea & Hartist).
  pose proof (resolveArtist_frame env (ArtistFromSong song) st) as F1.
  unfold ArtistFromSong in E1, F1. rewrite E1 in S1, Ea, Hartist, F1. simpl in S1, Ea, Hartist, F1.
  injection Ea as <-.
  pose proof Hartist as Hin1. apply find_some in Hin1 as [Hin1 Ht%String.eqb_eq].
  assert (sound (cacheArtist artist st1)) as S1'
    by (apply cacheArtist_sound; [done|by rewrite Ht]).
  (* the album *)
  set (album0 := Album.withArtistID (Artist.ID artist) (AlbumFromSong song)) in *.
  destruct (resolveAlbum_sound env no_fault album0 (cacheArtist artist st1) S1')
    as (S2 & b & Eb & Halbum).
  { simpl. by apply in_map. }
  pose proof (resolveAlbum_frame env album0 (cacheArtist artist st1)) as F2.
  rewrite E2 in S2, Eb, Halbum, F2. simpl in S2, Eb, Halbum, F2. injection Eb as <-.
  pose proof Halbum as Hin2. apply find_some in Hin2 as [Hin2 _].
  assert (sound (cacheAlbum (albumCacheKey album0) album st2)) as S2'
    by (by apply cacheAlbum_sound).
  (* the song *)
  apply (reconcileSong_sound env no_fault); [done|].
  unfold beside_artists in F1. unfold beside_albums in F2. pair_split F1. pair_split F2.
  simpl in *.
  assert (folders (db st2) = folders (db st)) as Ef by congruence.
  assert (artists (db st2) = artists (db st1)) as Er by congruence.
  unfold refers. simpl. rewrite Ef, Er. repeat split; try done.
  - by apply in_map.
  - by apply in_map.
  - by left.
Qed.

Lemma scanSong_sound currPath info folder st :
  sound st -> In (Folder.ID folder) (map Folder.ID (folders (db st))) ->
  sound (scanSong env currPath info folder st).2.
Proof.
  intros Hs Hfolder. unfold scanSong, SongFromFile.
  destruct (taglib_Read env currPath) as [file|e]; [|done].
  destruct (songTagsError env file); [done|].
  cbn [Song.FileSize Song.withFile].
  destruct (Size info =? 0); [done|].
  destruct (FileTypeMap env !! path_Ext (Name info)); [|done].
  by apply indexSong_sound.
Qed.

Lemma walkFn_sound i currPath info st r st' :
  run (walkFn env i currPath info) st = (r, st') -> sound st -> sound st'.
Proof.
  unfold walkFn. destruct (haltWalk env i); [by intros [= _ <-]|].
  destruct info as [info|]; [|by intros [= _ <-]].
  unfold run, bind at 1. intros H Hs.
  destruct (resolveFolder_sound env no_fault currPath info st Hs) as [S1 Hf].
  destruct (resolveFolder env currPath info st) as [[folder|r1] st1]; simpl in S1, Hf.
  2:{ by injection H as _ <-. }
  specialize (Hf folder eq_refl).
  pose proof Hf as Hin. apply find_some in Hin as [Hin Hp%String.eqb_eq].
  assert (sound (cacheFolder folder st1)) as S2
    by (apply cacheFolder_sound; [done|by rewrite Hp]).
  unfold bind at 1, modify at 1 in H.
  pose proof (scanArt_sound env no_fault currPath info folder (cacheFolder folder st1) S2) as A2.
  pose proof (scanSong_sound currPath info folder (cacheFolder folder st1) S2) as A3.
  destruct (negb (Has (mediaSet env) (path_Ext currPath)) &&
            negb (Has (artSet env) (path_Ext currPath))).
  { by injection H as _ <-. }
  destruct (Has (artSet env) (path_Ext currPath)).
  - destruct (scanArt env currPath info folder (cacheFolder folder st1)) as [[[]|r2] st2];
      by injection H as _ <-.
  - assert (sound (scanSong env currPath info folder (cacheFolder folder st1)).2) as A
      by (apply A3; simpl; by apply in_map).
    destruct (scanSong env currPath info folder (cacheFolder folder st1)) as [[[]|r2] st2];
      by injection H as _ <-.
Qed.

(** The updates of one pair keep the references: the songs they write
    are songs of the store, with the art of the pair. *)
Lemma updateArt_integrity l a : forall d r d',
  updateArt env l a d = (r, d') ->
  integrity d -> In a (map Art.ID (art d)) -> (forall s, In s l -> refers d s) ->
  integrity d'.
Proof.
  induction l as [|s l IH]; simpl; intros d r d' H Hi Ha Hl.
  - by injection H as _ <-.
  - destruct (Song_Update (faults env) (Song.withArtID a s) d) as [[[]|e] d1] eqn:E;
      apply Song_Update_inv in E as (_ & Ef & Er & El & Ec & Es).
    + assert (forall x, refers d x -> refers d1 x) as Hsame
        by (intros x; unfold refers; by rewrite Ef, Er, El, Ec).
      apply (IH _ _ _ H).
      * apply (integrity_extend d); try done.
        -- exists []. rewrite app_nil_r. split; [done|by intros ? []].
        -- rewrite Er. apply no_more.
        -- exists []. rewrite app_nil_r. split; [done|by intros ? []].
        -- rewrite Ec. apply no_more.
        -- intros x Hx. rewrite Es in Hx. apply in_map_iff in Hx as (y & <- & Hy).
           destruct (Song.ID y =? Song.ID (Song.withArtID a s)); [|by left].
           right. destruct (Hl s (or_introl eq_refl)) as (R1 & R2 & R3 & _).
           unfold refers. simpl. rewrite Ef, Er, El, Ec. auto.
      * by rewrite Ec.
      * intros x Hx. apply Hsame. apply Hl. by right.
    + injection H as _ <-. destruct Hi as (Is & Il & If).
      unfold integrity, refers. rewrite Ef, Er, El, Ec, Es. done.
Qed.

Lemma associateArt_integrity pairs : forall d r d',
  associateArt env pairs d = (r, d') ->
  integrity d -> (forall p, In p pairs -> In (artID p) (map Art.ID (art d))) ->
  integrity d'.
Proof.
  induction pairs as [|p pairs IH]; simpl; intros d r d' H Hi Hp.
  - by injection H as _ <-.
  - destruct (DB_SongsForFolder (faults env) (folderID p) d) as [[l|e] d0] eqn:E;
      apply query_inv in E as [-> Hl]; [|by injection H as _ <-].
    destruct (updateArt env l (artID p) _) as [o d1] eqn:E1.
    assert (integrity d1) as Hi1.
    { apply (updateArt_integrity _ _ _ _ _ E1); [done|apply Hp; by left|].
      intros s Hs. rewrite (Hl l eq_refl) in Hs. simpl in Hs.
      apply filter_In in Hs as [Hs _]. destruct Hi as (Is & _). by apply Is. }
    destruct o as [e|]; [by injection H as _ <-|].
    apply (IH _ _ _ H Hi1). intros q Hq.
    apply updateArt_frame in E1 as (_ & _ & _ & _ & -> & _). simpl. apply Hp. by right.
Qed.

(** X9.  A media scan that fails no call keeps the references of the store:
    when every song of the store refers to a folder, an artist and an
    album of the store and to an art of the store or none, every album
    to an artist of the store and every folder to a parent of the store
    or none, the same holds of the store the scan leaves, whatever it
    returns. *)
Theorem MediaScan_integrity root d :
  List.NoDup (map Song.ID (songs d)) -> integrity d ->
  integrity (MediaScan env root d).2.
Proof.
  intros Hnd Hi. unfold MediaScan.
  destruct (walk env 0 (Walk env root) (initState d)) as [o st] eqn:Hw.
  assert (sound st) as (_ & Hi' & Hp).
  { revert Hw. apply (walk_invariant env sound).
    - intros i p info s r s' _ Hs Hrun. by eapply walkFn_sound.
    - split; [|split; [done|by intros ? []]].
      repeat split; try done; simpl; intros ? ?; by rewrite lookup_empty. }
  destruct o as [e|]; [done|].
  destruct (associateArt env (artFiles st) (db st)) as [o d'] eqn:Ha.
  pose proof (associateArt_integrity _ _ _ _ Ha Hi' Hp) as Hd'.
  by destruct o.
Qed.
End SoundWalk.

Lemma Grown_integrity : integrity Grown.indexed.
Proof.
  split; [|split]; apply List.Forall_forall; vm_compute;
    repeat (apply List.Forall_cons; [simpl; auto 10|]); apply List.Forall_nil.
Qed.

Lemma MediaScan_integrity_witness :
  faults Grown.env = no_faults /\
  List.NoDup (map Song.ID (songs Grown.indexed)) /\
  integrity Grown.indexed /\
  integrity (MediaScan Grown.env "/music" Grown.indexed).2.
Proof.
  assert (List.NoDup (map Song.ID (songs Grown.indexed))) as Hnd.
  { vm_compute.
    repeat (apply List.NoDup_cons; [intros Hin; simpl in Hin; intuition discriminate|]).
    apply List.NoDup_nil. }
  split; [reflexivity|]. split; [exact Hnd|]. split; [exact Grown_integrity|].
  exact (MediaScan_integrity Grown.env eq_refl "/music" Grown.indexed Hnd Grown_integrity).
Defined.

(** ** The key of the album cache *)

(** X10.  Two albums have the same key in the album cache exactly when they
    have the same artist identity and the same title: the decimal
    identity is free of the separator, so that an identity and a title
    never read as another identity and another title.  A cache hit thus
    never hands a song the album of another artist or of another
    title. *)
Theorem albumCacheKey_collision_free (al al' : Album.t) :
  albumCacheKey al = albumCacheKey al' <->
  Album.ArtistID al = Album.ArtistID al' /\ Album.Title al = Album.Title al'.
Proof.
  split; [apply albumCacheKey_inj|].
  intros [Ha Ht]. unfold albumCacheKey. by rewrite Ha, Ht.
Qed.

(** ** An orphan scan only removes *)

Section OnlyRemoves.
Variable env : Env.

Lemma cleanup_not_scan_call l :
  Forall (fun c => is_cleanup c = true) l -> Forall (fun c => is_scan_call c = false) l.
Proof. apply List.Forall_impl. by intros []. Qed.

Lemma cleaned_only_removed d d1 :
  cleaned d d1 ->
  only_removed d d1 /\
  exists calls, calls_between d d1 calls /\ Forall (fun c => is_scan_call c = false) calls.
Proof.
  intros (Ia & Is & If & El & Er & l & J & C). unfold only_removed. rewrite El, Er.
  split; [repeat split; try done; apply incl_refl|].
  exists l. split; [done|by apply cleanup_not_scan_call].
Qed.

(** The purges take albums and artists away and touch no other table,
    whether they fail or not. *)
Lemma cascadingPurge_removes d r d' :
  cascadingPurge env d = (r, d') ->
  folders d' = folders d /\ songs d' = songs d /\ art d' = art d /\
  incl (albums d') (albums d) /\ incl (artists d') (artists d) /\
  exists calls, calls_between d d' calls /\ Forall (fun c => is_scan_call c = false) calls.
Proof.
  unfold cascadingPurge, DB_PurgeOrphanAlbums, DB_PurgeOrphanArtists, invoke.
  destruct (faults env PurgeOrphanAlbums).
  { intros [= _ <-]. repeat split; try apply incl_refl.
    exists [PurgeOrphanAlbums]. split; [done|by repeat constructor]. }
  simpl. destruct (faults env PurgeOrphanArtists); intros [= _ <-]; simpl.
  - repeat split; try apply incl_refl; [intros x [? _]%filter_In; done|].
    exists [PurgeOrphanAlbums; PurgeOrphanArtists].
    split; [unfold calls_between; simpl; by rewrite <- app_assoc|by repeat constructor].
  - repeat split; try (intros x [? _]%filter_In; done).
    exists [PurgeOrphanAlbums; PurgeOrphanArtists].
    split; [unfold calls_between; simpl; by rewrite <- app_assoc|by repeat constructor].
Qed.

(** X21.  Whatever an orphan scan returns, an error included, every record
    of the store it leaves is a record of the store it was given, as it
    was: the scan adds and changes nothing.  And it makes none of the
    calls of a media scan: no load, no save, no update. *)
Theorem OrphanScan_only_removes base sub d :
  only_removed d (OrphanScan env base sub d).2 /\
  exists calls, calls_between d (OrphanScan env base sub d).2 calls /\
                Forall (fun c => is_scan_call c = false) calls.
Proof.
  unfold OrphanScan.
  destruct (baseEviction env base d) as [[counts|e] d1] eqn:E1;
    apply baseEviction_cleaned in E1; [|by apply cleaned_only_removed].
  destruct (existenceCheck env _ counts d1) as [[[[a s] f]|e] d2] eqn:E2;
    apply existenceCheck_cleaned in E2;
    pose proof (cleaned_trans _ _ _ E1 E2) as E; [|by apply cleaned_only_removed].
  assert (forall r d3, cascadingPurge env d2 = (r, d3) ->
            only_removed d d3 /\
            exists calls, calls_between d d3 calls /\
                          Forall (fun c => is_scan_call c = false) calls) as Hpurge.
  { intros r d3 H.
    apply cascadingPurge_removes in H as (Pf & Ps & Pa & Pl & Pr & l2 & J2 & C2).
    destruct (cleaned_only_removed d d2 E) as ((If & Ir & Il & Is & Ia) & l1 & J1 & C1).
    unfold only_removed. rewrite Pf, Ps, Pa. split.
    - repeat split; try done; eapply incl_tran; eauto.
    - exists (l1 ++ l2). split; [by eapply calls_between_trans|by apply Forall_app]. }
  destruct (cascadingPurge env d2) as [[[na nr]|e] d3] eqn:E3; simpl; by eapply Hpurge.
Qed.
End OnlyRemoves.
